(** * SafeAudioPlayer and FlowchartCompletion: a shallow embedding

    The two React components of the repository are embedded as functions on
    explicit state.

    - [SafeAudioPlayer]: the component instance is a record [Player] holding
      the [useState] cells, the two refs, the audio elements created so far
      (a store indexed by handle, because closures and [audioRef] alias the
      same element), the running interval timers, the promises in flight and
      a log of what the caller can observe.  Every callback of the source is
      one function on [Player]; [step] dispatches an event to its callback and
      then re-runs the effects whose dependencies changed.
    - [FlowchartCompletion]: [stripBlankMarker] on strings of characters, and
      what [steps.map] renders for each step.

    JavaScript numbers are modelled by rationals ([Q]); [NaN] is a separate
    value of [jsnum]; infinities are not modelled. *)

From Stdlib Require Import QArith Qround Lia Bool Ascii String DecimalString.
From stdpp Require Import list strings gmap.

(* ===================================================================== *)
(** ** SafeAudioPlayer.tsx *)
(* ===================================================================== *)

Module SafeAudioPlayer.

(** *** JavaScript values used by the component *)

Inductive jsnum : Type :=
| NaN
| Num (q : Q).

(** Truthiness of a number: [0] and [NaN] are falsy. *)
Definition truthy_num (x : jsnum) : bool :=
  match x with
  | NaN => false
  | Num q => negb (Qeq_bool q 0)
  end.

(** Truthiness of [string | null | undefined]: absent and [""] are falsy. *)
Definition truthy_str (u : option string) : bool :=
  match u with
  | Some (String _ _) => true
  | _ => false
  end.

(** Truthiness of [number | null] (a timer id). *)
Definition truthy_id (r : option nat) : bool :=
  match r with
  | Some (S _) => true
  | _ => false
  end.

(** *** Props (lines 7-16, 26-35)

    A callback prop is [Some k] when supplied ([k] names the closure the
    caller passed) and [None] when omitted. *)

Record Props : Type := mkProps {
  audioUrl : option string;
  fallbackText : option string;
  accentHint : option string;
  autoPlay : bool;
  onEnded : option nat;
  onError : option nat;
  showControls : bool
}.

(** Dependency array of the load effect (line 131). *)
Definition load_deps_eqb (p q : Props) : bool :=
  bool_decide (audioUrl p = audioUrl q)
  && Bool.eqb (autoPlay p) (autoPlay q)
  && bool_decide (onEnded p = onEnded q)
  && bool_decide (onError p = onError q).

(** *** Audio elements

    [cl_autoPlay], [cl_onEnded], [cl_onError] are the props captured by the
    handlers that the load effect attaches to the element (lines 81-106). *)

Record Audio : Type := mkAudio {
  src : string;
  preload : string;
  volume : Q;
  paused : bool;
  currentTime : Q;
  a_duration : jsnum;
  cl_autoPlay : bool;
  cl_onEnded : option nat;
  cl_onError : option nat
}.

(** [new Audio()] with the handlers of the current render attached. *)
Definition newAudio (p : Props) : Audio :=
  mkAudio "" "" 1 true 0 NaN (autoPlay p) (onEnded p) (onError p).

Definition with_src (x : string) (a : Audio) : Audio :=
  mkAudio x (preload a) (volume a) (paused a) (currentTime a) (a_duration a)
          (cl_autoPlay a) (cl_onEnded a) (cl_onError a).
Definition with_preload (x : string) (a : Audio) : Audio :=
  mkAudio (src a) x (volume a) (paused a) (currentTime a) (a_duration a)
          (cl_autoPlay a) (cl_onEnded a) (cl_onError a).
Definition with_volume (x : Q) (a : Audio) : Audio :=
  mkAudio (src a) (preload a) x (paused a) (currentTime a) (a_duration a)
          (cl_autoPlay a) (cl_onEnded a) (cl_onError a).
Definition with_paused (x : bool) (a : Audio) : Audio :=
  mkAudio (src a) (preload a) (volume a) x (currentTime a) (a_duration a)
          (cl_autoPlay a) (cl_onEnded a) (cl_onError a).
Definition with_currentTime (x : Q) (a : Audio) : Audio :=
  mkAudio (src a) (preload a) (volume a) (paused a) x (a_duration a)
          (cl_autoPlay a) (cl_onEnded a) (cl_onError a).
Definition with_duration (x : jsnum) (a : Audio) : Audio :=
  mkAudio (src a) (preload a) (volume a) (paused a) (currentTime a) x
          (cl_autoPlay a) (cl_onEnded a) (cl_onError a).

(** *** Promises in flight and what the caller observes *)

Inductive Promise : Type :=
| PFetchHead (url : string)      (* fetch(audioUrl, { method: "HEAD" }), line 112 *)
| PAutoPlay (a : nat)            (* audio.play() of line 86 *)
| PTogglePlay (a : nat).         (* audio.play() of line 170 *)

Inductive Response : Type :=
| NetworkFailure
| Status (code : nat).

(** [res.ok]: status in the range 200-299. *)
Definition res_ok (r : Response) : bool :=
  match r with
  | NetworkFailure => false
  | Status c => (200 <=? c) && (c <=? 299)
  end.

Inductive Effect : Type :=
| ConsoleLog (msg : string)
| ConsoleError (msg : string)
| CallOnEnded (k : nat)
| CallOnError (k : nat) (msg : string).

(** *** The component instance *)

Record Player : Type := mkPlayer {
  props : Props;
  (* useState, lines 36-41 *)
  loadError : bool;
  isLoading : bool;
  isPlaying : bool;
  progress : Q;
  duration : jsnum;
  isMuted : bool;
  (* useRef, lines 43-44 *)
  audioRef : option nat;
  progressIntervalRef : option nat;
  (* the element captured by the cleanup the load effect returned, if any *)
  loadCleanupRef : option nat;
  (* the world around the component *)
  heap : list Audio;
  timers : list nat;
  nextTimer : nat;
  promises : list (Promise * bool);   (* [true]: not settled yet *)
  log : list Effect;
  mounted : bool
}.

Definition initial (p : Props) : Player :=
  mkPlayer p false true false 0 (Num 0) false None None None [] [] 1 [] [] true.

Section Setters.
Variable s : Player.

Definition hooks (le il ip : bool) (pr : Q) (du : jsnum) (mu : bool) : Player :=
  mkPlayer (props s) le il ip pr du mu (audioRef s) (progressIntervalRef s)
           (loadCleanupRef s) (heap s) (timers s) (nextTimer s) (promises s)
           (log s) (mounted s).

(** State setters; React ignores them once the component is unmounted. *)
Definition setLoadError (b : bool) : Player :=
  if mounted s
  then hooks b (isLoading s) (isPlaying s) (progress s) (duration s) (isMuted s)
  else s.
Definition setIsLoading (b : bool) : Player :=
  if mounted s
  then hooks (loadError s) b (isPlaying s) (progress s) (duration s) (isMuted s)
  else s.
Definition setIsPlaying (b : bool) : Player :=
  if mounted s
  then hooks (loadError s) (isLoading s) b (progress s) (duration s) (isMuted s)
  else s.
Definition setProgress (q : Q) : Player :=
  if mounted s
  then hooks (loadError s) (isLoading s) (isPlaying s) q (duration s) (isMuted s)
  else s.
Definition setDuration (d : jsnum) : Player :=
  if mounted s
  then hooks (loadError s) (isLoading s) (isPlaying s) (progress s) d (isMuted s)
  else s.
Definition setIsMuted (b : bool) : Player :=
  if mounted s
  then hooks (loadError s) (isLoading s) (isPlaying s) (progress s) (duration s) b
  else s.

Definition with_props (p : Props) : Player :=
  mkPlayer p (loadError s) (isLoading s) (isPlaying s) (progress s) (duration s)
           (isMuted s) (audioRef s) (progressIntervalRef s) (loadCleanupRef s)
           (heap s) (timers s) (nextTimer s) (promises s) (log s) (mounted s).
Definition with_audioRef (r : option nat) : Player :=
  mkPlayer (props s) (loadError s) (isLoading s) (isPlaying s) (progress s)
           (duration s) (isMuted s) r (progressIntervalRef s) (loadCleanupRef s)
           (heap s) (timers s) (nextTimer s) (promises s) (log s) (mounted s).
Definition with_intervalRef (r : option nat) : Player :=
  mkPlayer (props s) (loadError s) (isLoading s) (isPlaying s) (progress s)
           (duration s) (isMuted s) (audioRef s) r (loadCleanupRef s)
           (heap s) (timers s) (nextTimer s) (promises s) (log s) (mounted s).
Definition with_loadCleanup (r : option nat) : Player :=
  mkPlayer (props s) (loadError s) (isLoading s) (isPlaying s) (progress s)
           (duration s) (isMuted s) (audioRef s) (progressIntervalRef s) r
           (heap s) (timers s) (nextTimer s) (promises s) (log s) (mounted s).
Definition with_heap (h : list Audio) : Player :=
  mkPlayer (props s) (loadError s) (isLoading s) (isPlaying s) (progress s)
           (duration s) (isMuted s) (audioRef s) (progressIntervalRef s)
           (loadCleanupRef s) h (timers s) (nextTimer s) (promises s) (log s)
           (mounted s).
Definition with_timers (t : list nat) (n : nat) : Player :=
  mkPlayer (props s) (loadError s) (isLoading s) (isPlaying s) (progress s)
           (duration s) (isMuted s) (audioRef s) (progressIntervalRef s)
           (loadCleanupRef s) (heap s) t n (promises s) (log s) (mounted s).
Definition with_promises (p : list (Promise * bool)) : Player :=
  mkPlayer (props s) (loadError s) (isLoading s) (isPlaying s) (progress s)
           (duration s) (isMuted s) (audioRef s) (progressIntervalRef s)
           (loadCleanupRef s) (heap s) (timers s) (nextTimer s) p (log s)
           (mounted s).
Definition with_log (l : list Effect) : Player :=
  mkPlayer (props s) (loadError s) (isLoading s) (isPlaying s) (progress s)
           (duration s) (isMuted s) (audioRef s) (progressIntervalRef s)
           (loadCleanupRef s) (heap s) (timers s) (nextTimer s) (promises s) l
           (mounted s).
Definition with_mounted (b : bool) : Player :=
  mkPlayer (props s) (loadError s) (isLoading s) (isPlaying s) (progress s)
           (duration s) (isMuted s) (audioRef s) (progressIntervalRef s)
           (loadCleanupRef s) (heap s) (timers s) (nextTimer s) (promises s)
           (log s) b.
End Setters.

(** *** Primitive operations of the platform *)

(** Assignment to a field of element [a] (nothing happens on a dangling
    handle; none is ever created). *)
Definition on_audio (f : Audio -> Audio) (a : nat) (s : Player) : Player :=
  with_heap s (alter f a (heap s)).

Definition audio_pause : nat -> Player -> Player := on_audio (with_paused true).

(** [audio.play()] returns a promise; whether playback starts is reported
    later by the platform (a [play] event, or a rejection). *)
Definition audio_play (k : nat -> Promise) (a : nat) (s : Player) : Player :=
  with_promises s (promises s ++ [(k a, true)]).

Definition console_log (m : string) (s : Player) : Player :=
  with_log s (log s ++ [ConsoleLog m]).
Definition console_error (m : string) (s : Player) : Player :=
  with_log s (log s ++ [ConsoleError m]).

(** [cb?.(...)]: an omitted callback is skipped. *)
Definition call_opt (cb : option nat) (e : nat -> Effect) (s : Player) : Player :=
  match cb with
  | Some k => with_log s (log s ++ [e k])
  | None => s
  end.

Definition clearInterval (id : nat) (s : Player) : Player :=
  with_timers s (filter (fun t => t <> id) (timers s)) (nextTimer s).

(** [window.setInterval]: a fresh positive id, now running. *)
Definition setInterval (s : Player) : nat * Player :=
  (nextTimer s, with_timers s (nextTimer s :: timers s) (S (nextTimer s))).

(** *** The hooks of the component body *)

(** Cleanup on unmount (lines 47-57). *)
Definition unmountCleanup (s : Player) : Player :=
  let s := match progressIntervalRef s with
           | Some id => if truthy_id (Some id) then clearInterval id s else s
           | None => s
           end in
  match audioRef s with
  | Some a => on_audio (with_src "") a (audio_pause a s)
  | None => s
  end.

(** Load and validate the audio URL (body of the effect, lines 60-125). *)
Definition loadEffect (s : Player) : Player :=
  let s := setLoadError s false in
  let s := setIsLoading s true in
  let s := setIsPlaying s false in
  let s := setProgress s 0 in
  match audioUrl (props s) with
  | Some (String c r) =>
      let url := String c r in
      let a := length (heap s) in
      let s := with_heap s (heap s ++ [newAudio (props s)]) in
      let s := with_audioRef s (Some a) in
      let s := on_audio (with_preload "auto") a s in
      let s := on_audio (with_volume (if isMuted s then 0 else 1)) a s in
      let s := on_audio (with_src url) a s in
      let s := with_promises s (promises s ++ [(PFetchHead url, true)]) in
      with_loadCleanup s (Some a)
  | _ =>
      let s := console_log "SafeAudioPlayer: No audioUrl provided, using TTS fallback" s in
      let s := setLoadError s true in
      let s := setIsLoading s false in
      with_loadCleanup s None
  end.

(** The cleanup the load effect returns (lines 127-130); [a] is the element
    its closure captured. *)
Definition loadCleanup (a : nat) (s : Player) : Player :=
  on_audio (with_src "") a (audio_pause a s).

(** Handlers attached to element [a] (lines 81-106). *)
Definition onloadedmetadata (a : nat) (s : Player) : Player :=
  match heap s !! a with
  | Some au =>
      let s := console_log "SafeAudioPlayer: R2 audio loaded successfully" s in
      let s := setDuration s (a_duration au) in
      let s := setIsLoading s false in
      if cl_autoPlay au then audio_play PAutoPlay a s else s
  | None => s
  end.

(** [.catch] of the autoplay attempt (lines 86-88). *)
Definition autoplayCatch (s : Player) : Player :=
  console_error "SafeAudioPlayer: Autoplay failed:" s.

Definition onplay (s : Player) : Player := setIsPlaying s true.
Definition onpause (s : Player) : Player := setIsPlaying s false.

Definition onended (a : nat) (s : Player) : Player :=
  match heap s !! a with
  | Some au =>
      let s := setIsPlaying s false in
      let s := setProgress s 0 in
      call_opt (cl_onEnded au) CallOnEnded s
  | None => s
  end.

Definition onerror (a : nat) (s : Player) : Player :=
  match heap s !! a with
  | Some au =>
      let s := console_error "SafeAudioPlayer: R2 Audio Failed, switching to TTS" s in
      let s := setLoadError s true in
      let s := setIsLoading s false in
      call_opt (cl_onError au) (fun k => CallOnError k "Audio failed to load") s
  | None => s
  end.

(** [.then] of the HEAD request (lines 113-117): does it throw? *)
Definition headThen_throws (r : Response) : bool := negb (res_ok r).

(** [.catch] of the HEAD request (lines 118-125). *)
Definition headCatch (s : Player) : Player :=
  let s := console_error "SafeAudioPlayer: HEAD check failed for R2 URL:" s in
  let s := match audioRef s with
           | Some a => on_audio (with_src "") a s
           | None => s
           end in
  let s := setLoadError s true in
  setIsLoading s false.

(** Update muted state (lines 134-138). *)
Definition muteEffect (s : Player) : Player :=
  match audioRef s with
  | Some a => on_audio (with_volume (if isMuted s then 0 else 1)) a s
  | None => s
  end.

(** Callback of the progress interval (lines 144-147). *)
Definition progressTick (s : Player) : Player :=
  match audioRef s with
  | Some a =>
      match heap s !! a with
      | Some au =>
          match a_duration au with
          | Num d =>
              if truthy_num (Num d)
              then setProgress s ((currentTime au / d) * 100)%Q
              else s
          | NaN => s
          end
      | None => s
      end
  | None => s
  end.

(** Progress tracking (lines 141-155). *)
Definition progressEffect (s : Player) : Player :=
  if isPlaying s && bool_decide (is_Some (audioRef s)) && negb (loadError s)
  then let '(id, s) := setInterval s in with_intervalRef s (Some id)
  else match progressIntervalRef s with
       | Some id =>
           if truthy_id (Some id)
           then with_intervalRef (clearInterval id s) None
           else s
       | None => s
       end.

(** Its cleanup (lines 156-160). *)
Definition progressCleanup (s : Player) : Player :=
  match progressIntervalRef s with
  | Some id => if truthy_id (Some id) then clearInterval id s else s
  | None => s
  end.

(** Lines 163-172. *)
Definition togglePlay (s : Player) : Player :=
  match audioRef s with
  | None => s
  | Some a =>
      if isPlaying s then audio_pause a s else audio_play PTogglePlay a s
  end.

(** Lines 174-181.  [value] is the array the slider passes.  The result is
    [None] when the assignment to [currentTime] throws: [value[0]] is
    [undefined] there and the computed time is [NaN]. *)
Definition handleSeek (value : list Q) (s : Player) : option Player :=
  match audioRef s with
  | None => Some s
  | Some a =>
      match heap s !! a with
      | None => Some s
      | Some au =>
          match a_duration au with
          | NaN => Some s
          | Num d =>
              if negb (truthy_num (Num d)) then Some s
              else match value with
                   | [] => None
                   | v :: _ =>
                       let newTime := ((v / 100) * d)%Q in
                       let s := on_audio (with_currentTime newTime) a s in
                       Some (setProgress s v)
                   end
          end
      end
  end.

(** [onClick] of the volume button (line 262). *)
Definition toggleMute (s : Player) : Player := setIsMuted s (negb (isMuted s)).

(** *** Time labels (lines 183-187) *)

(** [Math.floor]: an integer, or [NaN] (here [None]). *)
Definition Math_floor (x : jsnum) : option Z :=
  match x with
  | NaN => None
  | Num q => Some (Qfloor q)
  end.

(** [x / d] and [x % d] for a constant [d] other than 0.  The remainder of
    JavaScript has the sign of [x]: the quotient is rounded towards 0. *)
Definition js_div (x : jsnum) (d : Q) : jsnum :=
  match x with
  | NaN => NaN
  | Num q => Num (q / d)
  end.

Definition Qtruncate (q : Q) : Z :=
  if Qle_bool 0 q then Qfloor q else Qceiling q.

Definition js_rem (x : jsnum) (d : Q) : jsnum :=
  match x with
  | NaN => NaN
  | Num q => Num (q - d * inject_Z (Qtruncate (q / d)))
  end.

(** [toString] of an integer or [NaN], also what a template prints. *)
Definition toString (z : option Z) : string :=
  match z with
  | None => "NaN"
  | Some z => NilZero.string_of_int (Z.to_int z)
  end.

(** [s.padStart(n, c)] for a padding of one character. *)
Definition padStart (n : nat) (c : ascii) (s : string) : string :=
  string_of_list_ascii (repeat c (n - String.length s)) ++ s.

Definition formatTime (seconds : jsnum) : string :=
  let mins := Math_floor (js_div seconds 60) in
  let secs := Math_floor (js_rem seconds 60) in
  toString mins ++ ":" ++ padStart 2 "0" (toString secs).

(** The two labels beside the slider (lines 219, 243, 254): the position
    of the current element, [0] without one, and the published duration. *)
Definition timeLabels (s : Player) : string * string :=
  let currentTime :=
    match audioRef s with
    | Some a =>
        match heap s !! a with
        | Some au => if Qeq_bool (currentTime au) 0 then 0%Q else currentTime au
        | None => 0%Q
        end
    | None => 0%Q
    end in
  (formatTime (Num currentTime), formatTime (duration s)).

(** *** What is rendered (lines 189-272) *)

Inductive View : Type :=
| Unavailable
| Simulated (text : string) (accent : option string) (onComplete : option nat)
| Hidden
| Controls (loading playing : bool) (value : Q) (shown : jsnum) (muted : bool).

Definition render (s : Player) : View :=
  if loadError s || negb (truthy_str (audioUrl (props s)))
  then match fallbackText (props s) with
       | Some (String c r) =>
           Simulated (String c r) (accentHint (props s)) (onEnded (props s))
       | _ => Unavailable
       end
  else if negb (showControls (props s)) then Hidden
  else Controls (isLoading s) (isPlaying s) (progress s) (duration s) (isMuted s).

(** The backend the component has settled on: the fallback branch of line
    193, else the real player, which shows a spinner until metadata
    arrived. *)
Inductive Decision : Type := Pending | Real | Fallback.

Definition decision (s : Player) : Decision :=
  if loadError s || negb (truthy_str (audioUrl (props s))) then Fallback
  else if isLoading s then Pending
  else Real.

(** The slider value is a percentage; the published fraction is a hundredth
    of it. *)
Definition positionFraction (s : Player) : Q := (progress s / 100)%Q.

(** Everything React runs when the component goes away: the cleanups of the
    three effects that have one, in the order of the source. *)
Definition teardown (s : Player) : Player :=
  let s := unmountCleanup s in
  let s := match loadCleanupRef s with
           | Some a => loadCleanup a s
           | None => s
           end in
  progressCleanup s.

(** *** Events and the reaction of the component *)

Inductive Event : Type :=
| EvProps (p : Props)                 (* the parent re-renders with props [p] *)
| EvUnmount
| EvLoadedMetadata (a : nat) (d : Q)  (* element [a] learnt its duration [d] *)
| EvTime (a : nat) (t : Q)            (* playback of [a] reached position [t] *)
| EvPlay (a : nat)
| EvPause (a : nat)
| EvEnded (a : nat)
| EvError (a : nat)
| EvResponse (i : nat) (r : Response) (* promise [i], a HEAD request, settles *)
| EvPlaySettled (i : nat) (ok : bool) (* promise [i], a play(), settles *)
| EvTick (id : nat)                   (* interval [id] fires *)
| EvTogglePlay
| EvSeek (value : list Q)
| EvToggleMute.

Definition settle (i : nat) (s : Player) : Player :=
  with_promises s (alter (fun p => (p.1, false)) i (promises s)).

(** One event, up to the end of the callback it runs. *)
Definition dispatch (e : Event) (s : Player) : Player :=
  match e with
  | EvProps p =>
      if mounted s then
        if load_deps_eqb (props s) p then with_props s p
        else
          let s := with_props s p in
          let s := match loadCleanupRef s with
                   | Some a => loadCleanup a s
                   | None => s
                   end in
          loadEffect s
      else s
  | EvUnmount =>
      if mounted s then with_mounted (teardown s) false else s
  | EvLoadedMetadata a d =>
      onloadedmetadata a (on_audio (with_duration (Num d)) a s)
  | EvTime a t => on_audio (with_currentTime t) a s
  | EvPlay a =>
      match heap s !! a with
      | Some _ => onplay (on_audio (with_paused false) a s)
      | None => s
      end
  | EvPause a =>
      match heap s !! a with
      | Some _ => onpause (on_audio (with_paused true) a s)
      | None => s
      end
  | EvEnded a => onended a s
  | EvError a => onerror a s
  | EvResponse i r =>
      match promises s !! i with
      | Some (PFetchHead _, true) =>
          let s := settle i s in
          if headThen_throws r then headCatch s else s
      | _ => s
      end
  | EvPlaySettled i ok =>
      match promises s !! i with
      | Some (PAutoPlay _, true) =>
          let s := settle i s in
          if ok then s else autoplayCatch s
      | Some (PTogglePlay _, true) =>
          let s := settle i s in
          (* .catch(console.error), line 170: the error alone is printed *)
          if ok then s else console_error "" s
      | _ => s
      end
  | EvTick id =>
      if bool_decide (id ∈ timers s) then progressTick s else s
  | EvTogglePlay => togglePlay s
  | EvSeek value =>
      match handleSeek value s with
      | Some s' => s'
      | None => s
      end
  | EvToggleMute => toggleMute s
  end.

(** After the callback React renders again and re-runs the effects whose
    dependencies changed: the mute effect on [isMuted], the progress effect
    (cleanup first) on [isPlaying] and [loadError]. *)
Definition commit (old new : Player) : Player :=
  let new := if Bool.eqb (isMuted old) (isMuted new) then new else muteEffect new in
  if Bool.eqb (isPlaying old) (isPlaying new) && Bool.eqb (loadError old) (loadError new)
  then new
  else progressEffect (progressCleanup new).

Definition step (e : Event) (s : Player) : Player := commit s (dispatch e s).

(** First render: every effect runs once, in the order of the source. *)
Definition mount (p : Props) : Player :=
  let s0 := initial p in
  commit s0 (progressEffect (muteEffect (loadEffect s0))).

Definition run (evs : list Event) (s : Player) : Player :=
  fold_left (fun s e => step e s) evs s.

(** Events other than a re-render: the props stay as they are. *)
Definition in_session (e : Event) : bool :=
  match e with
  | EvProps _ => false
  | _ => true
  end.

Definition is_onError (e : Effect) : bool :=
  match e with
  | CallOnError _ _ => true
  | _ => false
  end.

(** The invocations of [onError] so far. *)
Definition onError_calls (s : Player) : list Effect :=
  List.filter is_onError (log s).

End SafeAudioPlayer.

(* ===================================================================== *)
(** ** FlowchartCompletion.tsx *)
(* ===================================================================== *)

Module FlowchartCompletion.

(** A label is a JavaScript string; it is modelled by the list of its
    characters, a character being a code unit below 256. *)
Definition chars (s : string) : list ascii := list_ascii_of_string s.
Definition text (l : list ascii) : string := string_of_list_ascii l.

(** [index < total - 1] (line 35); the subtraction is the one of numbers,
    so it is written as an addition on the other side. *)
Definition shouldRenderArrow (index total : nat) : bool := index + 1 <? total.

(** Does [s] start with [pat]? *)
Fixpoint starts_with (pat s : list ascii) : bool :=
  match pat, s with
  | [], _ => true
  | _ :: _, [] => false
  | p :: pat', c :: s' => Ascii.eqb p c && starts_with pat' s'
  end.

(** [s.replace(new RegExp(pat, 'g'), '')] for a pattern that matches the
    literal text [pat]: one scan from the left; at a match the text is
    dropped and the scan resumes behind it.  [skip] counts the characters of
    the current match that are still to be dropped. *)
Fixpoint scan (pat : list ascii) (skip : nat) (s : list ascii) : list ascii :=
  match s with
  | [] => []
  | c :: s' =>
      match skip with
      | S k => scan pat k s'
      | 0 =>
          if starts_with pat s
          then scan pat (length pat - 1) s'
          else c :: scan pat 0 s'
      end
  end.

Definition removeAll (pat s : list ascii) : list ascii :=
  match pat with
  | [] => s
  | _ :: _ => scan pat 0 s
  end.

(** [s.replace(/c{k,}/g, '')]: every maximal run of at least [k] characters
    [c] is dropped.  [pend] counts the characters of the current run seen
    so far. *)
Definition flush (c : ascii) (k pend : nat) : list ascii :=
  if k <=? pend then [] else repeat c pend.

Fixpoint dropRuns (c : ascii) (k pend : nat) (s : list ascii) : list ascii :=
  match s with
  | [] => flush c k pend
  | x :: s' =>
      if Ascii.eqb x c then dropRuns c k (S pend) s'
      else flush c k pend ++ x :: dropRuns c k 0 s'
  end.

(** White space for [trim], among the characters below 256: tab, line feed,
    vertical tab, form feed, carriage return, space, no-break space. *)
Definition is_ws (c : ascii) : bool :=
  let n := nat_of_ascii c in
  ((9 <=? n) && (n <=? 13)) || (n =? 32) || (n =? 160).

Fixpoint trimStart (s : list ascii) : list ascii :=
  match s with
  | [] => []
  | c :: s' => if is_ws c then trimStart s' else s
  end.

Definition trim (s : list ascii) : list ascii :=
  reverse (trimStart (reverse (trimStart s))).

(** [`${questionNumber}`] for a question number, a natural number. *)
Definition decimal (n : nat) : list ascii :=
  chars (NilZero.string_of_uint (Nat.to_uint n)).

Definition marker (opening closing : ascii) (n : nat) : list ascii :=
  opening :: decimal n ++ [closing].

(** Lines 38-48.  [questionNumber] is optional; [undefined] and [0] are
    falsy. *)
Definition stripBlankMarker (label : string) (questionNumber : option nat) : string :=
  match questionNumber with
  | Some (S m) =>
      let n := S m in
      let s := chars label in
      let s := removeAll (marker "(" ")" n) s in
      let s := removeAll (marker "[" "]" n) s in
      let s := dropRuns "_" 2 0 s in
      let s := dropRuns "." 3 0 s in
      let s := removeAll (chars "______") s in
      text (trim s)
  | _ => label
  end.

(** *** The steps of the chart (lines 5-10, 60-114) *)

Record FlowchartStep : Type := mkStep {
  id : string;
  label : string;
  questionNumber : option nat;
  isBlank : option bool
}.

(** What the component renders for one step: the box (highlighted when
    active) with the cleaned label, the inline input when the step has a
    question number, and the arrow behind the box. *)
Record InputView : Type := mkInput {
  value : string;
  placeholder : string;
  onChangeTarget : option nat   (* first argument of [onAnswerChange] *)
}.

Record StepView : Type := mkStepView {
  key : string;
  isActive : bool;
  cleanLabel : string;
  input : option InputView;
  arrow : bool
}.

(** Truthiness of [number | undefined]. *)
Definition truthy_qnum (q : option nat) : bool :=
  match q with
  | Some (S _) => true
  | _ => false
  end.

(** [`${qNum}`]. *)
Definition template (q : option nat) : string :=
  match q with
  | Some n => text (decimal n)
  | None => "undefined"
  end.

(** [answers[qNum] || ''] on the record of answers (line 64). *)
Definition answerOf (answers : gmap nat string) (qNum : nat) : string :=
  match answers !! qNum with
  | Some (String c r) => String c r
  | _ => ""
  end.

(** Body of the callback of [steps.map] (lines 60-113). *)
Definition renderStep (answers : gmap nat string) (currentQuestion total : nat)
    (index : nat) (step : FlowchartStep) : StepView :=
  let isActive := bool_decide (questionNumber step = Some currentQuestion) in
  let showInput := truthy_qnum (questionNumber step) in
  let qNum := questionNumber step in
  let val := match qNum with
             | Some (S m) => answerOf answers (S m)
             | _ => ""
             end in
  let cleanLabel := stripBlankMarker (label step) qNum in
  mkStepView (id step) isActive cleanLabel
    (if showInput
     then Some (mkInput val ("(" ++ template qNum ++ ")") qNum)
     else None)
    (shouldRenderArrow index total).

Definition renderSteps (steps : list FlowchartStep) (answers : gmap nat string)
    (currentQuestion : nat) : list StepView :=
  imap (renderStep answers currentQuestion (length steps)) steps.

(** *** Vocabulary of the statements *)

(** Does [s] contain [pat]? *)
Fixpoint contains (pat s : list ascii) : bool :=
  starts_with pat s
  || match s with
     | [] => false
     | _ :: s' => contains pat s'
     end.

(** Every occurrence of the character [opening] in [s] is the beginning of
    an occurrence of [pat]. *)
Fixpoint opens_only (opening : ascii) (pat s : list ascii) : Prop :=
  match s with
  | [] => True
  | c :: s' => (c = opening -> starts_with pat s = true) /\ opens_only opening pat s'
  end.

(** The decimal digits. *)
Definition digit (c : ascii) : Prop :=
  48 <= nat_of_ascii c /\ nat_of_ascii c <= 57.

(** Text that holds none of the characters the blank markers are made of. *)
Definition ordinary (s : list ascii) : Prop :=
  ("("%char ∉ s) /\ ("["%char ∉ s) /\ ("_"%char ∉ s) /\ ("."%char ∉ s).

End FlowchartCompletion.

(* ===================================================================== *)
(** ** Vocabulary of the statements about SafeAudioPlayer *)
(* ===================================================================== *)

Module AudioVocabulary.
Import SafeAudioPlayer.


(** Props of the scenarios: a recorded asset, another one, none, and a
    recorded asset with autoplay; the caller supplies [onError]. *)
Definition props_real : Props :=
  mkProps (Some "https://x/a.mp3") (Some "Hello") None false None (Some 7) true.
Definition props_other : Props :=
  mkProps (Some "https://x/b.mp3") (Some "Hello") None false None (Some 7) true.
Definition props_absent : Props :=
  mkProps None (Some "Hello") None false None (Some 7) true.

Definition props_autoplay : Props :=
  mkProps (Some "https://x/a.mp3") (Some "Hello") None true None (Some 7) true.

(** The mute effect only touches the volume of the elements. *)
Definition same_media (a b : Audio) : Prop :=
  src a = src b /\ preload a = preload b /\ paused a = paused b /\
  currentTime a = currentTime b /\ a_duration a = a_duration b /\
  cl_autoPlay a = cl_autoPlay b /\ cl_onEnded a = cl_onEnded b /\
  cl_onError a = cl_onError b.

(** Stopping an element and detaching its source. *)
Definition release (a : Audio) : Audio := with_src "" (with_paused true a).

Definition released (r : option nat) (h : list Audio) : list Audio :=
  match r with
  | Some a => alter release a h
  | None => h
  end.

Definition cleared (r : option nat) (t : list nat) : list nat :=
  match r with
  | Some (S id) => filter (fun x => x <> S id) t
  | _ => t
  end.

(** A cleanup only touches the elements and the running timers. *)
Definition touch (h : list Audio) (t : list nat) (s : Player) : Player :=
  with_timers (with_heap s h) t (nextTimer s).

(** Detaching the source of the current element. *)
Definition detached (r : option nat) (h : list Audio) : list Audio :=
  match r with
  | Some a => alter (with_src "") a h
  | None => h
  end.

(** Everything of the component but the bookkeeping of promises and the
    console: what a callback applied to a session can change for the user. *)
Definition component_state (s : Player) :=
  (props s, (loadError s, isLoading s, isPlaying s, progress s, duration s, isMuted s),
   (audioRef s, progressIntervalRef s, loadCleanupRef s),
   (heap s, timers s, nextTimer s), mounted s).

(** *** Assumptions on the platform and invariants of the progress value *)

(** An element plays inside its media: the position is not negative and, once
    the duration is known, not beyond it. *)
Definition media_ok (au : Audio) : Prop :=
  (0 <= currentTime au)%Q
  /\ match a_duration au with
     | Num d => (currentTime au <= d)%Q
     | NaN => True
     end.

(** What the platform is assumed to deliver.  [loadedmetadata] fires on an
    element whose source is attached, once, with a duration that covers the
    current position; a position update stays inside the media; the slider
    (min 0, max 100) calls back with a value in its range. *)
Definition env_ok (e : Event) (s : Player) : bool :=
  match e with
  | EvLoadedMetadata a d =>
      match heap s !! a with
      | Some au =>
          Qle_bool (currentTime au) d
          && negb (String.eqb (src au) "")
          && match a_duration au with
             | NaN => true
             | Num _ => false
             end
      | None => true
      end
  | EvTime a t =>
      Qle_bool 0 t
      && match heap s !! a with
         | Some au =>
             match a_duration au with
             | Num d => Qle_bool t d
             | NaN => true
             end
         | None => true
         end
  | EvSeek (v :: _) => Qle_bool 0 v && Qle_bool v 100
  | _ => true
  end.

Fixpoint trace_ok (s : Player) (evs : list Event) : bool :=
  match evs with
  | [] => true
  | e :: evs => env_ok e s && trace_ok (step e s) evs
  end.

(** What holds of the progress machinery in every state the component
    reaches: the published value is a percentage; every element plays inside
    its media; the value is 0 while the published duration is 0; the
    published duration is known when the duration of the current handle is;
    the value is 0 while the current, attached handle has no duration; every
    element but the one owned by the pending cleanup is detached, and that
    one is the current handle. *)
Record Inv (s : Player) : Prop := mkInv {
  inv_progress : (0 <= progress s)%Q /\ (progress s <= 100)%Q;
  inv_media : Forall media_ok (heap s);
  inv_zero : truthy_num (duration s) = false -> (progress s == 0)%Q;
  inv_known :
    mounted s = true ->
    forall a au, audioRef s = Some a -> heap s !! a = Some au ->
                 truthy_num (a_duration au) = true -> truthy_num (duration s) = true;
  inv_unknown :
    forall a au, audioRef s = Some a -> heap s !! a = Some au -> src au <> "" ->
                 truthy_num (a_duration au) = false -> (progress s == 0)%Q;
  inv_stale :
    forall a au, heap s !! a = Some au -> loadCleanupRef s <> Some a -> src au = "";
  inv_owner : forall a, loadCleanupRef s = Some a -> audioRef s = Some a
}.

(** A change of an element that keeps its position and duration and keeps
    or detaches its source. *)
Definition quiet (au au' : Audio) : Prop :=
  currentTime au' = currentTime au
  /\ a_duration au' = a_duration au
  /\ (src au' = src au \/ src au' = "").

(** A change of the component that leaves the progress machinery alone. *)
Record inert (s s' : Player) : Prop := mkInert {
  in_progress : progress s' = progress s \/ progress s' = 0%Q;
  in_duration : duration s' = duration s;
  in_mounted : mounted s' = true -> mounted s = true;
  in_audioRef : audioRef s' = audioRef s;
  in_cleanup : loadCleanupRef s' = loadCleanupRef s;
  in_heap : Forall2 quiet (heap s) (heap s')
}.

Definition inert_event (e : Event) : bool :=
  match e with
  | EvProps _ | EvLoadedMetadata _ _ | EvTime _ _ | EvTick _ | EvSeek _ => false
  | _ => true
  end.

(** Sampling runs while the component is mounted, playing and not in
    error. *)
Record TInv (s : Player) : Prop := mkTInv {
  ti_handle : audioRef s = None -> heap s = [] /\ isPlaying s = false;
  ti_next : nextTimer s <> 0;
  ti_timer :
    mounted s = true -> isPlaying s = true -> loadError s = false ->
    exists id, progressIntervalRef s = Some (S id) /\ S id ∈ timers s
}.

(** *** Vocabulary of the further properties *)

(** The number [k] below 100 written with two decimal digits. *)
Definition two_digits (k : nat) : string :=
  String (ascii_of_nat (48 + k / 10)) (String (ascii_of_nat (48 + k mod 10)) EmptyString).

(** The label [m:ss] of a time that is not negative: whole minutes, and the
    remaining whole seconds with two digits. *)
Definition clock (q : Q) : string :=
  toString (Some (Qfloor q / 60)%Z) ++ ":" ++ two_digits (Z.to_nat (Qfloor q mod 60)).

(** A number that is known and not negative. *)
Definition nonneg (x : jsnum) : Prop :=
  match x with
  | Num d => (0 <= d)%Q
  | NaN => False
  end.

(** At most one sampling timer runs, the one [progressIntervalRef] records,
    and only while the component is mounted, playing and not in error. *)
Record OneTimer (s : Player) : Prop := mkOneTimer {
  ot_next : nextTimer s <> 0;
  ot_one :
    timers s = []
    \/ exists id, timers s = [S id] /\ progressIntervalRef s = Some (S id);
  ot_when :
    timers s <> [] -> mounted s = true /\ isPlaying s = true /\ loadError s = false
}.

(** The volume [isMuted ? 0 : 1] (lines 79, 136). *)
Definition volume_of (muted : bool) : Q := if muted then 0 else 1.

(** The handlers of an element were attached under props [p]. *)
Definition handlers_of (p : Props) (au : Audio) : Prop :=
  cl_autoPlay au = autoPlay p /\ cl_onEnded au = onEnded p /\ cl_onError au = onError p.

(** A change of an element that keeps its volume and its handlers. *)
Definition same_setup (au au' : Audio) : Prop :=
  volume au' = volume au /\ cl_autoPlay au' = cl_autoPlay au
  /\ cl_onEnded au' = cl_onEnded au /\ cl_onError au' = cl_onError au.

(** The element owned by the session exists, is the current one, belongs
    to a reference that is present, and its handlers are those of the
    current props; the current element sounds as [isMuted] says. *)
Record Live (s : Player) : Prop := mkLive {
  lv_owner :
    forall a, loadCleanupRef s = Some a ->
              audioRef s = Some a
              /\ truthy_str (audioUrl (props s)) = true
              /\ exists au, heap s !! a = Some au /\ handlers_of (props s) au;
  lv_volume :
    forall a au, audioRef s = Some a -> heap s !! a = Some au ->
                 volume au = volume_of (isMuted s)
}.

(** *** Sessions

    The specification keys a session by the asset reference.  The component
    has no such notion: the load effect runs again whenever one of its
    dependencies [audioUrl], [autoPlay], [onEnded], [onError] changes (line
    131), a new callback identity included.  The statements below name both:
    the stretch between two runs of the load effect, and the stretch during
    which the reference stays absent. *)




(** The event keeps the reference absent: it is no re-render, or a
    re-render without [audioUrl], whatever else it changes. *)
Definition stays_absent (e : Event) : bool :=
  match e with
  | EvProps p => bool_decide (audioUrl p = None)
  | _ => true
  end.

(** An error event of an element. *)
Definition element_error (e : Event) : bool :=
  match e with
  | EvError _ => true
  | _ => false
  end.

(** What the handler of line 105 reports when event [e] arrives in state
    [s]: one call of the [onError] it captured, for an error event of an
    existing element whose handler captured one. *)
Definition error_report (e : Event) (s : Player) : list Effect :=
  match e with
  | EvError a =>
      match heap s !! a with
      | Some au =>
          match cl_onError au with
          | Some k => [CallOnError k "Audio failed to load"]
          | None => []
          end
      | None => []
      end
  | _ => []
  end.

Fixpoint error_reports (s : Player) (evs : list Event) : list Effect :=
  match evs with
  | [] => []
  | e :: evs => error_report e s ++ error_reports (step e s) evs
  end.

(** The HEAD requests issued so far. *)
Definition head_requests (s : Player) : list string :=
  omap (fun pr => match pr.1 with
                  | PFetchHead url => Some url
                  | _ => None
                  end) (promises s).


End AudioVocabulary.

(* ===================================================================== *)
(** ** Properties of SafeAudioPlayer *)
(* ===================================================================== *)

Module AudioFacts.
Import SafeAudioPlayer AudioVocabulary.

(** *** Proof automation

    A callback is a chain of record updates guarded by tests on the state.
    [grind] opens the component record, reduces the record plumbing and
    splits on the innermost test that blocks the reduction, unfolding one
    callback at a time. *)

Ltac pred :=
  cbn [props loadError isLoading isPlaying progress duration isMuted audioRef
     progressIntervalRef loadCleanupRef heap timers nextTimer promises log mounted
     audioUrl fallbackText accentHint autoPlay onEnded onError showControls
     src preload volume paused currentTime a_duration cl_autoPlay cl_onEnded cl_onError
     with_src with_preload with_volume with_paused with_currentTime with_duration
     setInterval clearInterval audio_pause audio_play on_audio console_log
     console_error call_opt setLoadError setIsLoading setIsPlaying setProgress
     setDuration setIsMuted hooks with_props with_audioRef with_intervalRef
     with_loadCleanup with_heap with_timers with_promises with_log with_mounted
     commit muteEffect progressEffect progressCleanup teardown
     dispatch loadEffect loadCleanup unmountCleanup onloadedmetadata autoplayCatch
     onplay onpause onended onerror headCatch headThen_throws progressTick
     togglePlay handleSeek toggleMute settle step decision
     truthy_id truthy_str in_session fst snd negb andb orb] in *.

Ltac innermost x :=
  lazymatch x with
  | context [match ?y with _ => _ end] => innermost y
  | _ => x
  end.

Ltac split_atomic :=
  match goal with
  | |- context [match ?x with _ => _ end] =>
      let y := innermost x in destruct y eqn:?
  end.

Ltac unstick :=
  first [ progress unfold call_opt in *
        | progress unfold progressCleanup in *
        | progress unfold muteEffect in *
        | progress unfold progressTick in *
        | progress unfold progressEffect in *
        | progress unfold loadCleanup, unmountCleanup in *
        | progress unfold onloadedmetadata, onended, onerror, headCatch in *
        | progress unfold togglePlay, toggleMute in *
        | progress unfold loadEffect in *
        | progress unfold teardown in *
        | progress unfold dispatch in *
        | progress unfold commit in *
        | progress unfold step in *
        | progress unfold decision in * ].

Ltac grind_by extra :=
  repeat (pred; try unfold handleSeek in *; extra; try congruence;
          first [split_atomic | unstick; try split_atomic]);
  pred; extra; try congruence.

Ltac grind := grind_by idtac.

(** Call-by-value evaluation of the record plumbing, for goals whose state
    is an explicit record. *)
Ltac plumb :=
  pred;
  cbv beta iota zeta delta
    [props loadError isLoading isPlaying progress duration isMuted audioRef
     progressIntervalRef loadCleanupRef heap timers nextTimer promises log mounted
     setInterval clearInterval audio_pause audio_play on_audio console_log
     console_error with_props with_audioRef with_intervalRef with_loadCleanup
     with_heap with_timers with_promises with_log with_mounted
     setLoadError setIsLoading setIsPlaying setProgress setDuration setIsMuted hooks]
    in *.

Ltac player s := destruct s as [? ? ? ? ? ? ? ? ? ? ? ? ? ? ? [|]].

(** *** What re-running the effects leaves alone *)

Lemma commit_props o n : props (commit o n) = props n.
Proof. player o; player n; grind. Qed.
Lemma commit_loadError o n : loadError (commit o n) = loadError n.
Proof. player o; player n; grind. Qed.
Lemma commit_isLoading o n : isLoading (commit o n) = isLoading n.
Proof. player o; player n; grind. Qed.
Lemma commit_isPlaying o n : isPlaying (commit o n) = isPlaying n.
Proof. player o; player n; grind. Qed.
Lemma commit_progress o n : progress (commit o n) = progress n.
Proof. player o; player n; grind. Qed.
Lemma commit_duration o n : duration (commit o n) = duration n.
Proof. player o; player n; grind. Qed.
Lemma commit_isMuted o n : isMuted (commit o n) = isMuted n.
Proof. player o; player n; grind. Qed.
Lemma commit_audioRef o n : audioRef (commit o n) = audioRef n.
Proof. player o; player n; grind. Qed.
Lemma commit_loadCleanupRef o n : loadCleanupRef (commit o n) = loadCleanupRef n.
Proof. player o; player n; grind. Qed.
Lemma commit_promises o n : promises (commit o n) = promises n.
Proof. player o; player n; grind. Qed.
Lemma commit_log o n : log (commit o n) = log n.
Proof. player o; player n; grind. Qed.
Lemma commit_mounted o n : mounted (commit o n) = mounted n.
Proof. player o; player n; grind. Qed.

Lemma commit_decision o n : decision (commit o n) = decision n.
Proof.
  unfold decision.
  now rewrite commit_props, commit_loadError, commit_isLoading.
Qed.

(** Nothing to re-run when no dependency changed. *)
Lemma commit_same o n :
  isMuted o = isMuted n -> isPlaying o = isPlaying n -> loadError o = loadError n ->
  commit o n = n.
Proof.
  intros Hm Hp He. unfold commit. rewrite Hm, Hp, He, !eqb_reflx. reflexivity.
Qed.

Lemma same_media_refl a : same_media a a.
Proof. repeat split. Qed.

Lemma Forall2_same_media_refl (h : list Audio) : Forall2 same_media h h.
Proof. induction h; constructor; auto using same_media_refl. Qed.

Lemma same_media_alter_volume v i (h : list Audio) :
  Forall2 same_media h (alter (with_volume v) i h).
Proof.
  revert i. induction h as [|x h IH]; intros i.
  - constructor.
  - destruct i as [|i]; simpl; constructor.
    + repeat split.
    + apply Forall2_same_media_refl.
    + apply same_media_refl.
    + apply IH.
Qed.

Lemma commit_heap o n : Forall2 same_media (heap n) (heap (commit o n)).
Proof.
  player o; player n; grind;
    auto using Forall2_same_media_refl, same_media_alter_volume.
Qed.

(** *** One event inside a session *)

Lemma dispatch_props e s : in_session e = true -> props (dispatch e s) = props s.
Proof. intros He. destruct e; try discriminate He; clear He; player s; grind. Qed.



Lemma step_props e s : in_session e = true -> props (step e s) = props s.
Proof. intros. unfold step. rewrite commit_props. now apply dispatch_props. Qed.



Lemma run_cons e evs s : run (e :: evs) s = run evs (step e s).
Proof. reflexivity. Qed.

Lemma run_app evs1 evs2 s : run (evs1 ++ evs2) s = run evs2 (run evs1 s).
Proof. unfold run. apply fold_left_app. Qed.



(** The fallback branch is taken as soon as the error flag is up. *)
Lemma decision_loadError s : loadError s = true -> decision s = Fallback.
Proof. unfold decision. now intros ->. Qed.

Lemma onError_calls_app s l :
  onError_calls (with_log s (log s ++ l)) = onError_calls s ++ List.filter is_onError l.
Proof. unfold onError_calls. cbn [log with_log]. apply List.filter_app. Qed.

(** *** Playback-start failures *)

(** C8.  When the [play()] of the autoplay attempt is rejected, the rejection
    handler writes one line to the error console and nothing else: the
    decision is what it was, and [onError] is not called. *)
Theorem autoplay_failure_is_logged_only (s : Player) (i a : nat) :
  promises s !! i = Some (PAutoPlay a, true) ->
  let s' := step (EvPlaySettled i false) s in
  s' = console_error "SafeAudioPlayer: Autoplay failed:" (settle i s)
  /\ decision s' = decision s
  /\ log s' = log s ++ [ConsoleError "SafeAudioPlayer: Autoplay failed:"]
  /\ onError_calls s' = onError_calls s.
Proof.
  intros Hp s'.
  assert (Hs' : s' = console_error "SafeAudioPlayer: Autoplay failed:" (settle i s)).
  { subst s'. unfold step. cbn [dispatch]. rewrite Hp.
    apply commit_same; reflexivity. }
  rewrite Hs'. repeat split.
  unfold console_error, settle. cbn [log with_promises].
  rewrite (onError_calls_app (with_promises s _)). cbn.
  apply app_nil_r.
Qed.

Lemma autoplay_failure_is_logged_only_witness :
  let s := run [EvLoadedMetadata 0 30] (mount props_autoplay) in
  decision s = Real
  /\ decision (step (EvPlaySettled 1 false) s) = Real
  /\ onError_calls (step (EvPlaySettled 1 false) s) = [].
Proof.
  pose proof (autoplay_failure_is_logged_only
                (run [EvLoadedMetadata 0 30] (mount props_autoplay)) 1 0 eq_refl)
    as (_ & Hd & _ & He).
  split; [reflexivity|]. split.
  - rewrite Hd. reflexivity.
  - rewrite He. reflexivity.
Defined.

(** *** Teardown *)

Lemma touch_touch h t h' t' s : touch h' t' (touch h t s) = touch h' t' s.
Proof. reflexivity. Qed.

Lemma touch_id s : touch (heap s) (timers s) s = s.
Proof. now destruct s. Qed.

Lemma filter_ne_idem (id : nat) (l : list nat) :
  filter (fun t => t <> id) (filter (fun t => t <> id) l) = filter (fun t => t <> id) l.
Proof.
  induction l as [|x l IH]; [reflexivity|].
  rewrite (filter_cons _ x l). destruct (decide (x <> id)) as [Hx|Hx]; [|exact IH].
  rewrite filter_cons. destruct (decide (x <> id)); [|contradiction].
  now rewrite IH.
Qed.

Lemma cleared_idem r t : cleared r (cleared r t) = cleared r t.
Proof. destruct r as [[|id]|]; simpl; auto using filter_ne_idem. Qed.


Lemma released_comm r r' h : released r (released r' h) = released r' (released r h).
Proof.
  destruct r as [i|], r' as [j|]; simpl; try reflexivity.
  destruct (decide (i = j)) as [->|Hij]; [reflexivity|].
  now apply list_alter_alter_ne.
Qed.


Lemma unmountCleanup_shape s :
  unmountCleanup s =
  touch (released (audioRef s) (heap s)) (cleared (progressIntervalRef s) (timers s)) s.
Proof.
  destruct s as [? ? ? ? ? ? ? [a|] [[|id]|] ? ? ? ? ? ? ?]; unfold unmountCleanup;
    cbn [audioRef progressIntervalRef truthy_id]; try reflexivity;
    unfold touch, released, cleared, on_audio, audio_pause, clearInterval, with_heap,
      with_timers; cbn; rewrite list_alter_alter_eq; reflexivity.
Qed.

Lemma loadCleanup_shape a s :
  loadCleanup a s = touch (released (Some a) (heap s)) (timers s) s.
Proof.
  destruct s. unfold loadCleanup, touch, released, on_audio, audio_pause, with_heap,
    with_timers. cbn. rewrite list_alter_alter_eq. reflexivity.
Qed.

Lemma progressCleanup_shape s :
  progressCleanup s = touch (heap s) (cleared (progressIntervalRef s) (timers s)) s.
Proof.
  destruct s as [? ? ? ? ? ? ? ? [[|id]|] ? ? ? ? ? ? ?]; reflexivity.
Qed.

Lemma teardown_shape s :
  teardown s =
  touch (released (loadCleanupRef s) (released (audioRef s) (heap s)))
        (cleared (progressIntervalRef s) (cleared (progressIntervalRef s) (timers s)))
        s.
Proof.
  unfold teardown. rewrite progressCleanup_shape.
  assert (Hl : forall x : Player,
             match loadCleanupRef x with
             | Some a => loadCleanup a x
             | None => x
             end
             = touch (released (loadCleanupRef x) (heap x)) (timers x) x).
  { intros x. destruct (loadCleanupRef x) as [a|] eqn:E.
    - apply loadCleanup_shape.
    - symmetry. apply touch_id. }
  rewrite Hl, unmountCleanup_shape. reflexivity.
Qed.






(** *** The existence probe *)

Lemma headCatch_shape s :
  headCatch s =
  (fun x => setIsLoading (setLoadError x true) false)
    (with_heap (console_error "SafeAudioPlayer: HEAD check failed for R2 URL:" s)
               (detached (audioRef s) (heap s))).
Proof. destruct s as [? ? ? ? ? ? ? [a|] ? ? ? ? ? ? ? ?]; reflexivity. Qed.

Lemma headCatch_loadError s : mounted s = true -> loadError (headCatch s) = true.
Proof. rewrite headCatch_shape. destruct s. cbn. now intros ->. Qed.

Lemma headCatch_isLoading s : mounted s = true -> isLoading (headCatch s) = false.
Proof. rewrite headCatch_shape. destruct s. cbn. now intros ->. Qed.

Lemma headCatch_heap s : heap (headCatch s) = detached (audioRef s) (heap s).
Proof. rewrite headCatch_shape. destruct s as [? ? ? ? ? ? ? ? ? ? ? ? ? ? ? [|]]; reflexivity. Qed.

Lemma headCatch_audioRef s : audioRef (headCatch s) = audioRef s.
Proof. rewrite headCatch_shape. destruct s as [? ? ? ? ? ? ? ? ? ? ? ? ? ? ? [|]]; reflexivity. Qed.

Lemma headCatch_log s :
  log (headCatch s)
  = log s ++ [ConsoleError "SafeAudioPlayer: HEAD check failed for R2 URL:"].
Proof. rewrite headCatch_shape. destruct s as [? ? ? ? ? ? ? ? ? ? ? ? ? ? ? [|]]; reflexivity. Qed.

Lemma headCatch_props s : props (headCatch s) = props s.
Proof. rewrite headCatch_shape. destruct s as [? ? ? ? ? ? ? ? ? ? ? ? ? ? ? [|]]; reflexivity. Qed.

(** A failed response to a request in flight runs the rejection handler. *)
Lemma step_response_fail s i url r :
  promises s !! i = Some (PFetchHead url, true) -> res_ok r = false ->
  step (EvResponse i r) s = commit s (headCatch (settle i s)).
Proof.
  intros Hp Hr. unfold step. cbn [dispatch]. rewrite Hp.
  unfold headThen_throws. now rewrite Hr.
Qed.

(** A successful one only marks the promise settled; any other response
    finds no request in flight. *)
Lemma step_response_ok s i r :
  res_ok r = true ->
  step (EvResponse i r) s = s \/ step (EvResponse i r) s = settle i s.
Proof.
  intros Hr. unfold step. cbn [dispatch].
  destruct (promises s !! i) as [[[url|a|a] [|]]|]; try (left; apply commit_same; reflexivity).
  right. unfold headThen_throws. rewrite Hr. apply commit_same; reflexivity.
Qed.

Lemma current_detached s s' a au :
  Forall2 same_media (detached (audioRef s) (heap s)) (heap s') ->
  audioRef s = Some a -> heap s' !! a = Some au -> src au = "".
Proof.
  intros HF Ha Hl. rewrite Ha in HF. cbn [detached] in HF.
  destruct (Forall2_lookup_r _ _ _ _ _ HF Hl) as (au0 & Hl0 & Hsm).
  rewrite list_lookup_alter_eq in Hl0.
  destruct (heap s !! a) as [x|]; [|discriminate].
  injection Hl0 as <-. destruct Hsm as [<- _]. reflexivity.
Qed.


(** *** Monotonicity of the decision *)





(** *** No asset offered *)

Lemma alter_nil (f : Audio -> Audio) (a : nat) : alter f a [] = [].
Proof. reflexivity. Qed.

Lemma dispatch_no_handle e s :
  in_session e = true ->
  heap s = [] -> audioRef s = None -> promises s = [] ->
  heap (dispatch e s) = [] /\ audioRef (dispatch e s) = None
  /\ promises (dispatch e s) = [] /\ log (dispatch e s) = log s.
Proof.
  intros He Hh Ha Hp.
  destruct e; try discriminate He; clear He; player s; cbn in Hh, Ha, Hp; subst;
    grind_by ltac:(rewrite ?alter_nil, ?lookup_nil in *); auto.
Qed.

Lemma step_no_handle e s :
  in_session e = true ->
  heap s = [] -> audioRef s = None -> promises s = [] ->
  heap (step e s) = [] /\ audioRef (step e s) = None
  /\ promises (step e s) = [] /\ log (step e s) = log s.
Proof.
  intros He Hh Ha Hp.
  destruct (dispatch_no_handle e s He Hh Ha Hp) as (Hh' & Ha' & Hp' & Hl').
  unfold step. rewrite commit_audioRef, commit_promises, commit_log.
  repeat split; auto.
  pose proof (commit_heap s (dispatch e s)) as HF. rewrite Hh' in HF.
  now apply Forall2_nil_inv_l in HF.
Qed.


(** Without an asset reference line 193 takes the fallback branch whatever
    the state cells hold. *)
Lemma decision_absent s : audioUrl (props s) = None -> decision s = Fallback.
Proof. unfold decision. intros ->. cbn. now rewrite orb_true_r. Qed.

Lemma mount_absent p :
  audioUrl p = None ->
  mount p =
  mkPlayer p true false false 0 (Num 0) false None None None [] [] 1 [] 
    [ConsoleLog "SafeAudioPlayer: No audioUrl provided, using TTS fallback"] true.
Proof. destruct p as [u ? ? ? ? ? ?]. cbn [audioUrl]. intros ->. reflexivity. Qed.


(** *** Late probe responses *)

Lemma step_unmount s : step EvUnmount s = dispatch EvUnmount s.
Proof.
  unfold step. cbn [dispatch].
  destruct (mounted s); [|apply commit_same; reflexivity].
  rewrite teardown_shape. apply commit_same; reflexivity.
Qed.

Lemma detached_released r h : detached r (released r h) = released r h.
Proof.
  destruct r as [a|]; [|reflexivity]. cbn [detached released].
  rewrite list_alter_alter_eq. apply list_alter_ext; auto.
Qed.

Lemma detached_teardown lc r h :
  detached r (released lc (released r h)) = released lc (released r h).
Proof. now rewrite (released_comm lc r h), detached_released. Qed.

Lemma component_state_settle i s : component_state (settle i s) = component_state s.
Proof. reflexivity. Qed.

Lemma headCatch_unmounted s :
  mounted s = false ->
  component_state (headCatch s)
  = component_state (with_heap s (detached (audioRef s) (heap s))).
Proof.
  intros Hm. rewrite headCatch_shape.
  destruct s as [? ? ? ? ? ? ? ? ? ? ? ? ? ? ? m]. cbn [mounted] in Hm. subst m.
  reflexivity.
Qed.

Lemma commit_unmounted o n :
  mounted o = false -> component_state n = component_state o -> commit o n = n.
Proof.
  intros _ H. unfold component_state in H.
  apply commit_same; congruence.
Qed.

Lemma late_response_after_unmount s0 i r :
  mounted s0 = true ->
  component_state (step (EvResponse i r) (step EvUnmount s0))
  = component_state (step EvUnmount s0).
Proof.
  intros Hm0. rewrite step_unmount. cbn [dispatch]. rewrite Hm0.
  set (s := with_mounted (teardown s0) false).
  assert (Hm : mounted s = false) by reflexivity.
  assert (Hh : detached (audioRef s) (heap s) = heap s).
  { subst s. rewrite teardown_shape. cbn [with_mounted touch with_timers with_heap heap
      audioRef]. apply detached_teardown. }
  assert (Hd : component_state (dispatch (EvResponse i r) s) = component_state s).
  { cbn [dispatch].
    destruct (promises s !! i) as [[[url|a|a] [|]]|]; try reflexivity.
    destruct (headThen_throws r); [|reflexivity].
    rewrite headCatch_unmounted by reflexivity.
    cbn [settle with_promises audioRef heap].
    rewrite Hh. now destruct s. }
  unfold step. rewrite commit_unmounted; auto.
Qed.

(** C5, as the code has it.  No liveness check guards the probe's
    handlers.  A successful response is a no-op (it only settles the promise).
    After unmount a late response changes nothing of the component: the state
    setters are ignored and the source it detaches is detached already.  A
    failed response that arrives while the component is mounted is applied to
    the session current at that moment, whichever session issued the request:
    it raises the error flag, so the decision is Fallback, and it detaches the
    source of the current media handle. *)
Theorem late_probe_response_effect (s : Player) (i : nat) (r : Response) :
  (res_ok r = true ->
   step (EvResponse i r) s = s \/ step (EvResponse i r) s = settle i s)
  /\ (mounted s = true ->
      component_state (step (EvResponse i r) (step EvUnmount s))
      = component_state (step EvUnmount s))
  /\ (forall url,
        mounted s = true ->
        promises s !! i = Some (PFetchHead url, true) ->
        res_ok r = false ->
        let s' := step (EvResponse i r) s in
        loadError s' = true /\ isLoading s' = false /\ decision s' = Fallback
        /\ (forall a au, audioRef s' = Some a -> heap s' !! a = Some au -> src au = "")).
Proof.
  split; [apply step_response_ok|].
  split; [apply late_response_after_unmount|].
  intros url Hm Hp Hr s'.
  assert (Hs' : s' = commit s (headCatch (settle i s))).
  { subst s'. now apply (step_response_fail s i url r). }
  assert (Hms : mounted (settle i s) = true) by now destruct s.
  assert (Hle : loadError s' = true).
  { rewrite Hs', commit_loadError. now apply headCatch_loadError. }
  split; [exact Hle|].
  split; [rewrite Hs', commit_isLoading; now apply headCatch_isLoading|].
  split; [now apply decision_loadError|].
  intros a au Ha Hl. rewrite Hs' in Ha, Hl.
  rewrite commit_audioRef, headCatch_audioRef in Ha.
  eapply (current_detached (settle i s)); [|exact Ha|exact Hl].
  rewrite <- headCatch_heap. apply commit_heap.
Qed.

Lemma late_probe_response_effect_witness :
  let s := step (EvProps props_other) (mount props_real) in
  (step (EvResponse 0 (Status 200)) s = s
   \/ step (EvResponse 0 (Status 200)) s = settle 0 s)
  /\ component_state (step (EvResponse 0 (Status 404)) (step EvUnmount s))
     = component_state (step EvUnmount s)
  /\ decision (step (EvResponse 0 (Status 404)) s) = Fallback.
Proof.
  pose proof (late_probe_response_effect
                (step (EvProps props_other) (mount props_real)) 0 (Status 200))
    as (H1 & _ & _).
  pose proof (late_probe_response_effect
                (step (EvProps props_other) (mount props_real)) 0 (Status 404))
    as (_ & H2 & H3).
  split; [exact (H1 eq_refl)|].
  split; [exact (H2 eq_refl)|].
  exact (proj1 (proj2 (proj2 (H3 "https://x/a.mp3" eq_refl eq_refl eq_refl)))).
Defined.

(** C5 as stated fails.  The reference changes from [a.mp3] to [b.mp3]; the
    probe of the torn-down session then answers 404.  The new session, which
    was pending with its source attached, is switched to the fallback and the
    source of its handle is detached. *)
Lemma late_probe_failure_hits_new_session :
  let s := step (EvProps props_other) (mount props_real) in
  let s' := step (EvResponse 0 (Status 404)) s in
  promises s !! 0 = Some (PFetchHead "https://x/a.mp3", true)
  /\ audioUrl (props s) = Some "https://x/b.mp3"
  /\ audioRef s = Some 1
  /\ decision s = Pending
  /\ src <$> heap s !! 1 = Some "https://x/b.mp3"
  /\ decision s' = Fallback
  /\ src <$> heap s' !! 1 = Some ""
  /\ component_state s' <> component_state s.
Proof. vm_compute. repeat split. discriminate. Qed.

(** *** Seeking *)

Lemma truthy_Num d : ~ (d == 0)%Q -> truthy_num (Num d) = true.
Proof.
  intros Hd. cbn. destruct (Qeq_bool d 0) eqn:E; [|reflexivity].
  apply Qeq_bool_eq in E. contradiction.
Qed.

Lemma truthy_Num_inv d : truthy_num (Num d) = true -> ~ (d == 0)%Q.
Proof.
  cbn. destruct (Qeq_bool d 0) eqn:E; [discriminate|].
  intros _. now apply Qeq_bool_neq.
Qed.

Lemma handleSeek_known s a au d v rest :
  audioRef s = Some a -> heap s !! a = Some au -> a_duration au = Num d ->
  ~ (d == 0)%Q ->
  handleSeek (v :: rest) s
  = Some (setProgress (on_audio (with_currentTime ((v / 100) * d)%Q) a s) v).
Proof.
  intros Ha Hl Hd Hnz. unfold handleSeek. rewrite Ha, Hl, Hd.
  now rewrite (truthy_Num d Hnz).
Qed.

Lemma handleSeek_unknown s value :
  (audioRef s = None
   \/ exists a au, audioRef s = Some a /\ heap s !! a = Some au
                   /\ truthy_num (a_duration au) = false) ->
  handleSeek value s = Some s.
Proof.
  intros [Ha|(a & au & Ha & Hl & Hd)]; unfold handleSeek; rewrite Ha; [reflexivity|].
  rewrite Hl. destruct (a_duration au) as [|d]; [reflexivity|]. now rewrite Hd.
Qed.

(** C7.  [handleSeek] does nothing unless the current handle has a known,
    nonzero duration.  With duration [d] and slider value [v] it sets the
    position of the handle to [v / 100 * d] and publishes [v] in the same
    step, without waiting for a sample: the published fraction is [v / 100].
    With a duration of 30 seconds, seeking to 50 puts the handle at 15 seconds
    and the fraction at one half. *)
Theorem seek_updates_position_at_once (s : Player) (value : list Q) :
  ((audioRef s = None
    \/ exists a au, audioRef s = Some a /\ heap s !! a = Some au
                    /\ truthy_num (a_duration au) = false) ->
   handleSeek value s = Some s /\ step (EvSeek value) s = s)
  /\ (forall a au d v rest,
        mounted s = true ->
        audioRef s = Some a -> heap s !! a = Some au -> a_duration au = Num d ->
        ~ (d == 0)%Q -> value = v :: rest ->
        let s' := step (EvSeek value) s in
        s' = setProgress (on_audio (with_currentTime ((v / 100) * d)%Q) a s) v
        /\ heap s' !! a = Some (with_currentTime ((v / 100) * d)%Q au)
        /\ progress s' = v
        /\ (positionFraction s' == v / 100)%Q
        /\ ((d == 30)%Q -> (v == 50)%Q ->
            exists au', heap s' !! a = Some au'
                        /\ (currentTime au' == 15)%Q
                        /\ (positionFraction s' == 1 / 2)%Q)).
Proof.
  split.
  - intros H. pose proof (handleSeek_unknown s value H) as Hs.
    split; [exact Hs|]. unfold step. cbn [dispatch]. rewrite Hs.
    apply commit_same; reflexivity.
  - intros a au d v rest Hm Ha Hl Hd Hnz -> s'.
    pose proof (handleSeek_known s a au d v rest Ha Hl Hd Hnz) as Hs.
    assert (Hs' : s' = setProgress (on_audio (with_currentTime ((v / 100) * d)%Q) a s) v).
    { subst s'. unfold step. cbn [dispatch]. rewrite Hs.
      apply commit_same; destruct s as [? ? ? ? ? ? ? ? ? ? ? ? ? ? ? m];
        cbn [mounted] in Hm; subst m; reflexivity. }
    assert (Hheap : heap s' !! a = Some (with_currentTime ((v / 100) * d)%Q au)).
    { rewrite Hs'. destruct s as [? ? ? ? ? ? ? ? ? ? h ? ? ? ? m].
      cbn [mounted heap] in *. subst m. cbn.
      now rewrite list_lookup_alter_eq, Hl. }
    assert (Hprog : progress s' = v).
    { rewrite Hs'. destruct s as [? ? ? ? ? ? ? ? ? ? h ? ? ? ? m].
      cbn [mounted] in Hm. subst m. reflexivity. }
    split; [exact Hs'|]. split; [exact Hheap|]. split; [exact Hprog|].
    split; [unfold positionFraction; now rewrite Hprog|].
    intros Hd30 Hv50. eexists. split; [exact Hheap|]. split.
    + cbn [currentTime with_currentTime]. rewrite Hd30, Hv50. reflexivity.
    + unfold positionFraction. rewrite Hprog, Hv50. reflexivity.
Qed.

Lemma seek_updates_position_at_once_witness :
  let s := run [EvResponse 0 (Status 200); EvLoadedMetadata 0 30] (mount props_real) in
  let s' := step (EvSeek [50%Q]) s in
  decision s = Real
  /\ (exists au', heap s' !! 0 = Some au' /\ (currentTime au' == 15)%Q
                  /\ (positionFraction s' == 1 / 2)%Q)
  /\ step (EvSeek [50%Q]) (mount props_real) = mount props_real.
Proof.
  pose (s := run [EvResponse 0 (Status 200); EvLoadedMetadata 0 30] (mount props_real)).
  pose (au := mkAudio "https://x/a.mp3" "auto" 1 true 0 (Num 30) false None (Some 7)).
  assert (Hl : heap s !! 0 = Some au) by (vm_compute; reflexivity).
  assert (Hnz : ~ (30 == 0)%Q) by discriminate.
  destruct (seek_updates_position_at_once s [50%Q]) as (_ & Hk).
  destruct (Hk 0 au 30%Q 50%Q [] eq_refl eq_refl Hl eq_refl Hnz eq_refl)
    as (_ & _ & _ & _ & H30).
  destruct (seek_updates_position_at_once (mount props_real) [50%Q]) as (Hu & _).
  split; [vm_compute; reflexivity|]. split.
  - apply H30; reflexivity.
  - apply Hu. right. exists 0, (mkAudio "https://x/a.mp3" "auto" 1 true 0 NaN false None (Some 7)).
    repeat split.
Defined.

(** *** Invariants of the progress value *)

Lemma quiet_refl au : quiet au au.
Proof. repeat split. now left. Qed.

Lemma quiet_trans a b c : quiet a b -> quiet b c -> quiet a c.
Proof.
  intros (H1 & H2 & H3) (H4 & H5 & H6). repeat split; try congruence.
  destruct H6 as [H6|H6]; [|now right]. destruct H3; [left|right]; congruence.
Qed.

Lemma Forall2_quiet_refl (h : list Audio) : Forall2 quiet h h.
Proof. induction h; constructor; auto using quiet_refl. Qed.

Lemma Forall2_quiet_alter f a (h k : list Audio) :
  (forall x, quiet x (f x)) -> Forall2 quiet h k -> Forall2 quiet h (alter f a k).
Proof.
  intros Hf HF. revert a. induction HF as [|x y h k Hxy HF IH]; intros a.
  - constructor.
  - destruct a as [|a]; cbn; constructor; auto.
    eapply quiet_trans; [exact Hxy|apply Hf].
Qed.

Lemma quiet_with_paused b x : quiet x (with_paused b x).
Proof. repeat split. now left. Qed.
Lemma quiet_with_volume v x : quiet x (with_volume v x).
Proof. repeat split. now left. Qed.
Lemma quiet_with_src_empty x : quiet x (with_src "" x).
Proof. repeat split. now right. Qed.
Lemma quiet_release x : quiet x (release x).
Proof. repeat split. now right. Qed.

Create HintDb quiet.
#[local] Hint Resolve Forall2_quiet_refl Forall2_quiet_alter quiet_with_paused
  quiet_with_volume quiet_with_src_empty quiet_release : quiet.

Lemma dispatch_inert e s : inert_event e = true -> inert s (dispatch e s).
Proof.
  intros He. destruct e; try discriminate He; clear He; player s;
    constructor; grind; auto 6 with quiet.
Qed.

Lemma same_media_quiet a b : same_media a b -> quiet a b.
Proof. intros (H1 & _ & _ & H4 & H5 & _). repeat split; auto. Qed.

Lemma commit_inert o n : inert n (commit o n).
Proof.
  constructor.
  - left. apply commit_progress.
  - apply commit_duration.
  - now rewrite commit_mounted.
  - apply commit_audioRef.
  - apply commit_loadCleanupRef.
  - eapply Forall2_impl; [apply commit_heap|]. apply same_media_quiet.
Qed.

Lemma media_ok_quiet a b : quiet a b -> media_ok a -> media_ok b.
Proof. intros (H1 & H2 & _). unfold media_ok. now rewrite H1, H2. Qed.

Lemma Forall_media_ok_quiet (h k : list Audio) :
  Forall2 quiet h k -> Forall media_ok h -> Forall media_ok k.
Proof.
  induction 1 as [|x y h k Hxy _ IH]; intros HF; [constructor|].
  apply Forall_cons in HF as [Hx HF]. constructor; eauto using media_ok_quiet.
Qed.

Lemma inert_Inv s s' : Inv s -> inert s s' -> Inv s'.
Proof.
  intros [Hp Hm Hz Hk Hu Hs Ho] [Ip Id Im Ia Ic Ih].
  assert (Hlook : forall a au', heap s' !! a = Some au' ->
                   exists au, heap s !! a = Some au /\ quiet au au').
  { intros a au' Hl. destruct (Forall2_lookup_r _ _ _ _ _ Ih Hl) as (au & ? & ?). eauto. }
  assert (Hprog : (progress s == 0)%Q -> (progress s' == 0)%Q).
  { destruct Ip as [-> | ->]; [auto|reflexivity]. }
  constructor.
  - destruct Ip as [-> | ->]; [exact Hp|]. split; discriminate.
  - eapply Forall_media_ok_quiet; eauto.
  - rewrite Id. auto.
  - intros Hms a au' Ha Hl Ht. rewrite Id. rewrite Ia in Ha.
    destruct (Hlook a au' Hl) as (au & Hl0 & _ & Hd & _).
    apply (Hk (Im Hms) a au Ha Hl0). now rewrite <- Hd.
  - intros a au' Ha Hl Hsrc Ht. rewrite Ia in Ha.
    destruct (Hlook a au' Hl) as (au & Hl0 & _ & Hd & Hsr).
    apply Hprog. apply (Hu a au Ha Hl0).
    + destruct Hsr as [Hsr|Hsr]; congruence.
    + now rewrite <- Hd.
  - intros a au' Hl Hlc. rewrite Ic in Hlc.
    destruct (Hlook a au' Hl) as (au & Hl0 & _ & _ & Hsr).
    pose proof (Hs a au Hl0 Hlc) as Hsa.
    destruct Hsr as [Hsr|Hsr]; congruence.
  - intros a Hlc. rewrite Ic in Hlc. rewrite Ia. auto.
Qed.

Lemma Forall2_quiet_trans (h k l : list Audio) :
  Forall2 quiet h k -> Forall2 quiet k l -> Forall2 quiet h l.
Proof.
  intros Ih. revert l. induction Ih as [|x y h k Hxy _ IH]; intros l Jh.
  - inversion Jh. constructor.
  - inversion Jh as [|y' z k' c' Hyz Hkc]; subst. constructor;
      eauto using quiet_trans.
Qed.

Lemma inert_trans a b c : inert a b -> inert b c -> inert a c.
Proof.
  intros [Ip Id Im Ia Ic Ih] [Jp Jd Jm Ja Jc Jh]. constructor.
  - destruct Jp as [Jp|Jp]; [|now right]. rewrite Jp. exact Ip.
  - congruence.
  - auto.
  - congruence.
  - congruence.
  - eapply Forall2_quiet_trans; eauto.
Qed.

Lemma lookup_alter_inv (f : Audio -> Audio) a b (h : list Audio) au' :
  alter f a h !! b = Some au' ->
  exists au, h !! b = Some au /\ ((a <> b /\ au' = au) \/ (a = b /\ au' = f au)).
Proof.
  rewrite list_lookup_alter. destruct (decide (a = b)) as [->|Hab].
  - destruct (h !! b) as [au|]; [|discriminate]. cbn. intros [= <-]. eauto.
  - intros Hl. eauto.
Qed.

(** Assigning to a field of an element that is neither its duration nor its
    source. *)
Lemma Inv_on_audio s f a :
  Inv s ->
  (forall x, a_duration (f x) = a_duration x /\ src (f x) = src x) ->
  (forall au, heap s !! a = Some au -> media_ok au -> media_ok (f au)) ->
  Inv (on_audio f a s).
Proof.
  intros [Hp Hm Hz Hk Hu Hs Ho] Hf Hok.
  assert (Hlook : forall b au', alter f a (heap s) !! b = Some au' ->
            exists au, heap s !! b = Some au /\ a_duration au' = a_duration au
                       /\ src au' = src au).
  { intros b au' Hl. destruct (lookup_alter_inv f a b (heap s) au' Hl)
      as (au & Hl0 & [[_ ->]|[_ ->]]); exists au; repeat split; auto; apply Hf. }
  constructor; unfold on_audio;
    cbn [with_heap progress heap duration mounted audioRef loadCleanupRef].
  - exact Hp.
  - apply Forall_alter; auto.
  - exact Hz.
  - intros Hms b au' Ha Hl Ht. destruct (Hlook b au' Hl) as (au & Hl0 & Hd & _).
    apply (Hk Hms b au Ha Hl0). now rewrite <- Hd.
  - intros b au' Ha Hl Hsrc Ht. destruct (Hlook b au' Hl) as (au & Hl0 & Hd & Hsr).
    apply (Hu b au Ha Hl0); congruence.
  - intros b au' Hl Hlc. destruct (Hlook b au' Hl) as (au & Hl0 & _ & Hsr).
    rewrite Hsr. eauto.
  - exact Ho.
Qed.

(** Publishing a value obtained from a handle whose duration is known. *)
Lemma Inv_publish s q :
  Inv s -> (0 <= q)%Q /\ (q <= 100)%Q ->
  (exists a au, audioRef s = Some a /\ heap s !! a = Some au
                /\ truthy_num (a_duration au) = true) ->
  Inv (setProgress s q).
Proof.
  intros HI Hq (a & au & Ha & Hl & Ht). unfold setProgress.
  destruct (mounted s) eqn:Hms; [|exact HI].
  destruct HI as [Hp Hm Hz Hk Hu Hs Ho].
  pose proof (Hk Hms a au Ha Hl Ht) as Hdur.
  constructor; unfold hooks;
    cbn [progress heap duration mounted audioRef loadCleanupRef].
  - exact Hq.
  - exact Hm.
  - rewrite Hdur. discriminate.
  - intros _. exact (Hk Hms).
  - intros b au' Hb Hl' _ Hf. assert (b = a) by congruence. subst b.
    assert (au' = au) by congruence. subst au'. congruence.
  - exact Hs.
  - exact Ho.
Qed.

Lemma Qdiv_percent_range (c d : Q) :
  (0 <= c)%Q -> (c <= d)%Q -> ~ (d == 0)%Q ->
  (0 <= c / d * 100)%Q /\ (c / d * 100 <= 100)%Q.
Proof.
  intros Hc Hcd Hd.
  assert (Hpos : (0 < d)%Q).
  { apply Qle_lt_or_eq in Hcd as Hor.
    assert (H0d : (0 <= d)%Q) by (eapply Qle_trans; eauto).
    apply Qle_lt_or_eq in H0d as [H|H]; [exact H|]. symmetry in H. contradiction. }
  split.
  - apply Qmult_le_0_compat; [|discriminate].
    apply Qle_shift_div_l; [exact Hpos|]. now rewrite Qmult_0_l.
  - rewrite <- (Qmult_1_l 100) at 2. apply Qmult_le_compat_r; [|discriminate].
    apply Qle_shift_div_r; [exact Hpos|]. now rewrite Qmult_1_l.
Qed.

Lemma Qseek_range (v d : Q) :
  (0 <= v)%Q -> (v <= 100)%Q -> (0 <= d)%Q ->
  (0 <= v / 100 * d)%Q /\ (v / 100 * d <= d)%Q.
Proof.
  intros Hv Hv' Hd. split.
  - apply Qmult_le_0_compat; [|exact Hd].
    apply Qle_shift_div_l; [reflexivity|]. now rewrite Qmult_0_l.
  - rewrite <- (Qmult_1_l d) at 2. apply Qmult_le_compat_r; [|exact Hd].
    apply Qle_shift_div_r; [reflexivity|]. now rewrite Qmult_1_l.
Qed.

Lemma Inv_current_media s a au :
  Inv s -> heap s !! a = Some au -> media_ok au.
Proof.
  intros HI Hl. pose proof (inv_media s HI) as HF.
  rewrite Forall_lookup in HF. eauto.
Qed.

Lemma progressTick_cases s :
  progressTick s = s
  \/ exists a au d, audioRef s = Some a /\ heap s !! a = Some au
       /\ a_duration au = Num d /\ truthy_num (Num d) = true
       /\ progressTick s = setProgress s ((currentTime au / d) * 100)%Q.
Proof.
  unfold progressTick.
  destruct (audioRef s) as [a|]; [|now left].
  destruct (heap s !! a) as [au|] eqn:Hl; [|now left].
  destruct (a_duration au) as [|d] eqn:Hd; [now left|].
  destruct (truthy_num (Num d)) eqn:Ht; [|now left].
  right. exists a, au, d. repeat split; auto.
Qed.

Lemma Inv_tick id s : Inv s -> Inv (dispatch (EvTick id) s).
Proof.
  intros HI. cbn [dispatch]. destruct (bool_decide (id ∈ timers s)); [|exact HI].
  destruct (progressTick_cases s) as [->|(a & au & d & Ha & Hl & Hd & Ht & ->)];
    [exact HI|].
  destruct (Inv_current_media s a au HI Hl) as [H0 Hle]. rewrite Hd in Hle.
  apply Inv_publish; [exact HI| |].
  - apply Qdiv_percent_range; auto. now apply truthy_Num_inv.
  - exists a, au. rewrite Hd. auto.
Qed.

Lemma Inv_time a t s :
  Inv s -> env_ok (EvTime a t) s = true -> Inv (dispatch (EvTime a t) s).
Proof.
  intros HI He. cbn [dispatch]. cbn [env_ok] in He.
  apply andb_true_iff in He as [Ht He]. apply Qle_bool_iff in Ht.
  apply Inv_on_audio; [exact HI|now intros x|].
  intros au Hl _. rewrite Hl in He. split; [exact Ht|].
  cbn [with_currentTime a_duration currentTime].
  destruct (a_duration au) as [|d]; [exact I|]. now apply Qle_bool_iff.
Qed.

Lemma Inv_seek value s :
  Inv s -> env_ok (EvSeek value) s = true -> Inv (dispatch (EvSeek value) s).
Proof.
  intros HI He. cbn [dispatch]. unfold handleSeek.
  destruct (audioRef s) as [a|] eqn:Ha; [|exact HI].
  destruct (heap s !! a) as [au|] eqn:Hl; [|exact HI].
  destruct (a_duration au) as [|d] eqn:Hd; [exact HI|].
  destruct (truthy_num (Num d)) eqn:Ht; cbn [negb]; [|exact HI].
  destruct value as [|v rest]; [exact HI|].
  cbn [env_ok] in He. apply andb_true_iff in He as [Hv0 Hv1].
  apply Qle_bool_iff in Hv0, Hv1.
  destruct (Inv_current_media s a au HI Hl) as [H0 Hle]. rewrite Hd in Hle.
  assert (Hd0 : (0 <= d)%Q) by (eapply Qle_trans; eauto).
  destruct (Qseek_range v d Hv0 Hv1 Hd0) as [Hn0 Hn1].
  apply Inv_publish; [|split; assumption|].
  - apply Inv_on_audio; [exact HI|now intros x|].
    intros au' Hl' _. assert (au' = au) by congruence. subst au'.
    split; [exact Hn0|]. cbn [with_currentTime a_duration currentTime].
    now rewrite Hd.
  - exists a, (with_currentTime (v / 100 * d)%Q au).
    unfold on_audio. cbn [with_heap audioRef heap].
    rewrite list_lookup_alter_eq, Hl. cbn. rewrite Hd. auto.
Qed.

Lemma alter_absent (f : Audio -> Audio) a (h : list Audio) :
  h !! a = None -> alter f a h = h.
Proof.
  intros Hn. apply list_eq. intros b. rewrite list_lookup_alter.
  destruct (decide (a = b)) as [->|]; [|reflexivity]. now rewrite Hn.
Qed.

Lemma dispatch_loadedmetadata_fields a d s :
  let s' := dispatch (EvLoadedMetadata a d) s in
  progress s' = progress s
  /\ heap s' = alter (with_duration (Num d)) a (heap s)
  /\ audioRef s' = audioRef s
  /\ loadCleanupRef s' = loadCleanupRef s
  /\ mounted s' = mounted s
  /\ (heap s !! a = None -> duration s' = duration s)
  /\ (is_Some (heap s !! a) ->
      duration s' = if mounted s then Num d else duration s).
Proof.
  cbn [dispatch]. unfold onloadedmetadata, on_audio. cbn [with_heap heap].
  rewrite list_lookup_alter_eq.
  destruct (heap s !! a) as [au|] eqn:Hl; cbn [fmap option_fmap option_map].
  - destruct (cl_autoPlay (with_duration (Num d) au)); player s; plumb;
      repeat split; auto; intros; discriminate.
  - player s; plumb; repeat split; auto; intros [? ?]; discriminate.
Qed.

Lemma Inv_loadedmetadata a d s :
  Inv s -> env_ok (EvLoadedMetadata a d) s = true ->
  Inv (dispatch (EvLoadedMetadata a d) s).
Proof.
  intros HI He.
  destruct (dispatch_loadedmetadata_fields a d s)
    as (Fp & Fh & Fa & Fc & Fm & Fd0 & Fd1).
  set (s' := dispatch (EvLoadedMetadata a d) s) in *.
  cbn [env_ok] in He.
  destruct (heap s !! a) as [au|] eqn:Hl.
  2:{ (* no such element: nothing changes *)
      apply (inert_Inv s s' HI). constructor.
      - now left.
      - auto.
      - now rewrite Fm.
      - exact Fa.
      - exact Fc.
      - rewrite Fh, alter_absent by exact Hl. apply Forall2_quiet_refl. }
  apply andb_true_iff in He as [He Hnan]. apply andb_true_iff in He as [Hct Hsrc].
  apply Qle_bool_iff in Hct.
  assert (Hsrc' : src au <> "").
  { intros E. rewrite E in Hsrc. discriminate. }
  destruct (a_duration au) as [|d0] eqn:Hd; [clear Hnan|discriminate].
  specialize (Fd1 (ex_intro _ au eq_refl)). clear Fd0.
  destruct HI as [Hp Hm Hz Hk Hu Hs Ho].
  assert (Hlc : loadCleanupRef s = Some a).
  { destruct (decide (loadCleanupRef s = Some a)) as [E|E]; [exact E|].
    exfalso. apply Hsrc'. eauto. }
  pose proof (Ho a Hlc) as Hcur.
  assert (Hzero : truthy_num (Num d) = false -> (progress s == 0)%Q).
  { intros _. apply (Hu a au Hcur Hl Hsrc'). now rewrite Hd. }
  assert (Hlook : forall b au', heap s' !! b = Some au' ->
            exists au0, heap s !! b = Some au0 /\ src au' = src au0
              /\ currentTime au' = currentTime au0
              /\ (a_duration au' = a_duration au0
                  \/ (b = a /\ au0 = au /\ a_duration au' = Num d))).
  { intros b au' Hl'. rewrite Fh in Hl'.
    destruct (lookup_alter_inv _ a b (heap s) au' Hl') as (au0 & Hl0 & [[_ ->]|[<- ->]]).
    - exists au0. repeat split; auto.
    - exists au0. repeat split; auto. right. repeat split; congruence. }
  constructor.
  - now rewrite Fp.
  - rewrite Fh. apply Forall_alter; [exact Hm|].
    intros x Hx [Hx0 _]. assert (x = au) by congruence. subst x.
    split; [exact Hx0|exact Hct].
  - rewrite Fp, Fd1. destruct (mounted s); [exact Hzero|exact Hz].
  - rewrite Fm, Fa, Fd1. intros Hms b au' Hb Hl' Ht. rewrite Hms.
    assert (b = a) by congruence. subst b.
    destruct (Hlook a au' Hl') as (au0 & Hl0 & _ & _ & [Hd'|(_ & _ & Hd')]).
    + assert (au0 = au) by congruence. subst au0.
      rewrite Hd', Hd in Ht. discriminate.
    + now rewrite <- Hd'.
  - rewrite Fa, Fp. intros b au' Hb Hl' Hsr Ht.
    assert (b = a) by congruence. subst b.
    destruct (Hlook a au' Hl') as (au0 & Hl0 & _ & _ & [Hd'|(_ & _ & Hd')]).
    + apply (Hu a au0 Hb Hl0); congruence.
    + apply Hzero. now rewrite <- Hd'.
  - rewrite Fc. intros b au' Hl' Hb.
    destruct (Hlook b au' Hl') as (au0 & Hl0 & Hsr & _). rewrite Hsr. eauto.
  - rewrite Fc, Fa. exact Ho.
Qed.

Lemma loadEffect_fields s :
  mounted s = true ->
  let s' := loadEffect s in
  progress s' = 0%Q /\ duration s' = duration s /\ mounted s' = true
  /\ match audioUrl (props s) with
     | Some (String c r) =>
         (exists x, heap s' = heap s ++ [x] /\ a_duration x = NaN
                    /\ currentTime x = 0%Q)
         /\ audioRef s' = Some (length (heap s))
         /\ loadCleanupRef s' = Some (length (heap s))
     | _ =>
         heap s' = heap s /\ audioRef s' = audioRef s /\ loadCleanupRef s' = None
     end.
Proof.
  intros Hm. player s; [|discriminate Hm]. clear Hm.
  destruct props0 as [[[|c r]|] ? ? ? ? ? ?]; unfold loadEffect; plumb;
    repeat split; auto.
  rewrite !(alter_app_r_alt _ heap0) by lia. rewrite Nat.sub_diag. cbn.
  eexists. repeat split.
Qed.

Lemma cleanup_fields s :
  let s1 := match loadCleanupRef s with
            | Some a => loadCleanup a s
            | None => s
            end in
  progress s1 = progress s /\ duration s1 = duration s /\ mounted s1 = mounted s
  /\ audioRef s1 = audioRef s /\ loadCleanupRef s1 = loadCleanupRef s
  /\ props s1 = props s
  /\ heap s1 = released (loadCleanupRef s) (heap s).
Proof.
  destruct (loadCleanupRef s) as [a|] eqn:E; cbn zeta.
  - rewrite loadCleanup_shape. cbn [touch with_timers with_heap progress duration
      mounted audioRef loadCleanupRef props heap]. rewrite E. repeat split.
  - rewrite E. repeat split.
Qed.

Lemma Forall2_quiet_released r (h : list Audio) : Forall2 quiet h (released r h).
Proof. destruct r; cbn; auto with quiet. Qed.

Lemma Inv_loadEffect s :
  Inv s -> mounted s = true ->
  (forall b au, heap s !! b = Some au -> src au = "") ->
  Inv (loadEffect s).
Proof.
  intros HI1 Hm1 Hdet.
  destruct (loadEffect_fields s Hm1) as (Lp & Ld & Lm & Lrest).
  set (s2 := loadEffect s) in *.
  destruct HI1 as [Hp Hm Hz Hk Hu Hs Ho].
  assert (Hzero : (progress s2 == 0)%Q) by (rewrite Lp; reflexivity).
  destruct (audioUrl (props s)) as [[|c r]|].
  - destruct Lrest as (Lh & La & Lc). constructor.
    + rewrite Lp. split; discriminate.
    + now rewrite Lh.
    + intros _. exact Hzero.
    + rewrite Lh, La, Ld. intros _. exact (Hk Hm1).
    + intros. exact Hzero.
    + rewrite Lh. intros b au Hl _. eauto.
    + rewrite Lc. discriminate.
  - destruct Lrest as ((x & Lh & Lx & Lt) & La & Lc). constructor.
    + rewrite Lp. split; discriminate.
    + rewrite Lh. apply Forall_app_2; [exact Hm|].
      apply Forall_singleton. split; [rewrite Lt; discriminate|now rewrite Lx].
    + intros _. exact Hzero.
    + rewrite Lh, La. intros _ b au [= <-] Hl Ht.
      rewrite list_lookup_middle in Hl by reflexivity.
      injection Hl as <-. rewrite Lx in Ht. discriminate.
    + intros. exact Hzero.
    + rewrite Lh, Lc. intros b au Hl Hb.
      destruct (decide (b < length (heap s))) as [Hlt|Hge].
      * rewrite lookup_app_l in Hl by exact Hlt. eauto.
      * apply lookup_lt_Some in Hl. rewrite length_app in Hl. cbn in Hl.
        exfalso. apply Hb. f_equal. lia.
    + rewrite Lc, La. auto.
  - destruct Lrest as (Lh & La & Lc). constructor.
    + rewrite Lp. split; discriminate.
    + now rewrite Lh.
    + intros _. exact Hzero.
    + rewrite Lh, La, Ld. intros _. exact (Hk Hm1).
    + intros. exact Hzero.
    + rewrite Lh. intros b au Hl _. eauto.
    + rewrite Lc. discriminate.
Qed.

Lemma Inv_props p s : Inv s -> Inv (dispatch (EvProps p) s).
Proof.
  intros HI. cbn [dispatch].
  destruct (mounted s) eqn:Hms; [|exact HI].
  destruct (load_deps_eqb (props s) p).
  { apply (inert_Inv s _ HI). constructor; try reflexivity; auto with quiet. }
  set (s0 := with_props s p).
  destruct (cleanup_fields s0) as (Cp & Cd & Cm & Ca & Cc & Cpr & Ch).
  set (s1 := match loadCleanupRef s0 with
             | Some a => loadCleanup a s0
             | None => s0
             end) in *.
  assert (HI1 : Inv s1).
  { apply (inert_Inv s s1 HI). constructor.
    - left. exact Cp.
    - exact Cd.
    - intros _. exact Hms.
    - exact Ca.
    - exact Cc.
    - rewrite Ch. apply Forall2_quiet_released. }
  assert (Hdet : forall b au, heap s1 !! b = Some au -> src au = "").
  { intros b au Hl. rewrite Ch in Hl. change (heap s0) with (heap s) in Hl.
    change (loadCleanupRef s0) with (loadCleanupRef s) in Hl.
    destruct (loadCleanupRef s) as [a|] eqn:Hlc; cbn [released] in Hl.
    - destruct (lookup_alter_inv _ a b (heap s) au Hl)
        as (au0 & Hl0 & [[Hab ->]|[_ ->]]); [|reflexivity].
      apply (inv_stale s HI b au0 Hl0). congruence.
    - apply (inv_stale s HI b au Hl). congruence. }
  assert (Hm1 : mounted s1 = true) by (rewrite Cm; exact Hms).
  now apply Inv_loadEffect.
Qed.

Lemma Inv_initial p : Inv (initial p).
Proof.
  constructor; cbn.
  - split; discriminate.
  - constructor.
  - intros _. reflexivity.
  - discriminate.
  - discriminate.
  - intros a au. now rewrite lookup_nil.
  - discriminate.
Qed.

Lemma muteEffect_inert s : inert s (muteEffect s).
Proof. player s; constructor; grind; auto with quiet. Qed.

Lemma progressEffect_inert s : inert s (progressEffect s).
Proof. player s; constructor; grind; auto with quiet. Qed.

Lemma Inv_mount p : Inv (mount p).
Proof.
  unfold mount.
  eapply inert_Inv; [|apply commit_inert].
  eapply inert_Inv; [|apply progressEffect_inert].
  eapply inert_Inv; [|apply muteEffect_inert].
  apply Inv_loadEffect; [apply Inv_initial|reflexivity|].
  intros b au. cbn. now rewrite lookup_nil.
Qed.

Lemma Inv_dispatch e s : Inv s -> env_ok e s = true -> Inv (dispatch e s).
Proof.
  intros HI He.
  destruct (inert_event e) eqn:Hie.
  { eapply inert_Inv; [exact HI|]. now apply dispatch_inert. }
  destruct e; try discriminate Hie.
  - now apply Inv_props.
  - now apply Inv_loadedmetadata.
  - now apply Inv_time.
  - now apply Inv_tick.
  - now apply Inv_seek.
Qed.

Lemma Inv_step e s : Inv s -> env_ok e s = true -> Inv (step e s).
Proof.
  intros HI He. unfold step.
  eapply inert_Inv; [|apply commit_inert]. now apply Inv_dispatch.
Qed.

Lemma Inv_run evs s : Inv s -> trace_ok s evs = true -> Inv (run evs s).
Proof.
  revert s. induction evs as [|e evs IH]; intros s HI Hok; [exact HI|].
  cbn [trace_ok] in Hok. apply andb_true_iff in Hok as [He Hok].
  rewrite run_cons. apply IH; [now apply Inv_step|exact Hok].
Qed.

(** *** The sampling timer *)

Lemma loadEffect_timers s :
  timers (loadEffect s) = timers s
  /\ progressIntervalRef (loadEffect s) = progressIntervalRef s
  /\ nextTimer (loadEffect s) = nextTimer s
  /\ mounted (loadEffect s) = mounted s
  /\ (mounted s = true -> isPlaying (loadEffect s) = false)
  /\ (audioRef (loadEffect s) = None -> audioRef s = None /\ heap (loadEffect s) = heap s).
Proof.
  player s; destruct props0 as [[[|c r]|] ? ? ? ? ? ?]; unfold loadEffect; plumb;
    repeat split; auto; discriminate.
Qed.

Lemma cleanup_timers s :
  let s1 := match loadCleanupRef s with
            | Some a => loadCleanup a s
            | None => s
            end in
  timers s1 = timers s /\ progressIntervalRef s1 = progressIntervalRef s
  /\ nextTimer s1 = nextTimer s /\ isPlaying s1 = isPlaying s.
Proof.
  destruct (loadCleanupRef s) as [a|] eqn:E; cbn zeta.
  - rewrite loadCleanup_shape. repeat split.
  - repeat split.
Qed.

Lemma dispatch_props_timers p s :
  let s' := dispatch (EvProps p) s in
  mounted s' = mounted s /\ timers s' = timers s
  /\ progressIntervalRef s' = progressIntervalRef s /\ nextTimer s' = nextTimer s
  /\ ((audioRef s = None -> heap s = [] /\ isPlaying s = false) ->
      audioRef s' = None -> heap s' = [] /\ isPlaying s' = false).
Proof.
  cbn [dispatch]. destruct (mounted s) eqn:Hms; [|now rewrite Hms].
  destruct (load_deps_eqb (props s) p).
  { split; [exact Hms|]. split; [reflexivity|]. split; [reflexivity|].
    split; [reflexivity|]. intros H Hn. exact (H Hn). }
  set (s0 := with_props s p).
  destruct (cleanup_timers s0) as (Ct & Ci & Cn & Cp).
  destruct (cleanup_fields s0) as (_ & _ & Cm & Ca & Cc & _ & Ch).
  set (s1 := match loadCleanupRef s0 with
             | Some a => loadCleanup a s0
             | None => s0
             end) in *.
  destruct (loadEffect_timers s1) as (Lt & Li & Ln & Lm & Lp & La).
  split; [rewrite Lm, Cm; exact Hms|]. split; [now rewrite Lt, Ct|].
  split; [now rewrite Li, Ci|]. split; [now rewrite Ln, Cn|].
  intros H Hnone. destruct (La Hnone) as [Ha1 Hh1].
  rewrite Ca in Ha1. destruct (H Ha1) as [Hh Hp].
  split; [|apply Lp; rewrite Cm; exact Hms].
  rewrite Hh1, Ch. change (heap s0) with (heap s). rewrite Hh.
  now destruct (loadCleanupRef s0).
Qed.

Lemma dispatch_mounted e s :
  mounted (dispatch e s) = match e with EvUnmount => false | _ => mounted s end.
Proof.
  destruct e; [apply (dispatch_props_timers p s)|..]; player s; grind.
Qed.

Lemma dispatch_timers e s :
  match e with EvUnmount => True | _ => timers (dispatch e s) = timers s end.
Proof.
  destruct e; [apply (dispatch_props_timers p s)|..]; try exact I; player s; grind.
Qed.

Lemma dispatch_intervalRef e s :
  progressIntervalRef (dispatch e s) = progressIntervalRef s.
Proof.
  destruct e; [apply (dispatch_props_timers p s)|..]; player s; grind.
Qed.

Lemma dispatch_nextTimer e s : nextTimer (dispatch e s) = nextTimer s.
Proof.
  destruct e; [apply (dispatch_props_timers p s)|..]; player s; grind.
Qed.

Lemma dispatch_handle e s :
  (audioRef s = None -> heap s = [] /\ isPlaying s = false) ->
  audioRef (dispatch e s) = None ->
  heap (dispatch e s) = [] /\ isPlaying (dispatch e s) = false.
Proof.
  intros H. destruct e; [apply (dispatch_props_timers p s); exact H|..].
  all: destruct (audioRef s) as [a0|] eqn:Ha.
  all: try (clear H; player s; cbn [audioRef] in Ha; subst; grind; fail).
  all: destruct (H eq_refl) as [Hh Hp]; clear H;
    player s; cbn [audioRef heap isPlaying] in Ha, Hh, Hp; subst;
      grind_by ltac:(rewrite ?alter_nil, ?lookup_nil in *); auto.
Qed.

Lemma commit_handle o n :
  (audioRef n = None -> heap n = [] /\ isPlaying n = false) ->
  audioRef (commit o n) = None ->
  heap (commit o n) = [] /\ isPlaying (commit o n) = false.
Proof.
  rewrite commit_audioRef, commit_isPlaying. intros H Ha.
  destruct (H Ha) as [Hh Hp]. split; [|exact Hp].
  pose proof (commit_heap o n) as HF. rewrite Hh in HF.
  now apply Forall2_nil_inv_l in HF.
Qed.

Lemma commit_nextTimer o n : nextTimer n <> 0 -> nextTimer (commit o n) <> 0.
Proof. player o; player n; grind; auto. Qed.

Lemma muteEffect_frame s :
  isPlaying (muteEffect s) = isPlaying s /\ loadError (muteEffect s) = loadError s
  /\ audioRef (muteEffect s) = audioRef s /\ timers (muteEffect s) = timers s
  /\ progressIntervalRef (muteEffect s) = progressIntervalRef s
  /\ nextTimer (muteEffect s) = nextTimer s.
Proof. unfold muteEffect. destruct (audioRef s) eqn:E; repeat split; auto. Qed.

Lemma progressCleanup_frame s :
  isPlaying (progressCleanup s) = isPlaying s
  /\ loadError (progressCleanup s) = loadError s
  /\ audioRef (progressCleanup s) = audioRef s
  /\ nextTimer (progressCleanup s) = nextTimer s.
Proof. rewrite progressCleanup_shape. repeat split. Qed.

Lemma progressEffect_starts s :
  isPlaying s = true -> is_Some (audioRef s) -> loadError s = false ->
  nextTimer s <> 0 ->
  exists id, progressIntervalRef (progressEffect s) = Some (S id)
             /\ S id ∈ timers (progressEffect s).
Proof.
  intros Hp [a Ha] He Hn. unfold progressEffect. rewrite Hp, Ha, He.
  rewrite bool_decide_eq_true_2 by eauto. cbn [andb negb setInterval].
  destruct (nextTimer s) as [|k] eqn:Hk; [contradiction|].
  exists k. split; [reflexivity|]. cbn. apply list_elem_of_here.
Qed.

Lemma commit_timer o n :
  nextTimer n <> 0 ->
  is_Some (audioRef n) ->
  isPlaying n = true -> loadError n = false ->
  (isPlaying o = true -> loadError o = false ->
   exists id, progressIntervalRef n = Some (S id) /\ S id ∈ timers n) ->
  exists id, progressIntervalRef (commit o n) = Some (S id)
             /\ S id ∈ timers (commit o n).
Proof.
  intros Hnt Ha Hp He Hold. unfold commit.
  set (n' := if Bool.eqb (isMuted o) (isMuted n) then n else muteEffect n).
  assert (Hn' : isPlaying n' = isPlaying n /\ loadError n' = loadError n
                /\ audioRef n' = audioRef n /\ timers n' = timers n
                /\ progressIntervalRef n' = progressIntervalRef n
                /\ nextTimer n' = nextTimer n).
  { subst n'. destruct (Bool.eqb (isMuted o) (isMuted n));
      [repeat split|apply muteEffect_frame]. }
  destruct Hn' as (Np & Ne & Na & Nt & Ni & Nn).
  rewrite Np, Ne, Hp, He.
  destruct (isPlaying o), (loadError o); cbn [Bool.eqb andb].
  2:{ rewrite Ni, Nt. now apply Hold. }
  all: destruct (progressCleanup_frame n') as (Cp & Ce & Ca & Cn);
    apply progressEffect_starts; congruence.
Qed.

Lemma TInv_step e s : TInv s -> TInv (step e s).
Proof.
  intros [Hh Hn Ht]. unfold step.
  pose proof (dispatch_handle e s Hh) as Hh'.
  assert (Hn' : nextTimer (dispatch e s) <> 0) by now rewrite dispatch_nextTimer.
  constructor.
  - now apply commit_handle.
  - now apply commit_nextTimer.
  - rewrite commit_mounted, commit_isPlaying, commit_loadError.
    intros Hm Hp He. apply commit_timer; auto.
    + destruct (audioRef (dispatch e s)) eqn:Ha; [eauto|].
      destruct (Hh' eq_refl) as [_ Hp']. congruence.
    + intros Hp0 He0.
      pose proof (dispatch_mounted e s) as Dm.
      pose proof (dispatch_timers e s) as Dt.
      rewrite dispatch_intervalRef.
      destruct e; try (rewrite Hm in Dm; discriminate Dm);
        rewrite Dt; apply Ht; congruence.
Qed.

Lemma mount_start p :
  isPlaying (mount p) = false /\ nextTimer (mount p) = 1
  /\ (audioRef (mount p) = None -> heap (mount p) = []).
Proof.
  destruct p as [[[|c r]|] ? ? ? ? ? ?]; vm_compute; repeat split; auto; discriminate.
Qed.

Lemma TInv_mount p : TInv (mount p).
Proof.
  destruct (mount_start p) as (Hp & Hn & Hh). constructor.
  - intros Ha. auto.
  - rewrite Hn. discriminate.
  - intros _ Hp'. congruence.
Qed.

Lemma TInv_run evs s : TInv s -> TInv (run evs s).
Proof.
  revert s. induction evs as [|e evs IH]; intros s HT; [exact HT|].
  rewrite run_cons. apply IH. now apply TInv_step.
Qed.

Lemma decision_Real s :
  decision s = Real -> loadError s = false /\ isLoading s = false.
Proof.
  unfold decision. destruct (loadError s); cbn [orb]; [discriminate|].
  destruct (negb (truthy_str (audioUrl (props s)))); [discriminate|].
  destruct (isLoading s); [discriminate|auto].
Qed.

Lemma step_tick_known s id a au d :
  mounted s = true -> id ∈ timers s ->
  audioRef s = Some a -> heap s !! a = Some au -> a_duration au = Num d ->
  ~ (d == 0)%Q ->
  progress (step (EvTick id) s) = ((currentTime au / d) * 100)%Q.
Proof.
  intros Hm Hid Ha Hl Hd Hnz. unfold step. rewrite commit_progress.
  cbn [dispatch]. rewrite bool_decide_eq_true_2 by exact Hid.
  unfold progressTick. rewrite Ha, Hl, Hd, (truthy_Num d Hnz).
  unfold setProgress. now rewrite Hm.
Qed.

Lemma step_tick_unknown s id a au :
  audioRef s = Some a -> heap s !! a = Some au ->
  truthy_num (a_duration au) = false ->
  progress (step (EvTick id) s) = progress s.
Proof.
  intros Ha Hl Ht. unfold step. rewrite commit_progress. cbn [dispatch].
  destruct (bool_decide (id ∈ timers s)); [|reflexivity].
  unfold progressTick. rewrite Ha, Hl.
  destruct (a_duration au) as [|d]; [reflexivity|]. now rewrite Ht.
Qed.

(** C6.  On every run from the first mount in which the platform behaves
    (see [env_ok]), the published fraction lies between 0 and 1, and it is 0
    whenever the published duration is 0 and whenever the duration of the
    current, attached handle is unknown or 0.  While the component is mounted,
    the decision is Real and the audio is playing, a sampling timer is
    running, and each of its ticks publishes the position of the current
    handle divided by its duration; a tick that finds the duration unknown
    or zero does not divide and leaves the published value as it is. *)
Theorem progress_fraction_in_range (p : Props) (evs : list Event) :
  trace_ok (mount p) evs = true ->
  let s := run evs (mount p) in
  ((0 <= positionFraction s)%Q /\ (positionFraction s <= 1)%Q)
  /\ (truthy_num (duration s) = false -> (positionFraction s == 0)%Q)
  /\ (forall a au,
        audioRef s = Some a -> heap s !! a = Some au -> src au <> "" ->
        truthy_num (a_duration au) = false -> (positionFraction s == 0)%Q)
  /\ (mounted s = true -> decision s = Real -> isPlaying s = true ->
      exists id,
        progressIntervalRef s = Some id /\ id ∈ timers s
        /\ forall a au d,
             audioRef s = Some a -> heap s !! a = Some au ->
             a_duration au = Num d -> ~ (d == 0)%Q ->
             (positionFraction (step (EvTick id) s) == currentTime au / d)%Q)
  /\ (forall id a au,
        audioRef s = Some a -> heap s !! a = Some au ->
        truthy_num (a_duration au) = false ->
        positionFraction (step (EvTick id) s) = positionFraction s).
Proof.
  intros Hok s.
  pose proof (Inv_run evs (mount p) (Inv_mount p) Hok) as HI.
  pose proof (TInv_run evs (mount p) (TInv_mount p)) as HT.
  fold s in HI, HT.
  destruct (inv_progress s HI) as [Hp0 Hp1].
  split; [|split; [|split; [|split]]].
  - unfold positionFraction. split.
    + apply Qle_shift_div_l; [reflexivity|]. now rewrite Qmult_0_l.
    + apply Qle_shift_div_r; [reflexivity|]. now rewrite Qmult_1_l.
  - intros Hz. unfold positionFraction. rewrite (inv_zero s HI Hz). reflexivity.
  - intros a au Ha Hl Hsrc Hz. unfold positionFraction.
    rewrite (inv_unknown s HI a au Ha Hl Hsrc Hz). reflexivity.
  - intros Hm Hd Hplay. destruct (decision_Real s Hd) as [Hle _].
    destruct (ti_timer s HT Hm Hplay Hle) as (id & Hid & Hin).
    exists (S id). split; [exact Hid|]. split; [exact Hin|].
    intros a au d Ha Hl Hdur Hnz. unfold positionFraction.
    rewrite (step_tick_known s (S id) a au d Hm Hin Ha Hl Hdur Hnz).
    field. exact Hnz.
  - intros id a au Ha Hl Ht. unfold positionFraction.
    now rewrite (step_tick_unknown s id a au Ha Hl Ht).
Qed.

Lemma progress_fraction_in_range_witness :
  let s := run [EvLoadedMetadata 0 30; EvPlay 0; EvTime 0 3; EvTick 1; EvSeek [50%Q];
                EvTime 0 21; EvTick 1]
               (mount props_real) in
  ((0 <= positionFraction s)%Q /\ (positionFraction s <= 1)%Q)
  /\ (positionFraction s == 7 / 10)%Q
  /\ decision s = Real /\ isPlaying s = true.
Proof.
  pose proof (progress_fraction_in_range props_real
                [EvLoadedMetadata 0 30; EvPlay 0; EvTime 0 3; EvTick 1; EvSeek [50%Q];
                 EvTime 0 21; EvTick 1] eq_refl) as (Hr & _).
  split; [exact Hr|]. vm_compute. repeat split.
Defined.

(** *** Time labels *)

Lemma Qfloor_div60 q : Qfloor (q / 60) = (Qfloor q / 60)%Z.
Proof.
  destruct q as [a b]. unfold Qdiv, Qmult, Qinv, Qfloor. cbn [Qnum Qden].
  rewrite Z.mul_1_r, Pos2Z.inj_mul. rewrite Z.div_div by lia. reflexivity.
Qed.

Lemma Qfloor_minus_inject q z :
  Qfloor (q - 60 * inject_Z z) = (Qfloor q - 60 * z)%Z.
Proof.
  destruct q as [a b]. unfold Qminus, Qplus, Qopp, Qmult, inject_Z, Qfloor.
  cbn [Qnum Qden]. rewrite ?Pos.mul_1_r, ?Z.mul_1_r.
  rewrite Z.div_add by lia. lia.
Qed.

Lemma Qtruncate_nonneg q : (0 <= q)%Q -> Qtruncate q = Qfloor q.
Proof.
  intros H. unfold Qtruncate. apply Qle_bool_iff in H. now rewrite H.
Qed.

Lemma pad_two_digits k :
  k < 60 -> padStart 2 "0" (toString (Some (Z.of_nat k))) = two_digits k.
Proof.
  intros Hk.
  do 60 (destruct k as [|k]; [vm_compute; reflexivity|]). lia.
Qed.

Lemma Qfloor_nonneg q : (0 <= q)%Q -> (0 <= Qfloor q)%Z.
Proof. intros H. change 0%Z with (Qfloor 0). now apply Qfloor_resp_le. Qed.

Lemma formatTime_clock q : (0 <= q)%Q -> formatTime (Num q) = clock q.
Proof.
  intros Hq. pose proof (Qfloor_nonneg q Hq) as Hn.
  assert (Hm : (0 <= Qfloor q mod 60 < 60)%Z) by (apply Z.mod_pos_bound; lia).
  assert (Hq60 : (0 <= q / 60)%Q).
  { apply Qle_shift_div_l; [reflexivity|]. now rewrite Qmult_0_l. }
  unfold formatTime, clock, js_div, js_rem, Math_floor.
  rewrite (Qtruncate_nonneg _ Hq60), Qfloor_minus_inject, Qfloor_div60.
  f_equal. f_equal.
  replace (Qfloor q - 60 * (Qfloor q / 60))%Z with (Qfloor q mod 60)%Z
    by (rewrite Z.mod_eq; lia).
  rewrite <- (pad_two_digits (Z.to_nat (Qfloor q mod 60))) by lia.
  now rewrite Z2Nat.id by lia.
Qed.

(** X9. For a time that is not negative [formatTime] prints the whole
    minutes, a colon and the remaining whole seconds, below 60, with two
    digits; for [NaN] it prints [NaN:NaN]. *)
Theorem formatTime_minutes_and_seconds (q : Q) :
  (0 <= q)%Q ->
  let n := Qfloor q in
  formatTime (Num q)
  = (toString (Some (n / 60)%Z) ++ ":" ++ two_digits (Z.to_nat (n mod 60)))%string
  /\ (0 <= n / 60)%Z /\ Z.to_nat (n mod 60) < 60
  /\ (inject_Z (60 * (n / 60) + n mod 60) <= q)%Q
  /\ (q < inject_Z (60 * (n / 60) + n mod 60 + 1))%Q
  /\ formatTime NaN = "NaN:NaN"%string.
Proof.
  intros Hq n.
  assert (Hn : (0 <= n)%Z) by now apply Qfloor_nonneg.
  assert (Hm : (0 <= n mod 60 < 60)%Z) by (apply Z.mod_pos_bound; lia).
  split; [|split; [|split; [|split; [|split]]]].
  - now apply formatTime_clock.
  - apply Z.div_pos; lia.
  - lia.
  - rewrite <- Z.div_mod by lia. apply Qfloor_le.
  - rewrite <- Z.div_mod by lia. apply Qlt_floor.
  - reflexivity.
Qed.

Lemma formatTime_minutes_and_seconds_witness :
  formatTime (Num (754 # 10)) = "1:15"%string
  /\ formatTime (Num 3725) = "62:05"%string.
Proof.
  split.
  - refine (proj1 (formatTime_minutes_and_seconds (754 # 10) _)). discriminate.
  - refine (proj1 (formatTime_minutes_and_seconds 3725 _)). discriminate.
Defined.

(** *** The sampling timer *)

Lemma cleared_one r (t : list nat) :
  (t = [] \/ exists id, t = [S id] /\ r = Some (S id)) -> cleared r t = [].
Proof.
  intros [->|(id & -> & ->)].
  - now destruct r as [[|?]|].
  - cbn [cleared]. rewrite filter_cons_False by (intros H; now apply H).
    reflexivity.
Qed.

Lemma progressCleanup_one s :
  (timers s = []
   \/ exists id, timers s = [S id] /\ progressIntervalRef s = Some (S id)) ->
  timers (progressCleanup s) = []
  /\ nextTimer (progressCleanup s) = nextTimer s
  /\ isPlaying (progressCleanup s) = isPlaying s
  /\ loadError (progressCleanup s) = loadError s.
Proof.
  intros H. rewrite progressCleanup_shape. unfold touch.
  cbn [with_timers with_heap timers nextTimer isPlaying loadError].
  split; [now apply cleared_one|auto].
Qed.

Lemma progressEffect_one s :
  timers s = [] -> nextTimer s <> 0 ->
  let s' := progressEffect s in
  nextTimer s' <> 0
  /\ (timers s' = []
      \/ exists id, timers s' = [S id] /\ progressIntervalRef s' = Some (S id))
  /\ (timers s' <> [] -> isPlaying s = true /\ loadError s = false)
  /\ isPlaying s' = isPlaying s /\ loadError s' = loadError s.
Proof.
  intros Ht Hn. player s; cbn [timers nextTimer] in Ht, Hn; subst;
    (match goal with
     | H : ?x <> 0 |- _ => destruct x; [exfalso; now apply H|]
     end);
    unfold progressEffect; grind;
    repeat split; auto; try discriminate; try (right; eauto; fail);
    try (intros H; now contradiction H).
  all: try (exfalso; match goal with H : [] <> [] |- _ => now apply H end).
  all: try match goal with
       | H : ?a && _ && negb ?b = true |- _ =>
           apply andb_true_iff in H as [H ?]; apply andb_true_iff in H as [? _];
           destruct a, b; cbn [negb] in *; congruence
       end.
  all: exfalso; match goal with H : filter _ [] <> [] |- _ => now apply H end.
Qed.

Lemma commit_one o n :
  nextTimer n <> 0 ->
  (timers n = []
   \/ exists id, timers n = [S id] /\ progressIntervalRef n = Some (S id)) ->
  (timers n <> [] -> isPlaying o = true /\ loadError o = false) ->
  let c := commit o n in
  nextTimer c <> 0
  /\ (timers c = []
      \/ exists id, timers c = [S id] /\ progressIntervalRef c = Some (S id))
  /\ (timers c <> [] -> isPlaying c = true /\ loadError c = false).
Proof.
  intros Hn H1 Hw. cbv zeta. unfold commit.
  set (m := if Bool.eqb (isMuted o) (isMuted n) then n else muteEffect n).
  assert (Hm : isPlaying m = isPlaying n /\ loadError m = loadError n
               /\ timers m = timers n
               /\ progressIntervalRef m = progressIntervalRef n
               /\ nextTimer m = nextTimer n).
  { subst m. destruct (Bool.eqb (isMuted o) (isMuted n)); [auto 6|].
    destruct (muteEffect_frame n) as (? & ? & ? & ? & ? & ?). auto 6. }
  destruct Hm as (Mp & Me & Mt & Mi & Mn). rewrite Mp, Me.
  destruct (Bool.eqb (isPlaying o) (isPlaying n)) eqn:Ep;
    [destruct (Bool.eqb (loadError o) (loadError n)) eqn:Ee|]; cbn [andb].
  - apply eqb_prop in Ep, Ee. rewrite Mn, Mt, Mi, Mp, Me, <- Ep, <- Ee. auto.
  - assert (H1m : timers m = []
             \/ exists id, timers m = [S id] /\ progressIntervalRef m = Some (S id))
      by now rewrite Mt, Mi.
    destruct (progressCleanup_one m H1m) as (Ct & Cn & Cp & Ce).
    destruct (progressEffect_one (progressCleanup m) Ct) as (P1 & P2 & P3 & P4 & P5);
      [congruence|].
    split; [exact P1|]. split; [exact P2|]. rewrite P4, P5. exact P3.
  - assert (H1m : timers m = []
             \/ exists id, timers m = [S id] /\ progressIntervalRef m = Some (S id))
      by now rewrite Mt, Mi.
    destruct (progressCleanup_one m H1m) as (Ct & Cn & Cp & Ce).
    destruct (progressEffect_one (progressCleanup m) Ct) as (P1 & P2 & P3 & P4 & P5);
      [congruence|].
    split; [exact P1|]. split; [exact P2|]. rewrite P4, P5. exact P3.
Qed.

(** Once unmounted the state cells are frozen. *)
Lemma dispatch_unmounted e s :
  mounted s = false ->
  isMuted (dispatch e s) = isMuted s /\ isPlaying (dispatch e s) = isPlaying s
  /\ loadError (dispatch e s) = loadError s.
Proof.
  intros Hm. destruct e; [cbn [dispatch]; now rewrite Hm|..];
    player s; try discriminate Hm; clear Hm; grind; auto.
Qed.

Lemma OneTimer_step e s : OneTimer s -> OneTimer (step e s).
Proof.
  intros [Hn H1 Hw].
  assert (Hcase : e = EvUnmount \/ match e with EvUnmount => False | _ => True end)
    by (destruct e; auto).
  destruct Hcase as [->|He].
  { rewrite step_unmount. cbn [dispatch]. destruct (mounted s) eqn:Hms;
      [|constructor; auto; intros H; rewrite Hms; auto].
    rewrite teardown_shape. unfold touch.
    assert (Hc : cleared (progressIntervalRef s)
                   (cleared (progressIntervalRef s) (timers s)) = []).
    { rewrite cleared_idem. now apply cleared_one. }
    constructor; cbn [with_mounted with_timers with_heap nextTimer timers
                      progressIntervalRef mounted isPlaying loadError].
    - exact Hn.
    - left. exact Hc.
    - intros H. contradiction. }
  assert (Dt : timers (dispatch e s) = timers s).
  { pose proof (dispatch_timers e s) as D. destruct e; auto; contradiction. }
  assert (Dm : mounted (dispatch e s) = mounted s).
  { pose proof (dispatch_mounted e s) as D. destruct e; auto; contradiction. }
  pose proof (dispatch_intervalRef e s) as Di.
  pose proof (dispatch_nextTimer e s) as Dn.
  unfold step.
  destruct (mounted s) eqn:Hms.
  - destruct (commit_one s (dispatch e s)) as (C1 & C2 & C3).
    + congruence.
    + now rewrite Dt, Di.
    + rewrite Dt. intros H. now destruct (Hw H) as (_ & ? & ?).
    + constructor; [exact C1|exact C2|].
      intros H. rewrite commit_mounted, Dm. split; [reflexivity|auto].
  - assert (Ht : timers s = []).
    { destruct (timers s) eqn:E; [reflexivity|].
      destruct Hw as (Hf & _); [discriminate|discriminate]. }
    destruct (dispatch_unmounted e s Hms) as (Um & Up & Ue).
    rewrite commit_same by congruence.
    constructor; [congruence|left; congruence|].
    intros H. rewrite Dt in H. contradiction.
Qed.

Lemma OneTimer_mount p : OneTimer (mount p).
Proof.
  destruct p as [[[|c r]|] ? ? ? ? ? ?]; vm_compute;
    (constructor; [discriminate|now left|intros H; now contradiction H]).
Qed.

Lemma OneTimer_run evs s : OneTimer s -> OneTimer (run evs s).
Proof.
  revert s. induction evs as [|e evs IH]; intros s H; [exact H|].
  rewrite run_cons. apply IH. now apply OneTimer_step.
Qed.

(** X1. In every state the component reaches from its first render, whatever
    events and re-renders arrive, at most one interval timer runs; it is the
    one [progressIntervalRef] records; a timer runs exactly while the
    component is mounted, playing and not in error, and none survives the
    unmount. *)
Theorem one_sampling_timer (p : Props) (evs : list Event) :
  let s := run evs (mount p) in
  length (timers s) <= 1
  /\ (forall id, id ∈ timers s -> timers s = [id] /\ progressIntervalRef s = Some id)
  /\ (timers s <> []
      <-> mounted s = true /\ isPlaying s = true /\ loadError s = false)
  /\ timers (step EvUnmount s) = [].
Proof.
  intros s.
  assert (HO : OneTimer s) by apply OneTimer_run, OneTimer_mount.
  assert (HT : TInv s) by apply TInv_run, TInv_mount.
  pose proof (OneTimer_step EvUnmount s HO) as HU.
  destruct HO as [Hn H1 Hw]. destruct HT as [_ _ Ht].
  split; [|split; [|split]].
  - destruct H1 as [->|(id & -> & _)]; cbn; lia.
  - intros id Hin. destruct H1 as [E|(k & E & Hr)]; rewrite E in Hin.
    + now apply elem_of_nil in Hin.
    + apply list_elem_of_singleton in Hin. subst id. auto.
  - split; [exact Hw|]. intros (Hm & Hp & He).
    destruct (Ht Hm Hp He) as (id & _ & Hin). intros E. rewrite E in Hin.
    now apply elem_of_nil in Hin.
  - destruct HU as [_ _ Hw'].
    destruct (timers (step EvUnmount s)) eqn:E; [reflexivity|].
    destruct Hw' as (Hm & _); [discriminate|].
    rewrite step_unmount in Hm. cbn [dispatch] in Hm.
    destruct (mounted s) eqn:Hms; cbn [with_mounted mounted] in Hm; congruence.
Qed.

Lemma one_sampling_timer_witness :
  let s := run [EvLoadedMetadata 0 30; EvPlay 0] (mount props_real) in
  (timers s = [1] /\ progressIntervalRef s = Some 1)
  /\ timers (step EvUnmount s) = [].
Proof.
  destruct (one_sampling_timer props_real [EvLoadedMetadata 0 30; EvPlay 0])
    as (_ & H & _ & Hu).
  split; [|exact Hu].
  apply (H 1). vm_compute. apply list_elem_of_here.
Defined.

(** *** The live element *)

Lemma same_setup_refl au : same_setup au au.
Proof. repeat split. Qed.

Lemma same_setup_trans a b c : same_setup a b -> same_setup b c -> same_setup a c.
Proof. intros (? & ? & ? & ?) (? & ? & ? & ?). repeat split; congruence. Qed.

Lemma Forall2_setup_refl (h : list Audio) : Forall2 same_setup h h.
Proof. induction h; constructor; auto using same_setup_refl. Qed.

Lemma Forall2_setup_alter f a (h k : list Audio) :
  (forall x, same_setup x (f x)) ->
  Forall2 same_setup h k -> Forall2 same_setup h (alter f a k).
Proof.
  intros Hf HF. revert a. induction HF as [|x y h k Hxy HF IH]; intros a.
  - constructor.
  - destruct a as [|a]; cbn; constructor; auto.
    eapply same_setup_trans; [exact Hxy|apply Hf].
Qed.

Lemma setup_with_paused b x : same_setup x (with_paused b x).
Proof. repeat split. Qed.
Lemma setup_with_src u x : same_setup x (with_src u x).
Proof. repeat split. Qed.
Lemma setup_with_currentTime t x : same_setup x (with_currentTime t x).
Proof. repeat split. Qed.
Lemma setup_with_duration d x : same_setup x (with_duration d x).
Proof. repeat split. Qed.
Lemma setup_release x : same_setup x (release x).
Proof. repeat split. Qed.

Create HintDb setup.
#[local] Hint Resolve Forall2_setup_refl Forall2_setup_alter setup_with_paused
  setup_with_src setup_with_currentTime setup_with_duration setup_release : setup.

Lemma Forall2_setup_released r (h : list Audio) : Forall2 same_setup h (released r h).
Proof. destruct r; cbn [released]; auto with setup. Qed.

(** Inside a session an event changes neither the volume nor the handlers
    of an element, nor which element is current. *)
Lemma dispatch_setup e s :
  in_session e = true ->
  Forall2 same_setup (heap s) (heap (dispatch e s))
  /\ audioRef (dispatch e s) = audioRef s
  /\ loadCleanupRef (dispatch e s) = loadCleanupRef s
  /\ isMuted (dispatch e s)
     = match e with
       | EvToggleMute => if mounted s then negb (isMuted s) else isMuted s
       | _ => isMuted s
       end.
Proof.
  intros He. destruct e; try discriminate He; clear He; player s;
    (split; [|split; [|split]]); grind; auto 6 with setup.
Qed.

Lemma alter_snoc (f : Audio -> Audio) (h : list Audio) x :
  alter f (length h) (h ++ [x]) = h ++ [f x].
Proof.
  rewrite <- (Nat.add_0_r (length h)) at 1. now rewrite alter_app_r.
Qed.

(** The load effect with a reference: a fresh element, set up and owned by
    the session, and one HEAD request. *)
Lemma loadEffect_present s c r :
  mounted s = true -> audioUrl (props s) = Some (String c r) ->
  loadEffect s
  = mkPlayer (props s) false true false 0 (duration s) (isMuted s)
      (Some (length (heap s))) (progressIntervalRef s) (Some (length (heap s)))
      (heap s ++ [mkAudio (String c r) "auto" (volume_of (isMuted s)) true 0 NaN
                    (autoPlay (props s)) (onEnded (props s)) (onError (props s))])
      (timers s) (nextTimer s) (promises s ++ [(PFetchHead (String c r), true)])
      (log s) true.
Proof.
  intros Hm Hu. player s; [|discriminate Hm]. cbn [props] in Hu.
  unfold loadEffect. pred. rewrite Hu. plumb.
  rewrite !alter_snoc. reflexivity.
Qed.

(** The load effect without a reference. *)
Lemma loadEffect_absent s :
  mounted s = true -> truthy_str (audioUrl (props s)) = false ->
  loadEffect s
  = mkPlayer (props s) true false false 0 (duration s) (isMuted s)
      (audioRef s) (progressIntervalRef s) None (heap s) (timers s) (nextTimer s)
      (promises s)
      (log s ++ [ConsoleLog "SafeAudioPlayer: No audioUrl provided, using TTS fallback"])
      true.
Proof.
  intros Hm Hu. player s; [|discriminate Hm]. cbn [props] in Hu.
  unfold loadEffect. pred.
  destruct (audioUrl props0) as [[|c r]|]; try discriminate Hu; reflexivity.
Qed.

Lemma touch_same_timers h s : touch h (timers s) s = with_heap s h.
Proof. now destruct s. Qed.

(** A re-render whose dependencies changed: the cleanup of the previous
    run releases its element, then the effect runs under the new props. *)
Lemma dispatch_props_changed p s :
  mounted s = true -> load_deps_eqb (props s) p = false ->
  dispatch (EvProps p) s
  = loadEffect (with_heap (with_props s p) (released (loadCleanupRef s) (heap s))).
Proof.
  intros Hm Hd. cbn [dispatch]. rewrite Hm, Hd. f_equal.
  change (loadCleanupRef (with_props s p)) with (loadCleanupRef s).
  destruct (loadCleanupRef s) as [a|].
  - rewrite loadCleanup_shape.
    change (timers (with_props s p)) with (timers s).
    change (heap (with_props s p)) with (heap s).
    now destruct s.
  - cbn [released]. now destruct s.
Qed.

Lemma commit_heap_eq o n :
  heap (commit o n)
  = if Bool.eqb (isMuted o) (isMuted n) then heap n
    else match audioRef n with
         | Some a => alter (with_volume (volume_of (isMuted n))) a (heap n)
         | None => heap n
         end.
Proof. player o; player n; unfold volume_of; grind. Qed.

Lemma Live_commit o n :
  (forall a, loadCleanupRef n = Some a ->
             audioRef n = Some a
             /\ truthy_str (audioUrl (props n)) = true
             /\ exists au, heap n !! a = Some au /\ handlers_of (props n) au) ->
  (isMuted o = isMuted n ->
   forall a au, audioRef n = Some a -> heap n !! a = Some au ->
                volume au = volume_of (isMuted n)) ->
  Live (commit o n).
Proof.
  intros Ho Hv. constructor.
  - intros a. rewrite commit_loadCleanupRef, commit_audioRef, commit_props.
    intros Hc. destruct (Ho a Hc) as (Ha & Hu & au & Hl & Hh).
    split; [exact Ha|]. split; [exact Hu|].
    destruct (Forall2_lookup_l _ _ _ _ _ (commit_heap o n) Hl) as (au' & Hl' & Hs).
    exists au'. split; [exact Hl'|].
    destruct Hs as (_ & _ & _ & _ & _ & H1 & H2 & H3).
    destruct Hh as (G1 & G2 & G3). repeat split; congruence.
  - intros a au. rewrite commit_audioRef, commit_isMuted, commit_heap_eq.
    destruct (Bool.eqb (isMuted o) (isMuted n)) eqn:E.
    + apply eqb_prop in E. now apply Hv.
    + intros Ha. rewrite Ha, list_lookup_alter_eq.
      destruct (heap n !! a); [|discriminate]. now intros [= <-].
Qed.

Lemma Live_props p s : Live s -> Live (step (EvProps p) s).
Proof.
  intros [Ho Hv]. unfold step.
  destruct (mounted s) eqn:Hm.
  2:{ cbn [dispatch]. rewrite Hm. apply Live_commit; auto. }
  destruct (load_deps_eqb (props s) p) eqn:Hd.
  { cbn [dispatch]. rewrite Hm, Hd. apply Live_commit.
    - intros a Hc. destruct (Ho a Hc) as (Ha & Hu & au & Hl & H1 & H2 & H3).
      unfold load_deps_eqb in Hd.
      apply andb_true_iff in Hd as [Hd D4]. apply andb_true_iff in Hd as [Hd D3].
      apply andb_true_iff in Hd as [D1 D2].
      apply bool_decide_eq_true in D1, D3, D4. apply eqb_prop in D2.
      split; [exact Ha|]. cbn [with_props props].
      split; [now rewrite <- D1|]. exists au. split; [exact Hl|].
      repeat split; congruence.
    - intros _. exact Hv. }
  rewrite (dispatch_props_changed p s Hm Hd).
  set (s1 := with_heap (with_props s p) (released (loadCleanupRef s) (heap s))).
  assert (Hm1 : mounted s1 = true) by exact Hm.
  destruct (audioUrl p) as [[|c r]|] eqn:Hu.
  2:{ rewrite (loadEffect_present s1 c r Hm1 Hu). apply Live_commit.
      - cbn [loadCleanupRef audioRef heap props]. intros a [= <-].
        split; [reflexivity|].
        split; [change (truthy_str (audioUrl p) = true); now rewrite Hu|].
        eexists. split; [now apply list_lookup_middle|].
        repeat split.
      - intros _. cbn [audioRef heap isMuted]. intros a au [= <-].
        rewrite list_lookup_middle by reflexivity. now intros [= <-]. }
  all: rewrite (loadEffect_absent s1 Hm1) by (cbn [s1 with_heap with_props props];
                                               now rewrite Hu).
  all: apply Live_commit; [cbn [loadCleanupRef]; discriminate|].
  all: intros _; cbn [audioRef heap isMuted s1 with_heap with_props].
  all: intros a au Ha Hl.
  all: destruct (Forall2_lookup_r _ _ _ _ _
                   (Forall2_setup_released (loadCleanupRef s) (heap s)) Hl)
         as (au0 & Hl0 & Hs0 & _).
  all: rewrite Hs0; now apply (Hv a au0).
Qed.

Lemma Live_step e s : Live s -> Live (step e s).
Proof.
  intros HL. destruct (in_session e) eqn:He.
  2:{ destruct e; try discriminate He. now apply Live_props. }
  destruct HL as [Ho Hv]. unfold step.
  destruct (dispatch_setup e s He) as (Dh & Da & Dc & Dm).
  pose proof (dispatch_props e s He) as Dp.
  apply Live_commit.
  - rewrite Dc, Da, Dp. intros a Hc. destruct (Ho a Hc) as (Ha & Hu & au & Hl & Hh).
    split; [exact Ha|]. split; [exact Hu|].
    destruct (Forall2_lookup_l _ _ _ _ _ Dh Hl) as (au' & Hl' & _ & H1 & H2 & H3).
    exists au'. split; [exact Hl'|].
    destruct Hh as (G1 & G2 & G3). repeat split; congruence.
  - intros Hmu a au. rewrite Da, <- Hmu. intros Ha Hl.
    destruct (Forall2_lookup_r _ _ _ _ _ Dh Hl) as (au0 & Hl0 & Hs0 & _).
    rewrite Hs0. now apply (Hv a au0).
Qed.

Lemma Live_mount p : Live (mount p).
Proof.
  destruct p as [[[|c r]|] ? ? ? ? ? ?]; vm_compute; constructor.
  all: try (intros a H; discriminate H).
  all: try (intros a au H; discriminate H).
  - intros a [= <-]. split; [reflexivity|]. split; [reflexivity|].
    eexists. split; [reflexivity|]. repeat split.
  - intros a au [= <-] [= <-]. reflexivity.
Qed.

Lemma Live_run evs s : Live s -> Live (run evs s).
Proof.
  revert s. induction evs as [|e evs IH]; intros s H; [exact H|].
  rewrite run_cons. apply IH. now apply Live_step.
Qed.

(** X2. The current element sounds as [isMuted] says, in every state the
    component reaches from its first render: an element is created with the
    volume of the mute state, and the mute effect adjusts the current one
    when the state flips. The volume button flips the state while the
    component is mounted. *)
Theorem volume_follows_mute (p : Props) (evs : list Event) (a : nat) (au : Audio) :
  let s := run evs (mount p) in
  audioRef s = Some a -> heap s !! a = Some au ->
  volume au = (if isMuted s then 0 else 1)%Q
  /\ (let s' := step EvToggleMute s in
      isMuted s' = (if mounted s then negb (isMuted s) else isMuted s)
      /\ audioRef s' = Some a
      /\ exists au', heap s' !! a = Some au'
                     /\ volume au' = (if isMuted s' then 0 else 1)%Q).
Proof.
  intros s Ha Hl.
  assert (HL : Live s) by apply Live_run, Live_mount.
  pose proof (Live_step EvToggleMute s HL) as HL'.
  split; [exact (lv_volume s HL a au Ha Hl)|]. cbv zeta.
  destruct (dispatch_setup EvToggleMute s eq_refl) as (Dh & Da & _ & Dm).
  assert (Ha' : audioRef (step EvToggleMute s) = Some a).
  { unfold step. now rewrite commit_audioRef, Da. }
  split; [|split; [exact Ha'|]].
  - unfold step. now rewrite commit_isMuted.
  - destruct (Forall2_lookup_l _ _ _ _ _ Dh Hl) as (au1 & Hl1 & _).
    destruct (Forall2_lookup_l _ _ _ _ _
                (commit_heap s (dispatch EvToggleMute s)) Hl1) as (au2 & Hl2 & _).
    exists au2. split; [exact Hl2|].
    exact (lv_volume _ HL' a au2 Ha' Hl2).
Qed.

Lemma volume_follows_mute_witness :
  let s := run [EvToggleMute; EvProps props_other] (mount props_real) in
  isMuted s = true /\ audioRef s = Some 1
  /\ (volume <$> heap s !! 1) = Some 0%Q
  /\ isMuted (step EvToggleMute s) = false.
Proof.
  pose (s := run [EvToggleMute; EvProps props_other] (mount props_real)).
  assert (Ha : audioRef s = Some 1) by (vm_compute; reflexivity).
  assert (Hl : heap s !! 1
               = Some (mkAudio "https://x/b.mp3" "auto" 0 true 0 NaN false None (Some 7)))
    by (vm_compute; reflexivity).
  destruct (volume_follows_mute props_real [EvToggleMute; EvProps props_other] 1 _ Ha Hl)
    as (_ & Hm & _).
  split; [vm_compute; reflexivity|]. split; [exact Ha|].
  split; [vm_compute; reflexivity|]. exact Hm.
Defined.

Lemma onerror_fields a au s :
  mounted s = true -> heap s !! a = Some au ->
  let s' := onerror a s in
  loadError s' = true /\ isLoading s' = false /\ props s' = props s
  /\ mounted s' = true
  /\ log s' = log s
              ++ ConsoleError "SafeAudioPlayer: R2 Audio Failed, switching to TTS"
              :: match cl_onError au with
                 | Some k => [CallOnError k "Audio failed to load"]
                 | None => []
                 end.
Proof.
  intros Hm Hl. player s; [|discriminate Hm]. cbn [heap] in Hl.
  cbv zeta. unfold onerror. cbn [heap]. rewrite Hl.
  destruct (cl_onError au); plumb; unfold call_opt; plumb;
    rewrite <- ?app_assoc; repeat split.
Qed.

Lemma onended_fields a au s :
  mounted s = true -> heap s !! a = Some au ->
  let s' := onended a s in
  isPlaying s' = false /\ progress s' = 0%Q /\ props s' = props s
  /\ loadError s' = loadError s /\ isLoading s' = isLoading s
  /\ mounted s' = true
  /\ log s' = log s ++ match cl_onEnded au with
                       | Some k => [CallOnEnded k]
                       | None => []
                       end.
Proof.
  intros Hm Hl. player s; [|discriminate Hm]. cbn [heap] in Hl.
  cbv zeta. unfold onended. cbn [heap]. rewrite Hl.
  destruct (cl_onEnded au); plumb; unfold call_opt; plumb;
    rewrite ?app_nil_r; repeat split.
Qed.

Lemma OneTimer_stopped s :
  OneTimer s -> isPlaying s = false \/ loadError s = true -> timers s = [].
Proof.
  intros [_ _ Hw] H. destruct (timers s) eqn:E; [reflexivity|].
  destruct Hw as (_ & Hp & He); [discriminate|].
  destruct H; congruence.
Qed.

Lemma filter_onError_app l l' :
  List.filter is_onError (l ++ l') = List.filter is_onError l ++ List.filter is_onError l'.
Proof. induction l as [|x l IH]; cbn; [reflexivity|]. destruct (is_onError x); cbn; now rewrite IH. Qed.

(** X3. An error event of the element the session owns, while mounted: the
    component turns to the fallback for good, the sampling timer is stopped,
    and [onError] of the current props is called once with "Audio failed to
    load" when it is supplied, not at all otherwise. *)
Theorem media_error_of_live_element (p : Props) (evs : list Event) (a : nat) :
  let s := run evs (mount p) in
  mounted s = true -> loadCleanupRef s = Some a ->
  let s' := step (EvError a) s in
  decision s' = Fallback
  /\ isLoading s' = false
  /\ timers s' = []
  /\ onError_calls s'
     = onError_calls s ++ match onError (props s) with
                          | Some k => [CallOnError k "Audio failed to load"]
                          | None => []
                          end
  /\ render s'
     = match fallbackText (props s) with
       | Some (String c r) => Simulated (String c r) (accentHint (props s)) (onEnded (props s))
       | _ => Unavailable
       end.
Proof.
  intros s Hm Hc s'.
  assert (HL : Live s) by apply Live_run, Live_mount.
  assert (HO : OneTimer s') by apply OneTimer_step, OneTimer_run, OneTimer_mount.
  destruct (lv_owner s HL a Hc) as (_ & _ & au & Hl & _ & _ & He).
  destruct (onerror_fields a au s Hm Hl) as (F1 & F2 & F3 & F4 & F5).
  assert (E1 : loadError s' = true).
  { subst s'. unfold step. now rewrite commit_loadError. }
  assert (E3 : props s' = props s).
  { subst s'. unfold step. now rewrite commit_props. }
  split; [now apply decision_loadError|].
  split; [subst s'; unfold step; now rewrite commit_isLoading|].
  split; [apply OneTimer_stopped; auto|].
  split.
  - unfold onError_calls. subst s'. unfold step. rewrite commit_log.
    cbn [dispatch]. rewrite F5, He, filter_onError_app. f_equal.
    now destruct (onError (props s)).
  - unfold render. rewrite E1, E3. reflexivity.
Qed.

Lemma media_error_of_live_element_witness :
  let s := run [EvLoadedMetadata 0 30; EvPlay 0] (mount props_real) in
  let s' := step (EvError 0) s in
  decision s = Real /\ decision s' = Fallback /\ timers s' = []
  /\ onError_calls s' = [CallOnError 7 "Audio failed to load"]
  /\ render s' = Simulated "Hello" None None.
Proof.
  destruct (media_error_of_live_element props_real [EvLoadedMetadata 0 30; EvPlay 0] 0)
    as (H1 & _ & H3 & H4 & H5); [vm_compute; reflexivity..|].
  split; [vm_compute; reflexivity|]. split; [exact H1|]. split; [exact H3|].
  split; [exact H4|exact H5].
Defined.

(** X4. The end of the playback of the element the session owns, while
    mounted: playing stops, the position goes back to 0, the sampling timer
    is stopped, the decision stays, and [onEnded] of the current props is
    called once when it is supplied, not at all otherwise. *)
Theorem playback_end_of_live_element (p : Props) (evs : list Event) (a : nat) :
  let s := run evs (mount p) in
  mounted s = true -> loadCleanupRef s = Some a ->
  let s' := step (EvEnded a) s in
  isPlaying s' = false
  /\ progress s' = 0%Q
  /\ (positionFraction s' == 0)%Q
  /\ timers s' = []
  /\ decision s' = decision s
  /\ log s' = log s ++ match onEnded (props s) with
                       | Some k => [CallOnEnded k]
                       | None => []
                       end.
Proof.
  intros s Hm Hc s'.
  assert (HL : Live s) by apply Live_run, Live_mount.
  assert (HO : OneTimer s') by apply OneTimer_step, OneTimer_run, OneTimer_mount.
  destruct (lv_owner s HL a Hc) as (_ & _ & au & Hl & _ & He & _).
  destruct (onended_fields a au s Hm Hl) as (F1 & F2 & F3 & F4 & F5 & F6 & F7).
  assert (E1 : isPlaying s' = false).
  { subst s'. unfold step. now rewrite commit_isPlaying. }
  assert (E2 : progress s' = 0%Q).
  { subst s'. unfold step. now rewrite commit_progress. }
  split; [exact E1|]. split; [exact E2|].
  split; [unfold positionFraction; rewrite E2; reflexivity|].
  split; [apply OneTimer_stopped; auto|].
  split.
  - subst s'. unfold step. rewrite commit_decision. unfold decision.
    cbn [dispatch]. now rewrite F3, F4, F5.
  - subst s'. unfold step. rewrite commit_log. cbn [dispatch]. now rewrite F7, He.
Qed.

Lemma playback_end_of_live_element_witness :
  let p := mkProps (Some "https://x/a.mp3") (Some "Hello") None false (Some 5) None true in
  let s := run [EvLoadedMetadata 0 30; EvPlay 0; EvTime 0 30; EvTick 1] (mount p) in
  let s' := step (EvEnded 0) s in
  (progress s == 100)%Q /\ timers s = [1]
  /\ progress s' = 0%Q /\ timers s' = [] /\ decision s' = Real
  /\ log s' = log s ++ [CallOnEnded 5].
Proof.
  destruct (playback_end_of_live_element
              (mkProps (Some "https://x/a.mp3") (Some "Hello") None false (Some 5) None true)
              [EvLoadedMetadata 0 30; EvPlay 0; EvTime 0 30; EvTick 1] 0)
    as (_ & H2 & _ & H4 & H5 & H6); [vm_compute; reflexivity..|].
  split; [vm_compute; reflexivity|]. split; [vm_compute; reflexivity|].
  split; [exact H2|]. split; [exact H4|]. split; [|exact H6].
  rewrite H5. vm_compute. reflexivity.
Defined.

(** *** Re-renders *)

Lemma released_length r (h : list Audio) : length (released r h) = length h.
Proof. destruct r; cbn [released]; [apply length_alter|reflexivity]. Qed.

Lemma released_lookup r (h : list Audio) a au :
  h !! a = Some au ->
  released r h !! a = Some (if bool_decide (r = Some a) then release au else au).
Proof.
  intros Hl. destruct r as [b|]; cbn [released].
  - rewrite list_lookup_alter. destruct (decide (b = a)) as [->|Hn].
    + rewrite Hl, bool_decide_eq_true_2 by reflexivity. reflexivity.
    + rewrite Hl, bool_decide_eq_false_2 by congruence. reflexivity.
  - rewrite Hl. reflexivity.
Qed.

(** X6. A re-render that keeps [audioUrl], [autoPlay], [onEnded] and
    [onError] only replaces the props. A re-render that changes one of them,
    with a reference present, starts a new session whatever the old one was
    doing: the element of the old session is paused and detached, a fresh
    element is set up for the new reference with the volume of the mute
    state and the new callbacks, one HEAD request is issued, the decision is
    Pending, playing and position are reset, no sampling timer runs and
    nothing is reported to the caller. The published duration is not reset. *)
Theorem reference_change_starts_new_session (p0 : Props) (evs : list Event)
    (p : Props) :
  let s := run evs (mount p0) in
  mounted s = true ->
  (load_deps_eqb (props s) p = true -> step (EvProps p) s = with_props s p)
  /\ (forall c r,
        load_deps_eqb (props s) p = false -> audioUrl p = Some (String c r) ->
        let s' := step (EvProps p) s in
        decision s' = Pending
        /\ isPlaying s' = false /\ progress s' = 0%Q /\ timers s' = []
        /\ audioRef s' = Some (length (heap s))
        /\ loadCleanupRef s' = Some (length (heap s))
        /\ heap s'
           = released (loadCleanupRef s) (heap s)
             ++ [mkAudio (String c r) "auto" (if isMuted s then 0 else 1)%Q true 0 NaN
                   (autoPlay p) (onEnded p) (onError p)]
        /\ (forall a au, loadCleanupRef s = Some a -> heap s !! a = Some au ->
              heap s' !! a = Some (with_src "" (with_paused true au)))
        /\ promises s' = promises s ++ [(PFetchHead (String c r), true)]
        /\ log s' = log s
        /\ duration s' = duration s).
Proof.
  intros s Hm. split.
  - intros Hd. unfold step. cbn [dispatch]. rewrite Hm, Hd.
    now apply commit_same.
  - intros c r Hd Hu s'.
    assert (HO : OneTimer s') by apply OneTimer_step, OneTimer_run, OneTimer_mount.
    set (s1 := with_heap (with_props s p) (released (loadCleanupRef s) (heap s))).
    assert (E : dispatch (EvProps p) s
                = mkPlayer p false true false 0 (duration s) (isMuted s)
                    (Some (length (heap s))) (progressIntervalRef s)
                    (Some (length (heap s)))
                    (released (loadCleanupRef s) (heap s)
                     ++ [mkAudio (String c r) "auto" (volume_of (isMuted s)) true 0 NaN
                           (autoPlay p) (onEnded p) (onError p)])
                    (timers s) (nextTimer s)
                    (promises s ++ [(PFetchHead (String c r), true)]) (log s) true).
    { rewrite (dispatch_props_changed p s Hm Hd). fold s1.
      rewrite (loadEffect_present s1 c r Hm Hu).
      cbn [s1 with_heap with_props props duration isMuted heap progressIntervalRef
           timers nextTimer promises log].
      now rewrite released_length. }
    assert (E1 : isPlaying s' = false).
    { subst s'. unfold step. now rewrite commit_isPlaying, E. }
    assert (Eh : heap s' = released (loadCleanupRef s) (heap s)
                 ++ [mkAudio (String c r) "auto" (if isMuted s then 0 else 1)%Q true 0 NaN
                       (autoPlay p) (onEnded p) (onError p)]).
    { subst s'. unfold step. rewrite commit_heap_eq, E. cbn [isMuted heap].
      now rewrite eqb_reflx. }
    split.
    { subst s'. unfold step. rewrite commit_decision, E. unfold decision.
      cbn [loadError props isLoading]. now rewrite Hu. }
    split; [exact E1|].
    split; [subst s'; unfold step; now rewrite commit_progress, E|].
    split; [apply OneTimer_stopped; auto|].
    split; [subst s'; unfold step; now rewrite commit_audioRef, E|].
    split; [subst s'; unfold step; now rewrite commit_loadCleanupRef, E|].
    split; [exact Eh|].
    split.
    { intros a au Hc Hl. rewrite Eh, lookup_app_l.
      - rewrite (released_lookup _ _ a au Hl), bool_decide_eq_true_2 by exact Hc.
        reflexivity.
      - rewrite released_length. apply lookup_lt_is_Some. eauto. }
    split; [subst s'; unfold step; now rewrite commit_promises, E|].
    split; [subst s'; unfold step; now rewrite commit_log, E|].
    subst s'; unfold step; now rewrite commit_duration, E.
Qed.

Lemma reference_change_starts_new_session_witness :
  let s := run [EvLoadedMetadata 0 30; EvPlay 0] (mount props_real) in
  let s' := step (EvProps props_other) s in
  timers s = [1] /\ decision s = Real
  /\ decision s' = Pending /\ timers s' = [] /\ audioRef s' = Some 1
  /\ src <$> heap s' !! 0 = Some ""%string
  /\ step (EvProps props_real) s = s.
Proof.
  destruct (reference_change_starts_new_session props_real
              [EvLoadedMetadata 0 30; EvPlay 0] props_other) as [_ H];
    [vm_compute; reflexivity|].
  destruct (H "h"%char "ttps://x/b.mp3"%string) as (H1 & _ & _ & H4 & H5 & _);
    [vm_compute; reflexivity..|].
  destruct (reference_change_starts_new_session props_real
              [EvLoadedMetadata 0 30; EvPlay 0] props_real) as [H' _];
    [vm_compute; reflexivity|].
  split; [vm_compute; reflexivity|]. split; [vm_compute; reflexivity|].
  split; [exact H1|]. split; [exact H4|]. split; [exact H5|].
  split; [vm_compute; reflexivity|].
  rewrite H' by (vm_compute; reflexivity). vm_compute. reflexivity.
Defined.

(** *** No recorded asset *)




(** *** The play button *)

(** X8. [togglePlay] only asks the element: without an element it does
    nothing; while playing it pauses the current element; otherwise it calls
    [play()] on it. It changes no state cell itself, so the decision and the
    position stay, and nothing is reported. When that [play()] is rejected
    the error is printed and nothing else happens: no state cell changes and
    [onError] is not called. *)
Theorem togglePlay_only_asks_the_element (s : Player) :
  let s' := step EvTogglePlay s in
  (audioRef s = None -> s' = s)
  /\ (forall a, audioRef s = Some a -> isPlaying s = true ->
        s' = with_heap s (alter (with_paused true) a (heap s)))
  /\ (forall a, audioRef s = Some a -> isPlaying s = false ->
        s' = with_promises s (promises s ++ [(PTogglePlay a, true)]))
  /\ (isPlaying s' = isPlaying s /\ progress s' = progress s
      /\ decision s' = decision s /\ log s' = log s)
  /\ (forall i a, promises s !! i = Some (PTogglePlay a, true) ->
        let s2 := step (EvPlaySettled i false) s in
        s2 = console_error "" (settle i s)
        /\ decision s2 = decision s /\ isPlaying s2 = isPlaying s
        /\ onError_calls s2 = onError_calls s).
Proof.
  cbv zeta.
  assert (Ht : step EvTogglePlay s = togglePlay s).
  { unfold step. cbn [dispatch]. apply commit_same;
      unfold togglePlay; destruct (audioRef s); try reflexivity;
      destruct (isPlaying s) eqn:E; cbn; rewrite ?E; reflexivity. }
  rewrite Ht. split; [|split; [|split; [|split]]].
  - intros Ha. unfold togglePlay. now rewrite Ha.
  - intros a Ha Hp. unfold togglePlay. now rewrite Ha, Hp.
  - intros a Ha Hp. unfold togglePlay. now rewrite Ha, Hp.
  - unfold togglePlay, decision. destruct (audioRef s); [|auto].
    destruct (isPlaying s) eqn:E; cbn; rewrite ?E; auto.
  - intros i a Hi.
    assert (E : step (EvPlaySettled i false) s = console_error "" (settle i s)).
    { unfold step. cbn [dispatch]. rewrite Hi. now apply commit_same. }
    rewrite E. split; [reflexivity|]. split; [reflexivity|]. split; [reflexivity|].
    unfold onError_calls, console_error, settle. cbn [with_log with_promises log].
    rewrite filter_onError_app. cbn. apply app_nil_r.
Qed.

Lemma togglePlay_only_asks_the_element_witness :
  let s := run [EvLoadedMetadata 0 30] (mount props_real) in
  let s1 := step EvTogglePlay s in
  promises s1 = promises s ++ [(PTogglePlay 0, true)]
  /\ decision (step (EvPlaySettled 1 false) s1) = Real
  /\ onError_calls (step (EvPlaySettled 1 false) s1) = []
  /\ step EvTogglePlay (mount props_absent) = mount props_absent.
Proof.
  pose (s := run [EvLoadedMetadata 0 30] (mount props_real)).
  destruct (togglePlay_only_asks_the_element s) as (_ & _ & H3 & _).
  destruct (togglePlay_only_asks_the_element (step EvTogglePlay s)) as (_ & _ & _ & _ & H5).
  destruct (H5 1 0) as (_ & D & _ & O); [vm_compute; reflexivity|].
  destruct (togglePlay_only_asks_the_element (mount props_absent)) as (H1 & _).
  subst s. cbv zeta. split; [|split; [|split]].
  - rewrite (H3 0) by (vm_compute; reflexivity). reflexivity.
  - rewrite D. vm_compute. reflexivity.
  - rewrite O. vm_compute. reflexivity.
  - apply H1. vm_compute. reflexivity.
Defined.

(** *** The labels beside the slider *)

Lemma dispatch_duration e s :
  match e with
  | EvLoadedMetadata _ _ => True
  | _ => duration (dispatch e s) = duration s
  end.
Proof.
  destruct e; try exact I; [|player s; grind..].
  destruct (mounted s) eqn:Hm; [|cbn [dispatch]; now rewrite Hm].
  destruct (load_deps_eqb (props s) p) eqn:Hd;
    [cbn [dispatch]; now rewrite Hm, Hd|].
  rewrite (dispatch_props_changed p s Hm Hd).
  set (s1 := with_heap (with_props s p) (released (loadCleanupRef s) (heap s))).
  destruct (audioUrl p) as [[|c r]|] eqn:Hu.
  2: now rewrite (loadEffect_present s1 c r Hm Hu).
  all: rewrite (loadEffect_absent s1 Hm)
         by (cbn [s1 with_heap with_props props]; now rewrite Hu).
  all: reflexivity.
Qed.

Lemma nonneg_step e s :
  Inv s -> env_ok e s = true ->
  nonneg (duration s) -> nonneg (duration (step e s)).
Proof.
  intros HI He Hd. unfold step. rewrite commit_duration.
  pose proof (dispatch_duration e s) as D.
  destruct e; try (rewrite D; exact Hd).
  destruct (dispatch_loadedmetadata_fields a d s) as (_ & _ & _ & _ & _ & Dn & Ds).
  destruct (heap s !! a) as [au|] eqn:Hl.
  - rewrite Ds by eauto. destruct (mounted s); [|exact Hd].
    cbn [env_ok] in He. rewrite Hl in He.
    apply andb_true_iff in He as [He _]. apply andb_true_iff in He as [He _].
    apply Qle_bool_iff in He.
    destruct (Inv_current_media s a au HI Hl) as [H0 _].
    cbn [nonneg]. eapply Qle_trans; eassumption.
  - rewrite Dn by reflexivity. exact Hd.
Qed.

Lemma nonneg_run evs s :
  Inv s -> trace_ok s evs = true ->
  nonneg (duration s) -> nonneg (duration (run evs s)).
Proof.
  revert s. induction evs as [|e evs IH]; intros s HI Ht Hd; [exact Hd|].
  cbn [trace_ok] in Ht. apply andb_true_iff in Ht as [He Ht].
  rewrite run_cons. apply IH; [now apply Inv_step|exact Ht|now apply nonneg_step].
Qed.

Lemma mount_duration p : duration (mount p) = Num 0.
Proof. destruct p as [[[|c r]|] ? ? ? ? ? ?]; vm_compute; reflexivity. Qed.

(** X10. Under the assumptions on the platform the two labels beside the
    slider always read minutes and two-digit seconds: the position of the
    current element (0:00 without one) and the published duration, which is
    never [NaN] and never negative. *)
Theorem time_labels_read_minutes_and_seconds (p : Props) (evs : list Event) :
  trace_ok (mount p) evs = true ->
  let s := run evs (mount p) in
  exists t d : Q,
    (0 <= t)%Q /\ (0 <= d)%Q
    /\ duration s = Num d
    /\ (forall a au, audioRef s = Some a -> heap s !! a = Some au ->
                     (t == currentTime au)%Q)
    /\ (audioRef s = None -> t = 0%Q)
    /\ timeLabels s = (clock t, clock d).
Proof.
  intros Ht s.
  assert (HI : Inv s) by (apply Inv_run; [apply Inv_mount|exact Ht]).
  assert (Hd : nonneg (duration s)).
  { apply nonneg_run; [apply Inv_mount|exact Ht|].
    rewrite mount_duration. cbn. discriminate. }
  destruct (duration s) as [|d] eqn:Ed; [contradiction|]. cbn [nonneg] in Hd.
  set (t := match audioRef s with
            | Some a =>
                match heap s !! a with
                | Some au => if Qeq_bool (currentTime au) 0 then 0%Q else currentTime au
                | None => 0%Q
                end
            | None => 0%Q
            end).
  assert (H0 : (0 <= t)%Q).
  { subst t. destruct (audioRef s) as [a|]; [|discriminate].
    destruct (heap s !! a) as [au|] eqn:Hl; [|discriminate].
    destruct (Qeq_bool (currentTime au) 0); [discriminate|].
    now destruct (Inv_current_media s a au HI Hl). }
  exists t, d. split; [exact H0|]. split; [exact Hd|]. split; [reflexivity|].
  split; [|split].
  - intros a au Ha Hl. subst t. rewrite Ha, Hl.
    destruct (Qeq_bool (currentTime au) 0) eqn:E; [|reflexivity].
    apply Qeq_bool_iff in E. now rewrite E.
  - intros Ha. subst t. now rewrite Ha.
  - unfold timeLabels. fold t. rewrite Ed.
    now rewrite (formatTime_clock t H0), (formatTime_clock d Hd).
Qed.

Lemma time_labels_read_minutes_and_seconds_witness :
  let s := run [EvLoadedMetadata 0 (1855 # 10); EvPlay 0; EvTime 0 (754 # 10)]
               (mount props_real) in
  (exists t d : Q, (0 <= t)%Q /\ (0 <= d)%Q /\ timeLabels s = (clock t, clock d))
  /\ timeLabels s = ("1:15", "3:05")%string.
Proof.
  split; [|vm_compute; reflexivity].
  destruct (time_labels_read_minutes_and_seconds props_real
              [EvLoadedMetadata 0 (1855 # 10); EvPlay 0; EvTime 0 (754 # 10)])
    as (t & d & H0 & H1 & _ & _ & _ & H); [vm_compute; reflexivity|].
  exists t, d. auto.
Defined.

(** *** Metadata of the live element *)

Lemma onloadedmetadata_fields a d au s :
  mounted s = true -> heap s !! a = Some au ->
  let s' := dispatch (EvLoadedMetadata a d) s in
  isLoading s' = false /\ duration s' = Num d /\ loadError s' = loadError s
  /\ props s' = props s /\ isPlaying s' = isPlaying s /\ progress s' = progress s
  /\ promises s' = promises s ++ (if cl_autoPlay au then [(PAutoPlay a, true)] else [])
  /\ log s' = log s ++ [ConsoleLog "SafeAudioPlayer: R2 audio loaded successfully"].
Proof.
  intros Hm Hl. player s; [|discriminate Hm]. cbn [heap] in Hl.
  cbv zeta. cbn [dispatch]. unfold onloadedmetadata, on_audio.
  cbn [with_heap heap]. rewrite list_lookup_alter_eq, Hl. cbn [fmap option_fmap option_map].
  change (cl_autoPlay (with_duration (Num d) au)) with (cl_autoPlay au).
  change (a_duration (with_duration (Num d) au)) with (Num d).
  destruct (cl_autoPlay au); plumb; rewrite ?app_nil_r; repeat split.
Qed.

(** X5. [loadedmetadata] of the element the session owns, while mounted: the
    spinner goes, the duration of the media is published, and the decision
    is Real unless an error was raised before, in which case it stays
    Fallback. When the current props ask for autoplay, [play()] is called on
    that element, once; otherwise it is not called. Nothing is reported to
    the caller. *)
Theorem metadata_of_live_element (p : Props) (evs : list Event) (a : nat) (d : Q) :
  let s := run evs (mount p) in
  mounted s = true -> loadCleanupRef s = Some a ->
  let s' := step (EvLoadedMetadata a d) s in
  isLoading s' = false
  /\ duration s' = Num d
  /\ decision s' = (if loadError s then Fallback else Real)
  /\ promises s' = promises s ++ (if autoPlay (props s) then [(PAutoPlay a, true)] else [])
  /\ log s' = log s ++ [ConsoleLog "SafeAudioPlayer: R2 audio loaded successfully"]
  /\ isPlaying s' = isPlaying s /\ progress s' = progress s.
Proof.
  intros s Hm Hc s'.
  assert (HL : Live s) by apply Live_run, Live_mount.
  destruct (lv_owner s HL a Hc) as (_ & Hu & au & Hl & Ha & _ & _).
  destruct (onloadedmetadata_fields a d au s Hm Hl)
    as (F1 & F2 & F3 & F4 & F5 & F6 & F7 & F8).
  subst s'. unfold step.
  rewrite commit_isLoading, commit_duration, commit_decision, commit_promises,
    commit_log, commit_isPlaying, commit_progress.
  split; [exact F1|]. split; [exact F2|]. split.
  { unfold decision. rewrite F1, F3, F4, Hu. now destruct (loadError s). }
  split; [now rewrite F7, Ha|]. auto.
Qed.

Lemma metadata_of_live_element_witness :
  let s := run [EvToggleMute] (mount props_autoplay) in
  let s' := step (EvLoadedMetadata 0 30) s in
  decision s = Pending /\ decision s' = Real /\ duration s' = Num 30
  /\ promises s' = promises s ++ [(PAutoPlay 0, true)].
Proof.
  destruct (metadata_of_live_element props_autoplay [EvToggleMute] 0 30)
    as (_ & H2 & H3 & H4 & _); [vm_compute; reflexivity..|].
  cbv zeta. split; [vm_compute; reflexivity|].
  split; [etransitivity; [exact H3|vm_compute; reflexivity]|].
  split; [exact H2|].
  etransitivity; [exact H4|vm_compute; reflexivity].
Defined.

(** *** Elements that are let go *)

(** X11. Under the assumptions on the platform at most one element has a
    source attached at any time, the current one, which the session owns;
    once the component is unmounted no element has a source attached and no
    timer runs. *)
Theorem only_the_current_element_is_attached (p : Props) (evs : list Event) :
  trace_ok (mount p) evs = true ->
  let s := run evs (mount p) in
  (forall a au, heap s !! a = Some au -> src au <> ""%string ->
                audioRef s = Some a /\ loadCleanupRef s = Some a)
  /\ (let s' := step EvUnmount s in
      mounted s = true ->
      (forall a au, heap s' !! a = Some au -> src au = ""%string)
      /\ timers s' = [] /\ mounted s' = false).
Proof.
  intros Ht s.
  assert (HI : Inv s) by (apply Inv_run; [apply Inv_mount|exact Ht]).
  assert (HO : OneTimer s) by apply OneTimer_run, OneTimer_mount.
  split.
  - intros a au Hl Hs.
    destruct (decide (loadCleanupRef s = Some a)) as [Hc|Hc].
    + split; [now apply (inv_owner s HI)|exact Hc].
    + contradiction Hs. exact (inv_stale s HI a au Hl Hc).
  - cbv zeta. intros Hm. rewrite step_unmount. cbn [dispatch]. rewrite Hm.
    rewrite teardown_shape. unfold touch.
    cbn [with_mounted with_timers with_heap heap timers mounted].
    split; [|split; [|reflexivity]].
    + intros a au' Hl.
      assert (Hlt : a < length (heap s)).
      { apply lookup_lt_Some in Hl. now rewrite !released_length in Hl. }
      destruct (lookup_lt_is_Some_2 _ _ Hlt) as [au Hl0].
      rewrite (released_lookup _ _ a _ (released_lookup _ _ a au Hl0)) in Hl.
      injection Hl as <-.
      destruct (bool_decide (loadCleanupRef s = Some a)) eqn:Ec; [reflexivity|].
      apply bool_decide_eq_false in Ec.
      pose proof (inv_stale s HI a au Hl0 Ec) as Hs.
      now destruct (bool_decide (audioRef s = Some a)).
    + rewrite cleared_idem. apply cleared_one. exact (ot_one s HO).
Qed.

Lemma only_the_current_element_is_attached_witness :
  let s := run [EvLoadedMetadata 0 30; EvProps props_other] (mount props_real) in
  src <$> heap s !! 0 = Some ""%string
  /\ src <$> heap s !! 1 = Some "https://x/b.mp3"%string
  /\ (forall a au, heap (step EvUnmount s) !! a = Some au -> src au = ""%string).
Proof.
  destruct (only_the_current_element_is_attached props_real
              [EvLoadedMetadata 0 30; EvProps props_other]) as [_ H];
    [vm_compute; reflexivity|].
  split; [vm_compute; reflexivity|]. split; [vm_compute; reflexivity|].
  apply H. vm_compute. reflexivity.
Defined.

(** *** Play and pause events *)

Lemma dispatch_play_fields a au s :
  mounted s = true -> heap s !! a = Some au ->
  isPlaying (dispatch (EvPlay a) s) = true
  /\ loadError (dispatch (EvPlay a) s) = loadError s
  /\ mounted (dispatch (EvPlay a) s) = true
  /\ heap (dispatch (EvPlay a) s) = alter (with_paused false) a (heap s).
Proof.
  intros Hm Hl. player s; [|discriminate Hm]. cbn [heap] in Hl.
  cbn [dispatch heap]. rewrite Hl. repeat split.
Qed.

Lemma dispatch_pause_fields a au s :
  mounted s = true -> heap s !! a = Some au ->
  isPlaying (dispatch (EvPause a) s) = false
  /\ heap (dispatch (EvPause a) s) = alter (with_paused true) a (heap s).
Proof.
  intros Hm Hl. player s; [|discriminate Hm]. cbn [heap] in Hl.
  cbn [dispatch heap]. rewrite Hl. repeat split.
Qed.

Lemma commit_paused o n a au :
  heap n !! a = Some au ->
  exists au', heap (commit o n) !! a = Some au' /\ paused au' = paused au.
Proof.
  intros Hl.
  destruct (Forall2_lookup_l _ _ _ _ _ (commit_heap o n) Hl)
    as (au' & Hl' & _ & _ & Hp & _).
  exists au'. split; [exact Hl'|]. now rewrite Hp.
Qed.

(** X17. The component shows what the element reports: a [play] event of an
    existing element, while mounted, sets [isPlaying] and, unless the
    component is in error, starts the sampling timer, the only one running;
    a [pause] event clears [isPlaying] and stops the timer.  The element is
    not paused after the one and paused after the other. *)
Theorem play_and_pause_events_drive_sampling (p : Props) (evs : list Event)
    (a : nat) (au : Audio) :
  let s := run evs (mount p) in
  mounted s = true -> heap s !! a = Some au ->
  (let s' := step (EvPlay a) s in
   isPlaying s' = true
   /\ (loadError s = false ->
       exists id, timers s' = [id] /\ progressIntervalRef s' = Some id)
   /\ (loadError s = true -> timers s' = [])
   /\ exists au', heap s' !! a = Some au' /\ paused au' = false)
  /\ (let s' := step (EvPause a) s in
      isPlaying s' = false
      /\ timers s' = []
      /\ exists au', heap s' !! a = Some au' /\ paused au' = true).
Proof.
  intros s Hm Hl. split; cbv zeta.
  - assert (HO : OneTimer (step (EvPlay a) s))
      by apply OneTimer_step, OneTimer_run, OneTimer_mount.
    assert (HT : TInv (step (EvPlay a) s)) by apply TInv_step, TInv_run, TInv_mount.
    destruct (dispatch_play_fields a au s Hm Hl) as (F1 & F2 & F3 & F4).
    assert (E1 : isPlaying (step (EvPlay a) s) = true).
    { unfold step. now rewrite commit_isPlaying. }
    assert (E2 : loadError (step (EvPlay a) s) = loadError s).
    { unfold step. now rewrite commit_loadError. }
    assert (E3 : mounted (step (EvPlay a) s) = true).
    { unfold step. now rewrite commit_mounted. }
    split; [exact E1|]. split; [|split].
    + intros He. rewrite <- E2 in He.
      destruct (ti_timer _ HT E3 E1 He) as (id & Hr & Hin).
      exists (S id). split; [|exact Hr].
      destruct (ot_one _ HO) as [E|(k & E & Hk)]; rewrite E in Hin.
      * now apply elem_of_nil in Hin.
      * apply list_elem_of_singleton in Hin. now rewrite E, Hin.
    + intros He. apply OneTimer_stopped; [exact HO|]. right. now rewrite E2.
    + unfold step.
      destruct (commit_paused s (dispatch (EvPlay a) s) a (with_paused false au))
        as (au' & Hl' & Hp); [|eauto].
      rewrite F4, list_lookup_alter_eq, Hl. reflexivity.
  - assert (HO : OneTimer (step (EvPause a) s))
      by apply OneTimer_step, OneTimer_run, OneTimer_mount.
    destruct (dispatch_pause_fields a au s Hm Hl) as (F1 & F4).
    assert (E1 : isPlaying (step (EvPause a) s) = false).
    { unfold step. now rewrite commit_isPlaying. }
    split; [exact E1|]. split; [apply OneTimer_stopped; auto|].
    unfold step.
    destruct (commit_paused s (dispatch (EvPause a) s) a (with_paused true au))
      as (au' & Hl' & Hp); [|eauto].
    rewrite F4, list_lookup_alter_eq, Hl. reflexivity.
Qed.

Lemma play_and_pause_events_drive_sampling_witness :
  let s := run [EvLoadedMetadata 0 30] (mount props_real) in
  let s1 := run [EvLoadedMetadata 0 30; EvPlay 0] (mount props_real) in
  timers s = []
  /\ timers (step (EvPlay 0) s) = [1]
  /\ isPlaying (step (EvPlay 0) s) = true
  /\ timers (step (EvPause 0) s1) = [].
Proof.
  destruct (play_and_pause_events_drive_sampling props_real [EvLoadedMetadata 0 30] 0
              (mkAudio "https://x/a.mp3" "auto" 1 true 0 (Num 30) false None (Some 7)))
    as [(H1 & _) _]; [vm_compute; reflexivity..|].
  destruct (play_and_pause_events_drive_sampling props_real
              [EvLoadedMetadata 0 30; EvPlay 0] 0
              (mkAudio "https://x/a.mp3" "auto" 1 false 0 (Num 30) false None (Some 7)))
    as [_ (_ & H2 & _)]; [vm_compute; reflexivity..|].
  cbv zeta. split; [vm_compute; reflexivity|]. split; [vm_compute; reflexivity|].
  split; [exact H1|exact H2].
Defined.

(** *** Sessions of the load effect *)


(** A re-render that keeps the dependencies only replaces the props. *)
Lemma step_props_kept p s :
  load_deps_eqb (props s) p = true ->
  step (EvProps p) s = if mounted s then with_props s p else s.
Proof.
  intros Hd. unfold step. cbn [dispatch]. rewrite Hd.
  destruct (mounted s); now apply commit_same.
Qed.






(** *** What invokes [onError] *)

Lemma dispatch_props_log p s :
  exists l, log (dispatch (EvProps p) s) = log s ++ l /\ List.filter is_onError l = [].
Proof.
  destruct (mounted s) eqn:Hm.
  2:{ exists []. cbn [dispatch]. now rewrite Hm, app_nil_r. }
  destruct (load_deps_eqb (props s) p) eqn:Hd.
  { exists []. cbn [dispatch]. now rewrite Hm, Hd, app_nil_r. }
  rewrite (dispatch_props_changed p s Hm Hd).
  set (s1 := with_heap (with_props s p) (released (loadCleanupRef s) (heap s))).
  destruct (audioUrl p) as [[|c r]|] eqn:Hu.
  2:{ exists []. now rewrite (loadEffect_present s1 c r Hm Hu), app_nil_r. }
  all: eexists; rewrite (loadEffect_absent s1 Hm)
         by (cbn [s1 with_heap with_props props]; now rewrite Hu).
  all: split; reflexivity.
Qed.

(** [onError] is called by the error handler of an element and by nothing
    else: one call per error event. *)
Lemma step_onError_calls e s :
  onError_calls (step e s) = onError_calls s ++ error_report e s.
Proof.
  unfold step, onError_calls. rewrite commit_log.
  destruct e.
  1:{ destruct (dispatch_props_log p s) as (l & -> & Hl).
      now rewrite filter_onError_app, Hl. }
  all: unfold error_report; player s; grind;
    rewrite ?filter_onError_app; cbn [List.filter is_onError];
    rewrite ?app_nil_r; first [reflexivity | congruence].
Qed.

Lemma run_onError_calls evs s :
  onError_calls (run evs s) = onError_calls s ++ error_reports s evs.
Proof.
  revert s. induction evs as [|e evs IH]; intros s; cbn [error_reports].
  - now rewrite app_nil_r.
  - rewrite run_cons, IH, step_onError_calls. now rewrite app_assoc.
Qed.

Lemma error_reports_none s evs :
  forallb (fun e => negb (element_error e)) evs = true -> error_reports s evs = [].
Proof.
  revert s. induction evs as [|e evs IH]; intros s H; [reflexivity|].
  cbn [forallb] in H. apply andb_true_iff in H as [He H].
  cbn [error_reports]. rewrite (IH _ H), app_nil_r.
  destruct e; try reflexivity. discriminate He.
Qed.










(** *** Sessions without a reference *)

Lemma released_nil r : released r [] = [].
Proof. now destruct r. Qed.

Lemma omap_alter_same {A B} (f : A -> option B) (g : A -> A) i (l : list A) :
  (forall x, f (g x) = f x) -> omap f (alter g i l) = omap f l.
Proof.
  intros H. revert i. induction l as [|x l IH]; intros i; [reflexivity|].
  destruct i as [|i]; cbn.
  - now rewrite H.
  - now rewrite IH.
Qed.

Lemma head_requests_settle i s : head_requests (settle i s) = head_requests s.
Proof. unfold head_requests, settle. cbn [with_promises promises]. now apply omap_alter_same. Qed.

(** No event but a re-render issues a HEAD request. *)
Lemma step_head_requests e s :
  in_session e = true -> head_requests (step e s) = head_requests s.
Proof.
  intros He. unfold step, head_requests. rewrite commit_promises.
  fold (head_requests (dispatch e s)). fold (head_requests s).
  destruct e; try discriminate He; clear He.
  all: try (player s; unfold head_requests; grind;
            rewrite ?omap_app; cbn [omap list_omap fst];
            rewrite ?app_nil_r; reflexivity).
  - cbn [dispatch]. destruct (promises s !! i) as [[[u|a|a] [|]]|]; try reflexivity.
    destruct (headThen_throws r); [|apply head_requests_settle].
    rewrite <- (head_requests_settle i s). unfold head_requests.
    f_equal. generalize (settle i s). intros t. player t; grind.
  - cbn [dispatch]. destruct (promises s !! i) as [[[u|a|a] [|]]|]; try reflexivity;
      destruct ok; try apply head_requests_settle;
      rewrite <- (head_requests_settle i s); reflexivity.
Qed.

(** No event but a re-render creates an element. *)
Lemma step_heap_length e s :
  in_session e = true -> length (heap (step e s)) = length (heap s).
Proof.
  intros He. destruct (dispatch_setup e s He) as (Dh & _).
  apply Forall2_length in Dh.
  pose proof (commit_heap s (dispatch e s)) as Ch. apply Forall2_length in Ch.
  unfold step. congruence.
Qed.

(** A re-render without a reference, while mounted. *)
Lemma step_props_absent p s :
  audioUrl p = None -> mounted s = true ->
  let s' := step (EvProps p) s in
  props s' = p /\ audioRef s' = audioRef s /\ promises s' = promises s
  /\ (heap s' = heap s \/ heap s' = released (loadCleanupRef s) (heap s)).
Proof.
  intros Hu Hm. cbv zeta.
  destruct (load_deps_eqb (props s) p) eqn:Hd.
  { rewrite (step_props_kept p s Hd), Hm. auto. }
  set (s1 := with_heap (with_props s p) (released (loadCleanupRef s) (heap s))).
  assert (E : dispatch (EvProps p) s = loadEffect s1)
    by apply (dispatch_props_changed p s Hm Hd).
  assert (L : loadEffect s1 = _)
    by (apply (loadEffect_absent s1 Hm); cbn [s1 with_heap with_props props];
        now rewrite Hu).
  unfold step.
  rewrite commit_props, commit_audioRef, commit_promises, commit_heap_eq.
  rewrite E, L. cbn [props audioRef promises isMuted heap].
  change (isMuted s1) with (isMuted s). rewrite eqb_reflx. auto.
Qed.

Lemma step_unmounted_props p s : mounted s = false -> step (EvProps p) s = s.
Proof.
  intros Hm. unfold step. cbn [dispatch]. rewrite Hm. now apply commit_same.
Qed.

(** While the reference stays absent: the decision, the elements and the
    requests. *)
Lemma absent_step e s :
  stays_absent e = true -> audioUrl (props s) = None ->
  audioUrl (props (step e s)) = None
  /\ length (heap (step e s)) = length (heap s)
  /\ head_requests (step e s) = head_requests s
  /\ (heap s = [] -> audioRef s = None -> promises s = [] ->
      audioRef (step e s) = None /\ promises (step e s) = []).
Proof.
  intros He Hu.
  destruct (in_session e) eqn:Hs.
  { split; [now rewrite step_props|]. split; [now apply step_heap_length|].
    split; [now apply step_head_requests|].
    intros Hh Ha Hp.
    destruct (step_no_handle e s Hs Hh Ha Hp) as (_ & Ha' & Hp' & _). auto. }
  destruct e; try discriminate Hs. cbn [stays_absent] in He.
  apply bool_decide_eq_true in He.
  destruct (mounted s) eqn:Hm; [|rewrite (step_unmounted_props p s Hm); auto].
  destruct (step_props_absent p s He Hm) as (Hp & Ha & Hpr & Hh).
  split; [now rewrite Hp|].
  split; [destruct Hh as [-> | ->]; [reflexivity|apply released_length]|].
  split; [unfold head_requests; now rewrite Hpr|].
  intros _ Ha0 Hp0. split; congruence.
Qed.

Lemma absent_run evs s :
  forallb stays_absent evs = true -> audioUrl (props s) = None ->
  audioUrl (props (run evs s)) = None
  /\ length (heap (run evs s)) = length (heap s)
  /\ head_requests (run evs s) = head_requests s
  /\ (heap s = [] -> audioRef s = None -> promises s = [] ->
      audioRef (run evs s) = None /\ promises (run evs s) = []).
Proof.
  revert s. induction evs as [|e evs IH]; intros s H Hu; [auto|].
  cbn [forallb] in H. apply andb_true_iff in H as [He H]. rewrite run_cons.
  destruct (absent_step e s He Hu) as (S1 & S2 & S3 & S4).
  destruct (IH (step e s) H S1) as (R1 & R2 & R3 & R4).
  split; [exact R1|]. split; [congruence|]. split; [congruence|].
  intros Hh Ha Hp. destruct (S4 Hh Ha Hp). apply R4; auto.
  rewrite Hh in S2. now apply length_zero_iff_nil.
Qed.

Lemma error_reports_no_element s evs :
  forallb stays_absent evs = true -> audioUrl (props s) = None -> heap s = [] ->
  error_reports s evs = [].
Proof.
  revert s. induction evs as [|e evs IH]; intros s H Hu Hh; [reflexivity|].
  cbn [forallb] in H. apply andb_true_iff in H as [He H].
  destruct (absent_step e s He Hu) as (S1 & S2 & _).
  cbn [error_reports]. rewrite IH; auto.
  - rewrite app_nil_r. destruct e; try reflexivity.
    cbn [error_report]. now rewrite Hh, lookup_nil.
  - rewrite Hh in S2. now apply length_zero_iff_nil.
Qed.

(** C4, as the code has it.  While the asset reference is absent the
    decision is Fallback, at once and throughout, no element is created and
    no HEAD request is issued, across all events and the re-renders that
    keep the reference absent.  When the component is mounted without a
    reference no element exists at all, no promise is in flight and
    [onError] is never called.  When the absence is entered by a re-render
    of a mounted component, the re-render reports nothing, and afterwards
    [onError] is called only by error events of the elements that earlier
    sessions left behind, whose handlers stay attached: without such an
    event the calls are those recorded before. *)
Theorem absent_asset_is_silent_fallback (p : Props) (evs : list Event) :
  audioUrl p = None ->
  forallb stays_absent evs = true ->
  (let s := run evs (mount p) in
   decision (mount p) = Fallback
   /\ decision s = Fallback
   /\ heap s = [] /\ audioRef s = None
   /\ promises s = [] /\ head_requests s = []
   /\ onError_calls s = [])
  /\ (forall s0, mounted s0 = true ->
        let s1 := step (EvProps p) s0 in
        let s := run evs s1 in
        (decision s1 = Fallback
         /\ length (heap s1) = length (heap s0)
         /\ promises s1 = promises s0
         /\ onError_calls s1 = onError_calls s0)
        /\ decision s = Fallback
        /\ length (heap s) = length (heap s0)
        /\ head_requests s = head_requests s0
        /\ onError_calls s = onError_calls s0 ++ error_reports s1 evs
        /\ (forallb (fun e => negb (element_error e)) evs = true ->
            onError_calls s = onError_calls s0)).
Proof.
  intros Hu Hevs. split.
  - intros s. pose proof (mount_absent p Hu) as Em.
    assert (Hm : heap (mount p) = [] /\ audioRef (mount p) = None
                 /\ promises (mount p) = [] /\ onError_calls (mount p) = []
                 /\ props (mount p) = p).
    { rewrite Em. cbn. auto. }
    destruct Hm as (Hh & Ha & Hp & He & Hpr).
    assert (Hu0 : audioUrl (props (mount p)) = None) by now rewrite Hpr.
    destruct (absent_run evs (mount p) Hevs Hu0) as (R1 & R2 & R3 & R4).
    destruct (R4 Hh Ha Hp) as (Ha' & Hp'). fold s in R1, R2, R3, Ha', Hp'.
    split; [now apply decision_absent|].
    split; [now apply decision_absent|].
    split; [rewrite Hh in R2; now apply length_zero_iff_nil|].
    split; [exact Ha'|]. split; [exact Hp'|].
    split; [unfold head_requests; now rewrite Hp'|].
    subst s. rewrite run_onError_calls, He.
    now rewrite error_reports_no_element.
  - intros s0 Hm0 s1 s.
    destruct (step_props_absent p s0 Hu Hm0) as (Hp & Ha & Hpr & Hh).
    fold s1 in Hp, Ha, Hpr, Hh.
    assert (Hu1 : audioUrl (props s1) = None) by now rewrite Hp.
    assert (Hlen : length (heap s1) = length (heap s0)).
    { destruct Hh as [-> | ->]; [reflexivity|apply released_length]. }
    assert (Hc1 : onError_calls s1 = onError_calls s0).
    { subst s1. rewrite step_onError_calls. apply app_nil_r. }
    destruct (absent_run evs s1 Hevs Hu1) as (R1 & R2 & R3 & _).
    fold s in R1, R2, R3.
    assert (Hc : onError_calls s = onError_calls s0 ++ error_reports s1 evs).
    { subst s. now rewrite run_onError_calls, Hc1. }
    split.
    { split; [now apply decision_absent|]. split; [exact Hlen|].
      split; [exact Hpr|exact Hc1]. }
    split; [now apply decision_absent|].
    split; [congruence|].
    split; [rewrite R3; unfold head_requests; now rewrite Hpr|].
    split; [exact Hc|].
    intros Hne. rewrite Hc, error_reports_none by exact Hne. apply app_nil_r.
Qed.

Lemma absent_asset_is_silent_fallback_witness :
  let evs := [EvTogglePlay; EvSeek [50%Q]; EvProps props_absent; EvToggleMute;
              EvTick 1] in
  let s := run evs (mount props_absent) in
  let t := run evs (step (EvProps props_absent) (mount props_real)) in
  decision (mount props_absent) = Fallback
  /\ decision s = Fallback /\ heap s = [] /\ promises s = [] /\ onError_calls s = []
  /\ decision t = Fallback
  /\ head_requests t = head_requests (mount props_real)
  /\ onError_calls t = onError_calls (mount props_real).
Proof.
  destruct (absent_asset_is_silent_fallback props_absent
              [EvTogglePlay; EvSeek [50%Q]; EvProps props_absent; EvToggleMute; EvTick 1])
    as ((H1 & H2 & H3 & _ & H5 & _ & H6) & H7); [reflexivity..|].
  destruct (H7 (mount props_real)) as (_ & H8 & _ & H9 & _ & H10);
    [vm_compute; reflexivity|].
  cbv zeta. split; [exact H1|]. split; [exact H2|]. split; [exact H3|].
  split; [exact H5|]. split; [exact H6|]. split; [exact H8|].
  split; [exact H9|]. apply H10. reflexivity.
Defined.

(** C4 as stated fails for a session entered from a recorded asset: the
    cleanup of the load effect pauses the element and empties its source
    but leaves its handlers attached, so when the released element reports
    an error, [onError] is called while the reference is absent. *)
Lemma released_element_error_reaches_absent_session :
  let s1 := step (EvProps props_absent) (mount props_real) in
  let s := step (EvError 0) s1 in
  audioUrl (props s1) = None
  /\ decision s1 = Fallback
  /\ onError_calls s1 = []
  /\ src <$> heap s1 !! 0 = Some ""%string
  /\ audioUrl (props s) = None
  /\ onError_calls s = [CallOnError 7 "Audio failed to load"].
Proof. vm_compute. repeat split. Qed.

End AudioFacts.

(* ===================================================================== *)
(** ** Properties of FlowchartCompletion *)
(* ===================================================================== *)

Module FlowchartFacts.
Import FlowchartCompletion.

Lemma chars_text l : chars (text l) = l.
Proof. apply list_ascii_of_string_of_list_ascii. Qed.

(** *** Every pass only deletes characters *)

Lemma scan_sublist pat k s : scan pat k s `sublist_of` s.
Proof.
  revert k. induction s as [|c s IH]; intros k; cbn; [constructor|].
  destruct k as [|k]; [|apply sublist_cons, IH].
  destruct (starts_with pat (c :: s)); [apply sublist_cons, IH|apply sublist_skip, IH].
Qed.

Lemma removeAll_sublist pat s : removeAll pat s `sublist_of` s.
Proof. destruct pat; cbn [removeAll]; [reflexivity|apply scan_sublist]. Qed.

Lemma flush_sublist c k pend : flush c k pend `sublist_of` repeat c pend.
Proof. unfold flush. destruct (k <=? pend); [apply sublist_nil_l|reflexivity]. Qed.

Lemma repeat_shift (c : ascii) n (s : list ascii) :
  repeat c n ++ c :: s = repeat c (S n) ++ s.
Proof. induction n as [|n IH]; cbn; [reflexivity|]. now rewrite IH. Qed.

Lemma dropRuns_sublist c k pend s :
  dropRuns c k pend s `sublist_of` repeat c pend ++ s.
Proof.
  revert pend. induction s as [|x s IH]; intros pend; cbn [dropRuns].
  - rewrite app_nil_r. apply flush_sublist.
  - destruct (Ascii.eqb x c) eqn:E.
    + apply Ascii.eqb_eq in E. subst x. rewrite repeat_shift. apply IH.
    + apply sublist_app; [apply flush_sublist|]. apply sublist_skip, (IH 0).
Qed.

Lemma trimStart_suffix s : exists w, s = w ++ trimStart s.
Proof.
  induction s as [|c s [w IH]]; cbn; [now exists []|].
  destruct (is_ws c); [|now exists []].
  exists (c :: w). cbn. now rewrite <- IH.
Qed.

Lemma trimStart_sublist s : trimStart s `sublist_of` s.
Proof.
  destruct (trimStart_suffix s) as [w Hw]. rewrite Hw at 2.
  now apply sublist_inserts_l.
Qed.

Lemma trimStart_head s c : head (trimStart s) = Some c -> is_ws c = false.
Proof.
  induction s as [|x s IH]; cbn; [discriminate|].
  destruct (is_ws x) eqn:E; [exact IH|]. cbn. now intros [= <-].
Qed.

Lemma trimStart_last s : trimStart s = [] \/ last (trimStart s) = last s.
Proof.
  destruct (trimStart_suffix s) as [w Hw].
  destruct (trimStart s) as [|c t] eqn:E; [now left|right].
  rewrite Hw. now rewrite last_app_cons.
Qed.

Lemma trim_sublist s : trim s `sublist_of` s.
Proof.
  unfold trim. transitivity (trimStart s); [|apply trimStart_sublist].
  set (t := trimStart s).
  destruct (trimStart_suffix (reverse t)) as [w Hw].
  assert (Ht : t = reverse (trimStart (reverse t)) ++ reverse w).
  { rewrite <- reverse_app, <- Hw. now rewrite reverse_involutive. }
  rewrite Ht at 2. now apply sublist_inserts_r.
Qed.

Lemma trim_last s c : last (trim s) = Some c -> is_ws c = false.
Proof. unfold trim. rewrite last_reverse. apply trimStart_head. Qed.

Lemma trim_head s c : head (trim s) = Some c -> is_ws c = false.
Proof.
  unfold trim. rewrite head_reverse. set (t := trimStart s).
  destruct (trimStart_last (reverse t)) as [E|E].
  - rewrite E. discriminate.
  - rewrite E, last_reverse. apply trimStart_head.
Qed.

(** *** Markers that are removed for good *)

Lemma starts_with_app pat s :
  starts_with pat s = true <-> exists rest, s = pat ++ rest.
Proof.
  revert s. induction pat as [|p pat IH]; intros s; cbn.
  - split; [intros _; now exists s|auto].
  - destruct s as [|c s].
    + split; [discriminate|]. intros [rest H]. discriminate.
    + rewrite andb_true_iff, Ascii.eqb_eq, IH. split.
      * intros [-> [rest ->]]. now exists rest.
      * intros [rest [= -> ->]]. eauto.
Qed.

Lemma starts_with_head o tl c s : starts_with (o :: tl) (c :: s) = true -> c = o.
Proof. cbn. rewrite andb_true_iff, Ascii.eqb_eq. now intros [-> _]. Qed.

Lemma opens_only_drop o pat k s : opens_only o pat s -> opens_only o pat (drop k s).
Proof.
  revert k. induction s as [|c s IH]; intros k H; [now destruct k|].
  destruct k as [|k]; [exact H|]. cbn. apply IH, H.
Qed.

(** When every opening character starts a match, the scan drops them all. *)
Lemma scan_drops_openings o tl k s :
  opens_only o (o :: tl) (drop k s) -> o ∉ scan (o :: tl) k s.
Proof.
  revert k. induction s as [|c s IH]; intros k H; cbn [scan].
  - apply not_elem_of_nil.
  - destruct k as [|k]; [|apply IH, H].
    cbn [drop] in H. destruct H as [Hc Hs].
    destruct (starts_with (o :: tl) (c :: s)) eqn:E.
    + apply IH. now apply opens_only_drop.
    + apply not_elem_of_cons. split.
      * intros Heq. symmetry in Heq. specialize (Hc Heq). discriminate.
      * apply (IH 0). exact Hs.
Qed.

(** Text without the opening character is copied by the scan. *)
Lemma scan_copies o tl u rest :
  o ∉ u -> scan (o :: tl) 0 (u ++ rest) = u ++ scan (o :: tl) 0 rest.
Proof.
  induction u as [|c u IH]; intros Hu; [reflexivity|].
  apply not_elem_of_cons in Hu as [Hc Hu]. cbn [app scan].
  destruct (starts_with (o :: tl) (c :: u ++ rest)) eqn:E.
  - apply starts_with_head in E. congruence.
  - now rewrite IH.
Qed.

(** Removing one kind of marker leaves the other kind in one piece. *)
Lemma scan_keeps_other o1 tl1 o2 tl2 k s :
  o1 ∉ tl2 ->
  opens_only o2 (o2 :: tl2) (drop k s) ->
  opens_only o2 (o2 :: tl2) (scan (o1 :: tl1) k s).
Proof.
  intros Hfree. revert k. induction s as [|c s IH]; intros k H; cbn [scan].
  - exact I.
  - destruct k as [|k]; [|apply IH, H].
    cbn [drop] in H. destruct H as [Hc Hs].
    destruct (starts_with (o1 :: tl1) (c :: s)) eqn:E.
    + apply IH. now apply opens_only_drop.
    + cbn [opens_only]. split; [|apply (IH 0), Hs].
      intros ->. specialize (Hc eq_refl).
      apply starts_with_app in Hc as [rest Hrest]. cbn in Hrest.
      injection Hrest as ->. rewrite scan_copies by exact Hfree.
      apply starts_with_app. now exists (scan (o1 :: tl1) 0 rest).
Qed.

Lemma contains_head o tl s : contains (o :: tl) s = true -> o ∈ s.
Proof.
  induction s as [|c s IH]; [cbn; discriminate|].
  cbn [contains]. rewrite orb_true_iff. intros [H|H].
  - apply starts_with_head in H. subst. apply list_elem_of_here.
  - apply list_elem_of_further, IH, H.
Qed.

Lemma string_of_uint_digits d : Forall digit (chars (NilEmpty.string_of_uint d)).
Proof.
  induction d; cbn; [apply Forall_nil_2|..];
    (apply Forall_cons_2; [unfold digit; vm_compute; lia|assumption]).
Qed.

Lemma decimal_digits n : Forall digit (decimal n).
Proof.
  unfold decimal, NilZero.string_of_uint.
  destruct (Nat.to_uint n) eqn:E; try (rewrite <- E; apply string_of_uint_digits).
  apply Forall_cons_2; [unfold digit; vm_compute; lia|apply Forall_nil_2].
Qed.

Lemma not_digit_not_in c l : ~ digit c -> Forall digit l -> c ∉ l.
Proof.
  intros Hc HF Hin. rewrite Forall_forall in HF. apply Hc, HF, Hin.
Qed.

Lemma marker_shape o c n : marker o c n = o :: (decimal n ++ [c]).
Proof. reflexivity. Qed.

Lemma paren_not_in_bracket_tail n : "("%char ∉ decimal n ++ ["]"%char].
Proof.
  rewrite not_elem_of_app. split.
  - apply not_digit_not_in; [|apply decimal_digits]. unfold digit. vm_compute. lia.
  - rewrite not_elem_of_cons. split; [discriminate|apply not_elem_of_nil].
Qed.

(** C10, as the code has it.  Without a question number (absent or 0) the
    label is returned unchanged.  With question number [n] the result is what
    five deletion passes and a trim leave of the label: the occurrences of
    [(n)], then those of [[n]], then the runs of two or more underscores, then
    the runs of three or more dots, then [______].  It is made of characters
    of the label in their order and neither starts nor ends with white space.
    Each pass deletes what it finds in its own input, so the result is
    guaranteed free of the markers [(n)] and [[n]] when every opening
    parenthesis and every opening bracket of the label starts such a
    marker. *)
Theorem stripBlankMarker_result (label : string) (m : nat) :
  stripBlankMarker label None = label
  /\ stripBlankMarker label (Some 0) = label
  /\ (let n := S m in
      let r := chars (stripBlankMarker label (Some n)) in
      r = trim (removeAll (chars "______")
                  (dropRuns "." 3 0
                     (dropRuns "_" 2 0
                        (removeAll (marker "[" "]" n)
                           (removeAll (marker "(" ")" n) (chars label))))))
      /\ r `sublist_of` chars label
      /\ (forall c, head r = Some c -> is_ws c = false)
      /\ (forall c, last r = Some c -> is_ws c = false)
      /\ (opens_only "(" (marker "(" ")" n) (chars label) ->
          opens_only "[" (marker "[" "]" n) (chars label) ->
          ("("%char ∉ r) /\ ("["%char ∉ r)
          /\ contains (marker "(" ")" n) r = false
          /\ contains (marker "[" "]" n) r = false)).
Proof.
  split; [reflexivity|]. split; [reflexivity|].
  intros n r.
  set (x1 := removeAll (marker "(" ")" n) (chars label)).
  set (x2 := removeAll (marker "[" "]" n) x1).
  set (x5 := removeAll (chars "______") (dropRuns "." 3 0 (dropRuns "_" 2 0 x2))).
  assert (Hr : r = trim x5).
  { subst r. unfold stripBlankMarker. apply chars_text. }
  assert (H52 : x5 `sublist_of` x2).
  { subst x5. etransitivity; [apply removeAll_sublist|].
    etransitivity; [apply (dropRuns_sublist "." 3 0)|].
    apply (dropRuns_sublist "_" 2 0). }
  assert (Hr2 : r `sublist_of` x2).
  { rewrite Hr. etransitivity; [apply trim_sublist|exact H52]. }
  assert (H21 : x2 `sublist_of` x1) by apply removeAll_sublist.
  assert (H10 : x1 `sublist_of` chars label) by apply removeAll_sublist.
  split; [exact Hr|].
  split; [do 2 (etransitivity; [eassumption|]); exact H10|].
  split; [rewrite Hr; apply trim_head|].
  split; [rewrite Hr; apply trim_last|].
  intros Hp Hb.
  assert (Hx1 : "("%char ∉ x1).
  { subst x1. rewrite marker_shape. cbn [removeAll].
    apply scan_drops_openings. exact Hp. }
  assert (Hx1b : opens_only "[" (marker "[" "]" n) x1).
  { subst x1. rewrite (marker_shape "(" ")"). cbn [removeAll].
    rewrite (marker_shape "[" "]"). apply scan_keeps_other.
    - apply paren_not_in_bracket_tail.
    - exact Hb. }
  assert (Hx2 : "["%char ∉ x2).
  { subst x2. rewrite marker_shape. cbn [removeAll].
    apply scan_drops_openings. rewrite <- marker_shape. exact Hx1b. }
  assert (Hrp : "("%char ∉ r).
  { intros Hin. apply Hx1. eapply elem_of_sublist; [exact Hin|].
    etransitivity; eassumption. }
  assert (Hrb : "["%char ∉ r).
  { intros Hin. apply Hx2. eapply elem_of_sublist; eassumption. }
  split; [exact Hrp|]. split; [exact Hrb|]. split.
  - destruct (contains (marker "(" ")" n) r) eqn:E; [|reflexivity].
    apply contains_head in E. contradiction.
  - destruct (contains (marker "[" "]" n) r) eqn:E; [|reflexivity].
    apply contains_head in E. contradiction.
Qed.

Lemma stripBlankMarker_result_witness :
  let label := " Heat (3) the mix ____ then cool [3]... "%string in
  stripBlankMarker label (Some 3) = "Heat  the mix  then cool"%string
  /\ contains (marker "(" ")" 3) (chars (stripBlankMarker label (Some 3))) = false
  /\ contains (marker "[" "]" 3) (chars (stripBlankMarker label (Some 3))) = false.
Proof.
  pose proof (stripBlankMarker_result " Heat (3) the mix ____ then cool [3]... " 2)
    as (_ & _ & _ & _ & _ & _ & H).
  assert (Hp : opens_only "(" (marker "(" ")" 3)
                 (chars " Heat (3) the mix ____ then cool [3]... ")).
  { vm_compute. repeat split; intros E; try discriminate E; reflexivity. }
  assert (Hb : opens_only "[" (marker "[" "]" 3)
                 (chars " Heat (3) the mix ____ then cool [3]... ")).
  { vm_compute. repeat split; intros E; try discriminate E; reflexivity. }
  destruct (H Hp Hb) as (_ & _ & H1 & H2).
  split; [vm_compute; reflexivity|]. split; [exact H1|exact H2].
Defined.

(** C10 as stated fails: the deletion of [(3)] inside [((3)3)] joins the
    text around it into a new [(3)], and the deletion of the underscores in
    [(3__)] does the same; the marker stays in the rendered text. *)
Lemma nested_marker_survives :
  stripBlankMarker "((3)3)" (Some 3) = "(3)"%string
  /\ contains (marker "(" ")" 3) (chars (stripBlankMarker "((3)3)" (Some 3))) = true
  /\ stripBlankMarker "(3__)" (Some 3) = "(3)"%string
  /\ contains (marker "(" ")" 3) (chars (stripBlankMarker "(3__)" (Some 3))) = true.
Proof. vm_compute. repeat split. Qed.

(** *** Text without markers *)

Lemma starts_with_nil_r pat : starts_with pat [] = true -> pat = [].
Proof. destruct pat; [reflexivity|discriminate]. Qed.

(** A scan that finds no occurrence copies the text. *)
Lemma scan_absent pat s : contains pat s = false -> scan pat 0 s = s.
Proof.
  induction s as [|c s IH]; intros H; [reflexivity|].
  cbn [contains] in H. apply orb_false_iff in H as [H1 H2].
  cbn [scan]. rewrite H1. now rewrite IH.
Qed.

Lemma removeAll_absent pat s : contains pat s = false -> removeAll pat s = s.
Proof. destruct pat; [reflexivity|apply scan_absent]. Qed.

Lemma starts_with_prefix p q s :
  starts_with (p ++ q) s = true -> starts_with p s = true.
Proof.
  rewrite !starts_with_app. intros [rest ->]. rewrite <- app_assoc. eauto.
Qed.

Lemma contains_prefix p q s : contains p s = false -> contains (p ++ q) s = false.
Proof.
  induction s as [|c s IH]; cbn [contains]; rewrite !orb_false_iff.
  - intros [H _]. split; [|reflexivity].
    destruct (starts_with (p ++ q) []) eqn:E; [|reflexivity].
    apply starts_with_prefix in E. congruence.
  - intros [H1 H2]. split; [|apply IH, H2].
    destruct (starts_with (p ++ q) (c :: s)) eqn:E; [|reflexivity].
    apply starts_with_prefix in E. congruence.
Qed.

Lemma starts_with_repeat_short c k j x (s : list ascii) :
  j < k -> x <> c -> starts_with (repeat c k) (repeat c j ++ x :: s) = false.
Proof.
  revert k. induction j as [|j IH]; intros k Hk Hx.
  - destruct k as [|k]; [lia|]. cbn. 
    destruct (Ascii.eqb c x) eqn:E; [|reflexivity].
    apply Ascii.eqb_eq in E. congruence.
  - destruct k as [|k]; [lia|]. cbn. rewrite Ascii.eqb_refl. cbn.
    apply IH; [lia|exact Hx].
Qed.

Lemma starts_with_repeat_end c k j :
  j < k -> starts_with (repeat c k) (repeat c j) = false.
Proof.
  revert k. induction j as [|j IH]; intros k Hk.
  - destruct k as [|k]; [lia|]. reflexivity.
  - destruct k as [|k]; [lia|]. cbn. rewrite Ascii.eqb_refl. cbn.
    apply IH. lia.
Qed.

(** A short run followed by another character holds no long run. *)
Lemma contains_repeat_short c k j x (s : list ascii) :
  j < k -> x <> c ->
  contains (repeat c k) (repeat c j ++ x :: s) = contains (repeat c k) s.
Proof.
  intros Hk Hx. induction j as [|j IH].
  - cbn [repeat app contains].
    pose proof (starts_with_repeat_short c k 0 x s Hk Hx) as E.
    cbn [repeat app] in E. now rewrite E.
  - cbn [repeat app contains]. rewrite IH by lia.
    change (c :: repeat c j ++ x :: s) with (repeat c (S j) ++ x :: s).
    now rewrite starts_with_repeat_short.
Qed.

Lemma contains_repeat_end c k j : j < k -> contains (repeat c k) (repeat c j) = false.
Proof.
  intros Hk. induction j as [|j IH].
  - cbn. destruct k; [lia|reflexivity].
  - cbn [repeat contains]. rewrite IH by lia.
    change (c :: repeat c j) with (repeat c (S j)).
    now rewrite starts_with_repeat_end.
Qed.

(** What the pass [/c{k,}/g] leaves holds no run of [k] characters [c]. *)
Lemma dropRuns_no_run c k pend s :
  0 < k -> contains (repeat c k) (dropRuns c k pend s) = false.
Proof.
  intros Hk. revert pend. induction s as [|x s IH]; intros pend; cbn [dropRuns].
  - unfold flush. destruct (k <=? pend) eqn:E.
    + cbn. destruct k; [lia|reflexivity].
    + apply Nat.leb_gt in E. now apply contains_repeat_end.
  - destruct (Ascii.eqb x c) eqn:Ex; [apply IH|].
    assert (Hx : x <> c) by (intros ->; rewrite Ascii.eqb_refl in Ex; discriminate).
    unfold flush. destruct (k <=? pend) eqn:E.
    + change ([] ++ x :: dropRuns c k 0 s) with (repeat c 0 ++ x :: dropRuns c k 0 s).
      rewrite contains_repeat_short by assumption. apply IH.
    + apply Nat.leb_gt in E. rewrite contains_repeat_short by assumption. apply IH.
Qed.

(** Text without a run of [k] characters [c] is copied by the pass. *)
Lemma dropRuns_absent c k pend s :
  pend < k ->
  contains (repeat c k) (repeat c pend ++ s) = false ->
  dropRuns c k pend s = repeat c pend ++ s.
Proof.
  revert pend. induction s as [|x s IH]; intros pend Hk H; cbn [dropRuns].
  - unfold flush. apply Nat.leb_gt in Hk. rewrite Hk. now rewrite app_nil_r.
  - destruct (Ascii.eqb x c) eqn:Ex.
    + apply Ascii.eqb_eq in Ex. subst x. rewrite repeat_shift in *.
      apply IH; [|exact H].
      destruct (decide (S pend < k)) as [|Hn]; [assumption|exfalso].
      assert (k = S pend) by lia. subst k.
      assert (Hc : contains (repeat c (S pend)) (repeat c (S pend) ++ s) = true).
      { clear. destruct (repeat c (S pend) ++ s) eqn:E.
        - discriminate.
        - rewrite <- E. cbn [contains].
          assert (Hs : starts_with (repeat c (S pend)) (repeat c (S pend) ++ s) = true)
            by (apply starts_with_app; eauto).
          rewrite E in *. cbn [contains]. now rewrite Hs. }
      congruence.
    + assert (Hx : x <> c) by (intros ->; rewrite Ascii.eqb_refl in Ex; discriminate).
      rewrite contains_repeat_short in H by assumption.
      unfold flush. pose proof Hk as Hk'. apply Nat.leb_gt in Hk'. rewrite Hk'.
      f_equal. f_equal. apply (IH 0); [lia|exact H].
Qed.

Lemma contains_app_l pat w s :
  contains pat s = true -> contains pat (w ++ s) = true.
Proof.
  intros H. induction w as [|c w IH]; [exact H|].
  cbn [app contains]. rewrite IH. apply orb_true_r.
Qed.

Lemma contains_app_r pat s w :
  contains pat s = true -> contains pat (s ++ w) = true.
Proof.
  induction s as [|c s IH]; cbn [contains app].
  - rewrite orb_false_r. intros H. apply starts_with_nil_r in H. subst pat.
    destruct w; reflexivity.
  - rewrite !orb_true_iff. intros [H|H]; [left|right; apply IH, H].
    apply starts_with_app in H as [rest H]. apply starts_with_app.
    exists (rest ++ w). change (c :: s ++ w) with ((c :: s) ++ w).
    rewrite H. now rewrite app_assoc.
Qed.

(** [trim] keeps one piece of the text. *)
Lemma trim_infix s : exists w w', s = w ++ trim s ++ w'.
Proof.
  unfold trim. destruct (trimStart_suffix s) as [w Hw].
  destruct (trimStart_suffix (reverse (trimStart s))) as [v Hv].
  exists w, (reverse v). rewrite <- reverse_app, <- Hv, reverse_involutive.
  exact Hw.
Qed.

Lemma contains_trim pat s : contains pat s = false -> contains pat (trim s) = false.
Proof.
  intros H. destruct (contains pat (trim s)) eqn:E; [|reflexivity].
  destruct (trim_infix s) as (w & w' & Hs).
  rewrite Hs in H. rewrite contains_app_l in H; [discriminate|].
  now apply contains_app_r.
Qed.

Lemma absent_no_contains c tl s : c ∉ s -> contains (c :: tl) s = false.
Proof.
  intros H. destruct (contains (c :: tl) s) eqn:E; [|reflexivity].
  apply contains_head in E. contradiction.
Qed.

Lemma trimStart_id s :
  (forall c, head s = Some c -> is_ws c = false) -> trimStart s = s.
Proof.
  destruct s as [|c s]; [reflexivity|]. intros H. cbn.
  now rewrite (H c eq_refl).
Qed.

Lemma trim_id s :
  (forall c, head s = Some c -> is_ws c = false) ->
  (forall c, last s = Some c -> is_ws c = false) ->
  trim s = s.
Proof.
  intros Hh Hl. unfold trim. rewrite (trimStart_id s Hh).
  rewrite trimStart_id; [apply reverse_involutive|].
  intros c. rewrite head_reverse. apply Hl.
Qed.

(** X12. A label that holds none of the patterns is only trimmed; when it
    neither starts nor ends with white space it is rendered as it is. *)
Theorem stripBlankMarker_plain_label (label : string) (m : nat) :
  contains (marker "(" ")" (S m)) (chars label) = false ->
  contains (marker "[" "]" (S m)) (chars label) = false ->
  contains (chars "__") (chars label) = false ->
  contains (chars "...") (chars label) = false ->
  stripBlankMarker label (Some (S m)) = text (trim (chars label))
  /\ ((forall c, head (chars label) = Some c -> is_ws c = false) ->
      (forall c, last (chars label) = Some c -> is_ws c = false) ->
      stripBlankMarker label (Some (S m)) = label).
Proof.
  intros Hp Hb Hu Hd.
  assert (E : stripBlankMarker label (Some (S m)) = text (trim (chars label))).
  { unfold stripBlankMarker.
    rewrite (removeAll_absent _ _ Hp), (removeAll_absent _ _ Hb).
    rewrite (dropRuns_absent "_" 2 0) by first [lia | exact Hu].
    cbn [repeat app].
    rewrite (dropRuns_absent "." 3 0) by first [lia | exact Hd].
    cbn [repeat app].
    rewrite removeAll_absent; [reflexivity|].
    apply (contains_prefix (chars "__") (chars "____")), Hu. }
  split; [exact E|].
  intros Hh Hl. rewrite E, trim_id by assumption.
  apply string_of_list_ascii_of_string.
Qed.

Lemma stripBlankMarker_plain_label_witness :
  stripBlankMarker " Boil (4) the water. " (Some 3) = "Boil (4) the water."%string
  /\ stripBlankMarker "Boil the water" (Some 3) = "Boil the water"%string.
Proof.
  split.
  - refine (proj1 (stripBlankMarker_plain_label " Boil (4) the water. " 2 _ _ _ _));
      vm_compute; reflexivity.
  - refine (proj2 (stripBlankMarker_plain_label "Boil the water" 2 _ _ _ _) _ _).
    1-4: vm_compute; reflexivity.
    all: intros c [= <-]; vm_compute; reflexivity.
Defined.

(** X13. In a label without dots no run of underscores survives, and in a
    label without underscores no run of three dots does. *)
Theorem stripBlankMarker_drops_blank_runs (label : string) (m : nat) :
  let r := chars (stripBlankMarker label (Some (S m))) in
  ("."%char ∉ chars label -> contains (chars "__") r = false)
  /\ ("_"%char ∉ chars label -> contains (chars "...") r = false).
Proof.
  intros r.
  set (x2 := removeAll (marker "[" "]" (S m))
               (removeAll (marker "(" ")" (S m)) (chars label))).
  assert (H2 : x2 `sublist_of` chars label).
  { subst x2. etransitivity; apply removeAll_sublist. }
  set (x3 := dropRuns "_" 2 0 x2).
  assert (H3 : x3 `sublist_of` x2) by apply (dropRuns_sublist "_" 2 0).
  assert (Hr : r = trim (removeAll (chars "______") (dropRuns "." 3 0 x3))).
  { subst r. unfold stripBlankMarker. apply chars_text. }
  split; intros Hfree; rewrite Hr; apply contains_trim.
  - assert (Hx3 : "."%char ∉ x3).
    { intros Hin. apply Hfree. eapply elem_of_sublist; [exact Hin|].
      etransitivity; eassumption. }
    assert (Hu : contains (chars "__") x3 = false)
      by (apply (dropRuns_no_run "_" 2 0); lia).
    rewrite (dropRuns_absent "." 3 0); cbn [repeat app];
      [|lia|apply (absent_no_contains "." ["."; "."]%char), Hx3].
    rewrite removeAll_absent; [exact Hu|].
    apply (contains_prefix (chars "__") (chars "____")), Hu.
  - assert (Hx2 : "_"%char ∉ x2).
    { intros Hin. apply Hfree. eapply elem_of_sublist; eassumption. }
    assert (E3 : x3 = x2).
    { subst x3. rewrite (dropRuns_absent "_" 2 0); cbn [repeat app];
        [reflexivity|lia|apply (absent_no_contains "_" ["_"]%char), Hx2]. }
    assert (Hd : contains (chars "...") (dropRuns "." 3 0 x3) = false)
      by (apply (dropRuns_no_run "." 3 0); lia).
    rewrite removeAll_absent; [exact Hd|].
    apply (absent_no_contains "_" (chars "_____")).
    intros Hin. apply Hx2. rewrite <- E3.
    eapply elem_of_sublist; [exact Hin|]. apply (dropRuns_sublist "." 3 0).
Qed.

Lemma stripBlankMarker_drops_blank_runs_witness :
  contains (chars "__") (chars (stripBlankMarker "Heat (3) ____ the _ mix ___" (Some 3))) = false
  /\ contains (chars "...") (chars (stripBlankMarker "Heat .... the .. mix ..." (Some 3))) = false
  /\ stripBlankMarker "Heat .... the .. mix ..." (Some 3) = "Heat  the .. mix"%string.
Proof.
  split; [|split].
  - apply (proj1 (stripBlankMarker_drops_blank_runs "Heat (3) ____ the _ mix ___" 2)).
    vm_compute. intros H. 
    repeat (apply elem_of_cons in H as [H|H]; [discriminate H|]).
    now apply elem_of_nil in H.
  - apply (proj2 (stripBlankMarker_drops_blank_runs "Heat .... the .. mix ..." 2)).
    vm_compute. intros H. 
    repeat (apply elem_of_cons in H as [H|H]; [discriminate H|]).
    now apply elem_of_nil in H.
  - vm_compute. reflexivity.
Defined.

(** *** The steps of the chart *)

Lemma renderSteps_length steps answers cur :
  length (renderSteps steps answers cur) = length steps.
Proof. unfold renderSteps. apply length_imap. Qed.

Lemma renderSteps_lookup steps answers cur i :
  renderSteps steps answers cur !! i
  = renderStep answers cur (length steps) i <$> steps !! i.
Proof. unfold renderSteps. apply list_lookup_imap. Qed.

Lemma arrows_count answers cur total k (l : list FlowchartStep) :
  k + length l = total ->
  length (List.filter arrow (imap (fun i => renderStep answers cur total (k + i)) l))
  = length l - 1.
Proof.
  revert k. induction l as [|x l IH]; intros k Hk; [reflexivity|].
  rewrite imap_cons. cbn [List.filter length] in *.
  assert (E : imap ((fun i => renderStep answers cur total (k + i)) ∘ S) l
              = imap (fun i => renderStep answers cur total (S k + i)) l).
  { apply imap_ext. intros i y _. cbn. f_equal. lia. }
  rewrite E. specialize (IH (S k) ltac:(lia)).
  unfold renderStep at 1. cbn [arrow]. unfold shouldRenderArrow.
  destruct (k + 0 + 1 <? total) eqn:Ea.
  - apply Nat.ltb_lt in Ea. cbn [length]. rewrite IH. lia.
  - apply Nat.ltb_ge in Ea. rewrite IH. lia.
Qed.

(** X14. The chart has one box per step, in the order of the steps; the
    arrow is drawn behind every box but the last, so [n] steps are joined by
    [n - 1] arrows and an empty chart has none. *)
Theorem arrows_join_consecutive_steps (steps : list FlowchartStep)
    (answers : gmap nat string) (cur : nat) :
  let views := renderSteps steps answers cur in
  length views = length steps
  /\ key <$> views = id <$> steps
  /\ (forall i v, views !! i = Some v ->
        arrow v = true <-> i + 1 < length steps)
  /\ length (List.filter arrow views) = length steps - 1.
Proof.
  intros views. split; [apply renderSteps_length|]. split; [|split].
  - apply list_eq. intros i. subst views.
    rewrite !list_lookup_fmap, renderSteps_lookup.
    now destruct (steps !! i).
  - intros i v. subst views. rewrite renderSteps_lookup.
    destruct (steps !! i); [|discriminate]. intros [= <-].
    unfold renderStep. cbn [arrow]. unfold shouldRenderArrow.
    apply Nat.ltb_lt.
  - subst views. unfold renderSteps.
    apply (arrows_count answers cur (length steps) 0 steps). reflexivity.
Qed.

Lemma arrows_join_consecutive_steps_witness :
  let steps := [mkStep "a" "Start" None None;
                mkStep "b" "Heat (2)" (Some 2) None;
                mkStep "c" "Cool (3)" (Some 3) None] in
  let views := renderSteps steps ∅ 3 in
  arrow <$> views = [true; true; false]
  /\ length (List.filter arrow views) = 2
  /\ length (List.filter arrow (renderSteps [] ∅ 3)) = 0.
Proof.
  split; [vm_compute; reflexivity|]. split.
  - apply (arrows_join_consecutive_steps
             [mkStep "a" "Start" None None;
              mkStep "b" "Heat (2)" (Some 2) None;
              mkStep "c" "Cool (3)" (Some 3) None] ∅ 3).
  - apply (arrows_join_consecutive_steps [] ∅ 3).
Defined.

Lemma text_app l l' : text (l ++ l') = (text l ++ text l')%string.
Proof. unfold text. induction l as [|c l IH]; cbn; [reflexivity|]. now rewrite IH. Qed.

Lemma answerOf_default answers n : answerOf answers n = default ""%string (answers !! n).
Proof. unfold answerOf. now destruct (answers !! n) as [[|]|]. Qed.

(** X15. A step has an input exactly when it has a question number other
    than 0. The input shows the answer recorded under that number, or
    nothing when none is recorded, reports changes under that number, and
    carries the number in parentheses as its placeholder; the view of a step
    depends on no other answer. A step without a number keeps its label as
    it is. *)
Theorem step_input_shows_its_answer (answers : gmap nat string)
    (cur total index : nat) (step : FlowchartStep) :
  let v := renderStep answers cur total index step in
  (truthy_qnum (questionNumber step) = false ->
   input v = None /\ cleanLabel v = label step)
  /\ (forall n, questionNumber step = Some (S n) ->
        input v = Some (mkInput (default ""%string (answers !! S n))
                          (text (marker "(" ")" (S n))) (Some (S n)))
        /\ (answers !! S n = None -> value <$> input v = Some ""%string)
        /\ (forall a, renderStep (<[S n := a]> answers) cur total index step
                      = mkStepView (key v) (isActive v) (cleanLabel v)
                          (Some (mkInput a (text (marker "(" ")" (S n))) (Some (S n))))
                          (arrow v))
        /\ (forall k a, k <> S n ->
              renderStep (<[k := a]> answers) cur total index step = v))
  /\ (isActive v = true <-> questionNumber step = Some cur).
Proof.
  intros v. split; [|split].
  - subst v. unfold renderStep. cbn [input cleanLabel].
    destruct (questionNumber step) as [[|n]|]; cbn; try discriminate; auto.
  - intros n Hn.
    assert (Hm : text (marker "(" ")" (S n)) = ("(" ++ template (Some (S n)) ++ ")")%string).
    { unfold marker, template.
      change (text ("("%char :: decimal (S n) ++ [")"%char]))
        with (String "(" (text (decimal (S n) ++ [")"%char]))).
      rewrite text_app. reflexivity. }
    subst v. unfold renderStep. rewrite Hn. cbn [truthy_qnum input key isActive cleanLabel arrow].
    rewrite Hm, !answerOf_default. split; [reflexivity|]. split; [|split].
    + intros ->. reflexivity.
    + intros a. rewrite answerOf_default, lookup_insert_eq. reflexivity.
    + intros k a Hk. rewrite answerOf_default, lookup_insert_ne by exact Hk.
      reflexivity.
  - subst v. unfold renderStep. cbn [isActive]. apply bool_decide_eq_true.
Qed.

Lemma step_input_shows_its_answer_witness :
  let step := mkStep "s2" "Heat the mix (3) ____" (Some 3) (Some true) in
  let v := renderStep (<[3 := "steam"%string]> ∅) 3 4 1 step in
  input v = Some (mkInput "steam" "(3)" (Some 3))
  /\ renderStep (<[5 := "ice"%string]> (<[3 := "steam"%string]> ∅)) 3 4 1 step = v
  /\ isActive v = true
  /\ input (renderStep ∅ 3 4 1 (mkStep "s1" "Start" None None)) = None.
Proof.
  pose (step := mkStep "s2" "Heat the mix (3) ____" (Some 3) (Some true)).
  pose (answers := <[3 := "steam"%string]> (∅ : gmap nat string)).
  destruct (step_input_shows_its_answer answers 3 4 1 step) as (_ & H & Ha).
  destruct (H 2 eq_refl) as (H1 & _ & _ & H4).
  split; [|split; [|split]].
  - exact H1.
  - apply (H4 5 "ice"%string). discriminate.
  - apply Ha. reflexivity.
  - apply (step_input_shows_its_answer ∅ 3 4 1 (mkStep "s1" "Start" None None)).
    reflexivity.
Defined.

Lemma active_count (cur : nat) (qs : list (option nat)) :
  NoDup (omap (fun q => q) qs) ->
  length (List.filter (fun q => bool_decide (q = Some cur)) qs) <= 1.
Proof.
  induction qs as [|q qs IH]; intros Hn; [cbn; lia|].
  cbn [List.filter]. destruct (bool_decide (q = Some cur)) eqn:E.
  - apply bool_decide_eq_true in E. subst q. cbn [omap] in Hn.
    cbn in Hn. apply NoDup_cons in Hn as [Hnot Hn]. cbn [length].
    assert (Hz : List.filter (fun q => bool_decide (q = Some cur)) qs = []).
    { clear -Hnot. induction qs as [|q qs IH]; [reflexivity|].
      cbn [List.filter]. destruct (bool_decide (q = Some cur)) eqn:E.
      - apply bool_decide_eq_true in E. subst q. exfalso. apply Hnot.
        cbn. apply list_elem_of_here.
      - apply IH. intros Hin. apply Hnot. destruct q; cbn; [right|]; exact Hin. }
    rewrite Hz. cbn. lia.
  - apply IH. destruct q; cbn in Hn; [apply NoDup_cons in Hn as [_ Hn]|]; exact Hn.
Qed.

(** X16. When the question numbers of the steps are pairwise different, at
    most one box is highlighted. *)
Theorem at_most_one_active_step (steps : list FlowchartStep)
    (answers : gmap nat string) (cur : nat) :
  NoDup (omap questionNumber steps) ->
  length (List.filter isActive (renderSteps steps answers cur)) <= 1.
Proof.
  intros Hn.
  assert (L : forall (g : nat -> FlowchartStep -> StepView) (l : list FlowchartStep),
            (forall i x, isActive (g i x) = bool_decide (questionNumber x = Some cur)) ->
            length (List.filter isActive (imap g l))
            = length (List.filter (fun q => bool_decide (q = Some cur))
                        (questionNumber <$> l))).
  { intros g l. revert g. induction l as [|x l IH]; intros g Hg; [reflexivity|].
    rewrite imap_cons, fmap_cons. cbn [List.filter]. rewrite Hg.
    specialize (IH (g ∘ S) (fun i x => Hg (S i) x)).
    destruct (bool_decide (questionNumber x = Some cur)); cbn [length];
      now rewrite IH. }
  unfold renderSteps. rewrite L by reflexivity.
  apply active_count.
  assert (Eo : omap (fun q => q) (questionNumber <$> steps) = omap questionNumber steps).
  { clear. induction steps as [|x l IH]; [reflexivity|].
    cbn. destruct (questionNumber x); cbn; now rewrite IH. }
  now rewrite Eo.
Qed.

Lemma at_most_one_active_step_witness :
  length (List.filter isActive
            (renderSteps [mkStep "a" "Start" None None;
                          mkStep "b" "Heat (2)" (Some 2) None;
                          mkStep "c" "Cool (3)" (Some 3) None] ∅ 3)) <= 1.
Proof.
  apply at_most_one_active_step. vm_compute.
  repeat (apply NoDup_cons; split;
          [intros H; repeat (apply elem_of_cons in H as [H|H]; [discriminate H|]);
           now apply elem_of_nil in H|]).
  apply NoDup_nil. exact I.
Defined.

(** *** One blank in ordinary text *)

Lemma scan_skip pat w v : scan pat (length w) (w ++ v) = scan pat 0 v.
Proof. induction w as [|c w IH]; [reflexivity|]. exact IH. Qed.

(** At an occurrence the scan drops it and goes on behind it. *)
Lemma scan_match o tl v : scan (o :: tl) 0 ((o :: tl) ++ v) = scan (o :: tl) 0 v.
Proof.
  assert (H : starts_with (o :: tl) ((o :: tl) ++ v) = true)
    by (apply starts_with_app; eauto).
  cbn [app] in *. cbn [scan]. rewrite H.
  replace (length (o :: tl) - 1) with (length tl) by (cbn [length]; lia).
  apply scan_skip.
Qed.

(** One occurrence in text that does not hold its first character. *)
Lemma removeAll_inserted o tl u v :
  o ∉ u -> o ∉ v -> removeAll (o :: tl) (u ++ (o :: tl) ++ v) = u ++ v.
Proof.
  intros Hu Hv. cbn [removeAll]. rewrite scan_copies by exact Hu.
  rewrite scan_match. f_equal. apply scan_absent, absent_no_contains, Hv.
Qed.

Lemma flush_zero c k : flush c k 0 = [].
Proof. unfold flush. now destruct (k <=? 0). Qed.

Lemma dropRuns_copies c k u rest :
  c ∉ u -> dropRuns c k 0 (u ++ rest) = u ++ dropRuns c k 0 rest.
Proof.
  induction u as [|x u IH]; intros Hu; [reflexivity|].
  apply not_elem_of_cons in Hu as [Hx Hu]. cbn [app dropRuns].
  destruct (Ascii.eqb x c) eqn:E; [apply Ascii.eqb_eq in E; congruence|].
  rewrite flush_zero, IH by exact Hu. reflexivity.
Qed.

Lemma dropRuns_run c k pend j v :
  dropRuns c k pend (repeat c j ++ v) = dropRuns c k (pend + j) v.
Proof.
  revert pend. induction j as [|j IH]; intros pend; cbn [repeat app].
  - now rewrite Nat.add_0_r.
  - cbn [dropRuns]. rewrite Ascii.eqb_refl, IH. f_equal. lia.
Qed.

(** A run that is long enough is dropped in front of other text. *)
Lemma dropRuns_end c k pend v :
  c ∉ v -> k <= pend -> dropRuns c k pend v = v.
Proof.
  intros Hv Hk.
  assert (Hf : flush c k pend = []).
  { unfold flush. apply Nat.leb_le in Hk. now rewrite Hk. }
  destruct v as [|x v]; cbn [dropRuns]; [exact Hf|].
  apply not_elem_of_cons in Hv as [Hx Hv].
  destruct (Ascii.eqb x c) eqn:E; [apply Ascii.eqb_eq in E; congruence|].
  rewrite Hf. cbn [app]. f_equal.
  rewrite <- (app_nil_r v) at 1. rewrite dropRuns_copies by exact Hv.
  cbn [dropRuns]. now rewrite flush_zero, app_nil_r.
Qed.

Lemma not_in_repeat (c x : ascii) k : x <> c -> x ∉ repeat c k.
Proof.
  intros Hx Hin. apply list_elem_of_In, repeat_spec in Hin. congruence.
Qed.

Lemma ordinary_app u v : ordinary u -> ordinary v -> ordinary (u ++ v).
Proof.
  intros (U1 & U2 & U3 & U4) (V1 & V2 & V3 & V4).
  repeat split; rewrite not_elem_of_app; auto.
Qed.

(** The passes behind the first two copy text without underscores and
    dots. *)
Lemma blank_passes_copy s :
  "_"%char ∉ s -> "."%char ∉ s ->
  removeAll (chars "______") (dropRuns "." 3 0 (dropRuns "_" 2 0 s)) = s.
Proof.
  intros Hu Hd.
  rewrite <- (app_nil_r s) at 1. rewrite dropRuns_copies by exact Hu.
  cbn [dropRuns]. rewrite flush_zero, app_nil_r.
  rewrite <- (app_nil_r s) at 1. rewrite dropRuns_copies by exact Hd.
  cbn [dropRuns]. rewrite flush_zero, app_nil_r.
  apply removeAll_absent, (absent_no_contains "_" (chars "_____")), Hu.
Qed.

(** X18. Ordinary text with one blank in it is rendered without the blank:
    when the text before and behind the blank holds no parenthesis, bracket,
    underscore or dot, [stripBlankMarker] removes the marker [(n)] or [[n]]
    of the question number, a run of two or more underscores, or a run of
    three or more dots, joins the text around it and trims the result. *)
Theorem stripBlankMarker_removes_single_blank (u v : list ascii) (m k : nat) :
  ordinary u -> ordinary v ->
  let n := S m in
  let shown := text (trim (u ++ v)) in
  stripBlankMarker (text (u ++ marker "(" ")" n ++ v)) (Some n) = shown
  /\ stripBlankMarker (text (u ++ marker "[" "]" n ++ v)) (Some n) = shown
  /\ (2 <= k -> stripBlankMarker (text (u ++ repeat "_"%char k ++ v)) (Some n) = shown)
  /\ (3 <= k -> stripBlankMarker (text (u ++ repeat "."%char k ++ v)) (Some n) = shown).
Proof.
  intros Hu Hv n shown.
  pose proof (ordinary_app u v Hu Hv) as (W1 & W2 & W3 & W4).
  destruct Hu as (U1 & U2 & U3 & U4). destruct Hv as (V1 & V2 & V3 & V4).
  assert (Hb : removeAll (marker "[" "]" n) (u ++ v) = u ++ v)
    by (apply removeAll_absent, absent_no_contains, W2).
  assert (Hp : removeAll (marker "(" ")" n) (u ++ v) = u ++ v)
    by (apply removeAll_absent, absent_no_contains, W1).
  subst n shown. unfold stripBlankMarker. rewrite !chars_text.
  set (n := S m) in *.
  split; [|split; [|split]].
  - assert (E : removeAll (marker "(" ")" n) (u ++ marker "(" ")" n ++ v) = u ++ v).
    { exact (removeAll_inserted "(" (decimal n ++ [")"%char]) u v U1 V1). }
    now rewrite E, Hb, blank_passes_copy.
  - assert (E1 : removeAll (marker "(" ")" n) (u ++ marker "[" "]" n ++ v)
                 = u ++ marker "[" "]" n ++ v).
    { apply removeAll_absent, absent_no_contains.
      rewrite !not_elem_of_app. split; [exact U1|]. split; [|exact V1].
      unfold marker. rewrite not_elem_of_cons. split; [discriminate|].
      apply paren_not_in_bracket_tail. }
    assert (E2 : removeAll (marker "[" "]" n) (u ++ marker "[" "]" n ++ v) = u ++ v).
    { exact (removeAll_inserted "[" (decimal n ++ ["]"%char]) u v U2 V2). }
    now rewrite E1, E2, blank_passes_copy.
  - intros Hk.
    assert (E1 : removeAll (marker "(" ")" n) (u ++ repeat "_"%char k ++ v)
                 = u ++ repeat "_"%char k ++ v).
    { apply removeAll_absent, absent_no_contains.
      rewrite !not_elem_of_app. split; [exact U1|]. split; [|exact V1].
      apply not_in_repeat. discriminate. }
    assert (E2 : removeAll (marker "[" "]" n) (u ++ repeat "_"%char k ++ v)
                 = u ++ repeat "_"%char k ++ v).
    { apply removeAll_absent, absent_no_contains.
      rewrite !not_elem_of_app. split; [exact U2|]. split; [|exact V2].
      apply not_in_repeat. discriminate. }
    assert (E3 : dropRuns "_" 2 0 (u ++ repeat "_"%char k ++ v) = u ++ v).
    { rewrite dropRuns_copies by exact U3. f_equal.
      rewrite dropRuns_run. apply dropRuns_end; [exact V3|lia]. }
    rewrite E1, E2, E3.
    rewrite <- (app_nil_r (u ++ v)) at 1. rewrite dropRuns_copies by exact W4.
    cbn [dropRuns]. rewrite flush_zero, app_nil_r.
    now rewrite removeAll_absent
      by apply (absent_no_contains "_" (chars "_____")), W3.
  - intros Hk.
    assert (E1 : removeAll (marker "(" ")" n) (u ++ repeat "."%char k ++ v)
                 = u ++ repeat "."%char k ++ v).
    { apply removeAll_absent, absent_no_contains.
      rewrite !not_elem_of_app. split; [exact U1|]. split; [|exact V1].
      apply not_in_repeat. discriminate. }
    assert (E2 : removeAll (marker "[" "]" n) (u ++ repeat "."%char k ++ v)
                 = u ++ repeat "."%char k ++ v).
    { apply removeAll_absent, absent_no_contains.
      rewrite !not_elem_of_app. split; [exact U2|]. split; [|exact V2].
      apply not_in_repeat. discriminate. }
    assert (E3 : dropRuns "_" 2 0 (u ++ repeat "."%char k ++ v)
                 = u ++ repeat "."%char k ++ v).
    { rewrite <- (app_nil_r (u ++ repeat "."%char k ++ v)) at 1.
      rewrite dropRuns_copies.
      - cbn [dropRuns]. now rewrite flush_zero, app_nil_r.
      - rewrite !not_elem_of_app. split; [exact U3|]. split; [|exact V3].
        apply not_in_repeat. discriminate. }
    assert (E4 : dropRuns "." 3 0 (u ++ repeat "."%char k ++ v) = u ++ v).
    { rewrite dropRuns_copies by exact U4. f_equal.
      rewrite dropRuns_run. apply dropRuns_end; [exact V4|lia]. }
    rewrite E1, E2, E3, E4.
    now rewrite removeAll_absent
      by apply (absent_no_contains "_" (chars "_____")), W3.
Qed.

Lemma stripBlankMarker_removes_single_blank_witness :
  stripBlankMarker "Heat the mix (3) slowly" (Some 3) = "Heat the mix  slowly"%string
  /\ stripBlankMarker "Heat the mix ____" (Some 3) = "Heat the mix"%string.
Proof.
  assert (Ho : forall s : string,
            forallb (fun c => negb (Ascii.eqb c "(" || Ascii.eqb c "["
                                    || Ascii.eqb c "_" || Ascii.eqb c "."))
                    (chars s) = true -> ordinary (chars s)).
  { intros s. generalize (chars s). clear s. intros l Hl.
    rewrite forallb_forall in Hl.
    repeat split; intros Hin; apply list_elem_of_In, Hl in Hin; discriminate Hin. }
  split.
  - refine (proj1 (stripBlankMarker_removes_single_blank
                     (chars "Heat the mix ") (chars " slowly") 2 0 _ _));
      apply Ho; vm_compute; reflexivity.
  - refine (proj1 (proj2 (proj2 (stripBlankMarker_removes_single_blank
                     (chars "Heat the mix ") (chars "") 2 4 _ _))) _);
      [apply Ho; vm_compute; reflexivity..|lia].
Defined.

End FlowchartFacts.
